(** * human-api: the retrieval core, embedded and verified

    A shallow embedding of the core of the repository: the JavaScript string
    primitives the code relies on, the token-budget packer, the sentence-aware
    chunker (both variants shipped in the repository), the MMR re-ranker and
    selector, the retrieval pipeline, the crypto envelope and the embedding
    worker's queue.  Every definition follows the source function of the same
    name. *)

From Stdlib Require Import Floats.
From Stdlib Require Import ZArith QArith Ascii String Lia Permutation Sorted.
From stdpp Require Import base option list strings gmap.

Set Default Proof Using "Type".
Set Warnings "-inexact-float".
Local Open Scope Z_scope.

(** ** Results of code that may throw *)
Inductive error : Set :=
  | VectorDimensionsMustMatch
  | DEKMustBe256Bits
  | ImportKeyFailed
  | DEKWrappingFailed
  | DEKUnwrappingFailed
  | EncryptionFailed
  | DecryptionFailed.

Inductive res (A : Type) : Type :=
  | Ok (a : A)
  | Throw (e : error).
Arguments Ok {A} a.
Arguments Throw {A} e.

#[global] Instance res_ret : MRet res := fun A a => Ok a.

#[global] Instance res_bind : MBind res := fun A B f m =>
  match m with
  | Ok a => f a
  | Throw e => Throw e
  end.

(** ** Numbers

    A JavaScript number is an IEEE 754 double, [float], with the operations
    of the processor: products, sums, quotients and square roots round to
    the nearest double, ties to even.  Where the code only compares or sorts
    numbers it was given, a finite number is a rational. *)

(** An integer as a number; exact up to [2^53], which the length of a
    string stays below. *)
Definition number (z : Z) : float :=
  match z with
  | Z0 => 0%float
  | Zpos _ => PrimFloat.of_uint63 (Uint63Axioms.of_Z z)
  | Zneg p => PrimFloat.opp (PrimFloat.of_uint63 (Uint63Axioms.of_Z (Zpos p)))
  end.

(** [Math.max(a, b)]: [NaN] if one of the two is, and [+0] above [-0]. *)
Definition Math_max (a b : float) : float :=
  if PrimFloat.is_nan a || PrimFloat.is_nan b then PrimFloat.nan
  else if (a <? b)%float then b
  else if (b <? a)%float then a
  else if PrimFloat.is_zero a && PrimFloat.get_sign a then b
  else a.

(** [x || 0] on a number: [0], [-0] and [NaN] are falsy. *)
Definition or_zero (x : float) : float :=
  if PrimFloat.is_nan x || (x =? 0)%float then 0%float else x.

(** ** Rationals *)
Definition Qlt_bool (a b : Q) : bool := negb (Qle_bool b a).

Definition Qmin (a b : Q) : Q := if Qle_bool a b then a else b.

(** ** [Array.prototype.sort] with a comparator [(a, b) => key(b) - key(a)]

    The sort is stable and descending in the key: an element goes in front of
    the first one whose key is not larger, and the elements are inserted from
    the last to the first. *)
Fixpoint insert_desc_by {A} (key : A -> Q) (x : A) (l : list A) : list A :=
  match l with
  | [] => [x]
  | y :: r => if Qle_bool (key y) (key x) then x :: y :: r
              else y :: insert_desc_by key x r
  end.

Definition sort_desc_by {A} (key : A -> Q) (l : list A) : list A :=
  foldr (insert_desc_by key) [] l.

(** ** JavaScript strings

    A string is the list of its code units.  The development works with 8-bit
    code units (Latin-1); [is_ws] is the restriction of ECMAScript's
    WhiteSpace and LineTerminator classes to that range, which is what both
    [String.prototype.trim] and the regular expression class [\s] use. *)
Module JS.

Abbreviation str := (list ascii).

Definition lit (s : string) : str := list_ascii_of_string s.

Definition len (s : str) : Z := Z.of_nat (length s).

Definition is_ws (c : ascii) : bool :=
  let n := nat_of_ascii c in
  ((9 <=? n)%nat && (n <=? 13)%nat) || (n =? 32)%nat || (n =? 160)%nat.

(** [s.trim()]: leading and trailing white space removed. *)
Fixpoint trimStart (s : str) : str :=
  match s with
  | c :: r => if is_ws c then trimStart r else s
  | [] => []
  end.

Definition trimEnd (s : str) : str := reverse (trimStart (reverse s)).

Definition trim (s : str) : str := trimEnd (trimStart s).

(** A relative index as [slice] resolves it: negative counts from the end,
    everything is clamped to [0, n]. *)
Definition rel_index (n k : Z) : Z :=
  if k <? 0 then Z.max (n + k) 0 else Z.min k n.

(** [s.slice(a, b)] *)
Definition slice (s : str) (a b : Z) : str :=
  let from := rel_index (len s) a in
  let to := rel_index (len s) b in
  take (Z.to_nat (to - from)) (drop (Z.to_nat from) s).

(** [s.slice(a)] *)
Definition slice_from (s : str) (a : Z) : str := slice s a (len s).

(** [s.split(/\s+/)]: the pieces between maximal runs of white space; a
    leading or trailing run leaves an empty piece, and the empty string
    splits into one empty piece. *)
Fixpoint split_ws_go (cur : str) (in_sep : bool) (s : str) : list str :=
  match s with
  | [] => [cur]
  | c :: r =>
      if is_ws c
      then (if in_sep then split_ws_go cur true r
            else cur :: split_ws_go [] true r)
      else split_ws_go (cur ++ [c]) false r
  end.

Definition split_ws (s : str) : list str := split_ws_go [] false s.

(** [l.join(sep)] *)
Fixpoint join (sep : str) (l : list str) : str :=
  match l with
  | [] => []
  | [x] => x
  | x :: r => x ++ sep ++ join sep r
  end.

(** [arr.slice(start)] on an array; [arr.slice(-n)] gives the last [n]
    elements, and the whole array when [n] is 0, since [-0] is [0]. *)
Definition array_slice_from {A} (l : list A) (start : Z) : list A :=
  drop (Z.to_nat (rel_index (Z.of_nat (length l)) start)) l.

Fixpoint is_prefix (p s : str) : bool :=
  match p, s with
  | [], _ => true
  | _ :: _, [] => false
  | a :: p', b :: s' => Ascii.eqb a b && is_prefix p' s'
  end.

Fixpoint indexOf_go (pat s : str) (pos : Z) : Z :=
  if is_prefix pat s then pos
  else match s with
       | [] => -1
       | _ :: r => indexOf_go pat r (pos + 1)
       end.

(** [s.indexOf(pat, from)] *)
Definition indexOf (s pat : str) (from : Z) : Z :=
  let k := Z.min (Z.max from 0) (len s) in
  indexOf_go pat (drop (Z.to_nat k) s) k.

Fixpoint lastIndexOf_go (c : ascii) (s : str) (pos best : Z) : Z :=
  match s with
  | [] => best
  | x :: r => lastIndexOf_go c r (pos + 1) (if Ascii.eqb x c then pos else best)
  end.

(** [s.lastIndexOf(c)] for a one-character pattern. *)
Definition lastIndexOf (s : str) (c : ascii) : Z := lastIndexOf_go c s 0 (-1).

(** [s.toLowerCase()] on Latin-1: A-Z and the accented capitals
    U+00C0..U+00DE (without the multiplication sign U+00D7) move up by 32. *)
Definition lower_char (c : ascii) : ascii :=
  let n := nat_of_ascii c in
  if ((65 <=? n)%nat && (n <=? 90)%nat)
     || ((192 <=? n)%nat && (n <=? 222)%nat && negb (n =? 215)%nat)
  then ascii_of_nat (n + 32) else c.

Definition toLowerCase (s : str) : str := map lower_char s.

(** [s.split(sep)] for a separator that is not empty: the pieces between the
    occurrences of [sep], found from left to right.  [skip] counts the
    characters of an occurrence just found that are still to be passed. *)
Fixpoint split_go (sep : str) (skip : nat) (cur : str) (s : str) : list str :=
  match s with
  | [] => [cur]
  | c :: r =>
      match skip with
      | S k => split_go sep k cur r
      | O => if is_prefix sep s
             then cur :: split_go sep (length sep - 1) [] r
             else split_go sep 0 (cur ++ [c]) r
      end
  end.

Definition split (s sep : str) : list str := split_go sep 0 [] s.

(** [arr.slice(a, b)] on an array. *)
Definition array_slice {A} (l : list A) (a b : Z) : list A :=
  let n := Z.of_nat (length l) in
  let from := rel_index n a in
  let to := rel_index n b in
  take (Z.to_nat (to - from)) (drop (Z.to_nat from) l).

End JS.

(** ** Token-budget packing (budget.ts) *)
Module Budget.
Import JS.

(** [estimateTokens]: [Math.ceil(text.length / 4)]. *)
Definition estimateTokens (text : str) : Z := (len text + 3) / 4.

(** [truncateText].  The thresholds [maxChars * 0.7] and [maxChars * 0.8]
    are the doubles the products round to: [180 * 0.7] is
    [125.99999999999999], which 126 exceeds. *)
Definition truncateText (text : str) (maxTokens : Z) : str :=
  let maxChars := maxTokens * 4 in
  if len text <=? maxChars then text
  else
    let truncated := slice text 0 maxChars in
    let lastSentenceEnd :=
      Z.max (Z.max (lastIndexOf truncated ".") (lastIndexOf truncated "!"))
            (lastIndexOf truncated "?") in
    if (number maxChars * 0.7 <? number lastSentenceEnd)%float
    then slice text 0 (lastSentenceEnd + 1)
    else
      let lastSpace := lastIndexOf truncated " " in
      if (number maxChars * 0.8 <? number lastSpace)%float
      then slice text 0 lastSpace
      else truncated.

Record Snippet := { text : str; score : Q }.

(** [[...snippets].sort((a, b) => b.score - a.score)] *)
Definition sort_desc (l : list Snippet) : list Snippet :=
  sort_desc_by score l.

(** The body of the [for] loop over the sorted snippets; both [break]s end
    the recursion. *)
Fixpoint pack (sorted : list Snippet) (remainingTokens : Z)
    (selectedSnippets : list str) : list str :=
  match sorted with
  | [] => selectedSnippets
  | snippet :: rest =>
      let snippetTokens := estimateTokens (text snippet) in
      if snippetTokens <=? remainingTokens
      then pack rest (remainingTokens - snippetTokens)
                (selectedSnippets ++ [text snippet])
      else if 20 <? remainingTokens
      then
        let truncated := truncateText (text snippet) remainingTokens in
        if 0 <? len (trim truncated)
        then selectedSnippets ++ [truncated]
        else selectedSnippets
      else selectedSnippets
  end.

Definition packed (snippets : list Snippet) (maxTokens : Z) : list str :=
  pack (sort_desc snippets) maxTokens [].

Definition enforceTokenBudgetWithPriority
    (snippets : list Snippet) (maxTokens : Z) : str :=
  match snippets with
  | [] => []
  | _ => join (lit (String "010" (String "010" EmptyString)))
              (packed snippets maxTokens)
  end.

(** [fitsWithinBudget] *)
Definition fitsWithinBudget (t : str) (maxTokens : Z) : bool :=
  estimateTokens t <=? maxTokens.

Definition sum_tokens (l : list str) : Z :=
  foldr (fun t acc => estimateTokens t + acc) 0 l.

(** *** [enforceTokenBudget], on a context that is one string *)

(** The separator of the snippet blocks: a blank line. *)
Definition blank_line : str := lit (String "010" (String "010" EmptyString)).

(** The body of the [for] loop over the blocks; both [break]s end the
    recursion. *)
Fixpoint pack_blocks (blocks : list str) (remainingTokens : Z)
    (truncatedBlocks : list str) : list str :=
  match blocks with
  | [] => truncatedBlocks
  | block :: rest =>
      let blockTokens := estimateTokens block in
      if blockTokens <=? remainingTokens
      then pack_blocks rest (remainingTokens - blockTokens) (truncatedBlocks ++ [block])
      else if 50 <? remainingTokens
      then
        let truncatedBlock := truncateText block remainingTokens in
        if 0 <? len (trim truncatedBlock)
        then truncatedBlocks ++ [truncatedBlock]
        else truncatedBlocks
      else truncatedBlocks
  end.

Definition enforceTokenBudget (snippets : str) (maxTokens : Z) : str :=
  if (len snippets =? 0) || (len (trim snippets) =? 0) then snippets
  else
    let currentTokens := estimateTokens snippets in
    if currentTokens <=? maxTokens then snippets
    else join blank_line (pack_blocks (split snippets blank_line) maxTokens []).

(** [getTokenCount] *)
Definition getTokenCount (t : str) : Z := estimateTokens t.

End Budget.

(** ** The MMR re-ranker (mmr.ts) *)
Module MMR.

(** [cosineSimilarity]: the three sums of the loop, then the quotient. *)
Fixpoint sums (a b : list float) (dotProduct normA normB : float)
    : float * float * float :=
  match a, b with
  | x :: a', y :: b' =>
      sums a' b' (dotProduct + x * y)%float (normA + x * x)%float
           (normB + y * y)%float
  | _, _ => (dotProduct, normA, normB)
  end.

Definition cosineSimilarity (a b : list float) : res float :=
  if negb (length a =? length b)%nat then Throw VectorDimensionsMustMatch
  else
    let '(dotProduct, normA, normB) := sums a b 0%float 0%float 0%float in
    let magnitude := (PrimFloat.sqrt normA * PrimFloat.sqrt normB)%float in
    Ok (if (magnitude =? 0)%float then 0%float
        else (dotProduct / magnitude)%float).

Definition calculateRelevance (queryVec itemVec : list float) : res float :=
  cosineSimilarity queryVec itemVec.

(** *** mmr.ts

    The base score of an item is only sorted by: it is a finite number, a
    rational, and the sign of [b.baseScore - a.baseScore] is that of the
    exact difference. *)
Record MMRItem := { id : string; vec : list float; baseScore : Q }.

(** [items.find(i => i.id === id)] *)
Definition find_item (items : list MMRItem) (i : string) : option MMRItem :=
  List.find (fun it => String.eqb (id it) i) items.

(** The loop of [calculateDiversity] over the selected items. *)
Fixpoint max_similarity (v : list float) (selectedVecs : list (list float))
    (maxSimilarity : float) : res float :=
  match selectedVecs with
  | [] => Ok maxSimilarity
  | w :: rest =>
      similarity ← cosineSimilarity v w;
      max_similarity v rest (Math_max maxSimilarity similarity)
  end.

Definition calculateDiversity (candidateId : string)
    (selectedItems allItems : list MMRItem) : res float :=
  match selectedItems with
  | [] => Ok 0%float
  | _ =>
      match find_item allItems candidateId with
      | None => Ok 0%float
      | Some candidate => max_similarity (vec candidate) (map vec selectedItems) 0%float
      end
  end.

(** [items.sort((a, b) => b.baseScore - a.baseScore)] *)
Definition sort_by_base (l : list MMRItem) : list MMRItem :=
  sort_desc_by baseScore l.

(** [new Set(ids)]: the distinct ids in order of first appearance. *)
Fixpoint to_set (ids : list string) : list string :=
  match ids with
  | [] => []
  | i :: r => i :: List.filter (fun j => negb (String.eqb j i)) (to_set r)
  end.

(** [remaining.delete(bestId)] *)
Definition set_delete (s : list string) (i : string) : list string :=
  List.filter (fun j => negb (String.eqb j i)) s.

(** The [for (const id of remaining)] scan: the first id with the largest MMR
    score wins, because a later one replaces it only when strictly larger;
    a score that is [NaN] is larger than nothing. *)
Fixpoint scan (items : list MMRItem) (queryVec : list float) (lambda : float)
    (selected : list MMRItem) (remaining : list string)
    (bestId : string) (bestScore : float) : res (string * float) :=
  match remaining with
  | [] => Ok (bestId, bestScore)
  | i :: rest =>
      match find_item items i with
      | None => scan items queryVec lambda selected rest bestId bestScore
      | Some item =>
          relevance ← calculateRelevance queryVec (vec item);
          diversity ← calculateDiversity i selected items;
          let mmrScore := (lambda * relevance - (1 - lambda) * diversity)%float in
          if (bestScore <? mmrScore)%float
          then scan items queryVec lambda selected rest i mmrScore
          else scan items queryVec lambda selected rest bestId bestScore
      end
  end.

(** The [while] loop.  Every turn that does not leave the loop takes one id
    out of [remaining], so [fuel] turns are enough when [fuel] is at least
    the size of [remaining]. *)
Fixpoint select_loop (fuel : nat) (items : list MMRItem) (queryVec : list float)
    (lambda : float) (k : Z) (selected : list MMRItem) (remaining : list string)
    : res (list MMRItem) :=
  match fuel with
  | O => Ok selected
  | S fuel' =>
      if (Z.of_nat (length selected) <? k) && (0 <? length remaining)%nat
      then
        best ← scan items queryVec lambda selected remaining EmptyString
                 PrimFloat.neg_infinity;
        let '(bestId, bestScore) := best in
        if negb (String.eqb bestId EmptyString)
           && (PrimFloat.neg_infinity <? bestScore)%float
        then
          match find_item items bestId with
          | Some item =>
              select_loop fuel' items queryVec lambda k
                (selected ++ [item]) (set_delete remaining bestId)
          | None =>
              select_loop fuel' items queryVec lambda k selected remaining
          end
        else Ok selected
      else Ok selected
  end.

Definition mmr (items : list MMRItem) (queryVec : list float) (lambda : float)
    (k : Z) : res (list string) :=
  match items with
  | [] => Ok []
  | _ =>
      if k <=? 0 then Ok []
      else if Z.of_nat (length items) <=? k
      then Ok (map id (sort_by_base items))
      else
        let remaining := to_set (map id items) in
        selected ← select_loop (length remaining) items queryVec lambda k [] remaining;
        Ok (map id selected)
  end.

End MMR.

(** ** The MMR selector (selector.js / selector.ts) *)
Module Selector.
Import JS.

(** The keys of [metadata] the pipeline reads; a key can be absent. *)
Record Metadata := {
  tags : option (list str);
  occurredAt : option Z;
  importance : option Q
}.

Record MMRItem := { id : string; score : Q; text : str; metadata : Metadata }.

Record MMRConfig := { lambda : float; maxResults : Z }.

Section WithConfig.
Variable config : MMRConfig.

(** The first [for] loop of [select]: a relevance for every candidate that
    has an embedding. *)
Fixpoint initial_scores (queryEmbedding : list float) (candidates : list MMRItem)
    (embeddings : gmap string (list float)) (scores : gmap string float)
    : res (gmap string float) :=
  match candidates with
  | [] => Ok scores
  | candidate :: rest =>
      match embeddings !! id candidate with
      | None => initial_scores queryEmbedding rest embeddings scores
      | Some embedding =>
          relevance ← MMR.calculateRelevance queryEmbedding embedding;
          initial_scores queryEmbedding rest embeddings
            (<[id candidate := relevance]> scores)
      end
  end.

(** The loop of [calculateDiversity]; selected items without an embedding
    are skipped. *)
Fixpoint max_similarity (candidateEmbedding : list float) (selected : list MMRItem)
    (embeddings : gmap string (list float)) (maxSimilarity : float) : res float :=
  match selected with
  | [] => Ok maxSimilarity
  | item :: rest =>
      match embeddings !! id item with
      | None => max_similarity candidateEmbedding rest embeddings maxSimilarity
      | Some itemEmbedding =>
          similarity ← MMR.cosineSimilarity candidateEmbedding itemEmbedding;
          max_similarity candidateEmbedding rest embeddings
            (Math_max maxSimilarity similarity)
      end
  end.

Definition calculateDiversity (candidateId : string) (selected : list MMRItem)
    (embeddings : gmap string (list float)) : res float :=
  match selected with
  | [] => Ok 0%float
  | _ =>
      match embeddings !! candidateId with
      | None => Ok 0%float
      | Some candidateEmbedding =>
          max_similarity candidateEmbedding selected embeddings 0%float
      end
  end.

(** [scores.get(id) || 0] *)
Definition score_of (scores : gmap string float) (i : string) : float :=
  match scores !! i with
  | Some relevance => or_zero relevance
  | None => 0%float
  end.

Fixpoint scan (scores : gmap string float) (embeddings : gmap string (list float))
    (selected : list MMRItem) (remaining : list string)
    (bestId : string) (bestScore : float) : res (string * float) :=
  match remaining with
  | [] => Ok (bestId, bestScore)
  | i :: rest =>
      let relevance := score_of scores i in
      diversity ← calculateDiversity i selected embeddings;
      let mmrScore :=
        (lambda config * relevance - (1 - lambda config) * diversity)%float in
      if (bestScore <? mmrScore)%float
      then scan scores embeddings selected rest i mmrScore
      else scan scores embeddings selected rest bestId bestScore
  end.

(** [candidates.find(c => c.id === bestId)] *)
Definition find_candidate (candidates : list MMRItem) (i : string)
    : option MMRItem :=
  List.find (fun c => String.eqb (id c) i) candidates.

Fixpoint select_loop (fuel : nat) (candidates : list MMRItem)
    (scores : gmap string float) (embeddings : gmap string (list float))
    (selected : list MMRItem) (remaining : list string) : res (list MMRItem) :=
  match fuel with
  | O => Ok selected
  | S fuel' =>
      if (Z.of_nat (length selected) <? maxResults config)
         && (0 <? length remaining)%nat
      then
        best ← scan scores embeddings selected remaining EmptyString
                 PrimFloat.neg_infinity;
        let '(bestId, bestScore) := best in
        if negb (String.eqb bestId EmptyString)
           && (PrimFloat.neg_infinity <? bestScore)%float
        then
          match find_candidate candidates bestId with
          | Some candidate =>
              select_loop fuel' candidates scores embeddings
                (selected ++ [candidate]) (MMR.set_delete remaining bestId)
          | None =>
              select_loop fuel' candidates scores embeddings selected remaining
          end
        else Ok selected
      else Ok selected
  end.

Definition select (queryEmbedding : list float) (candidates : list MMRItem)
    (embeddings : gmap string (list float))
    : res (list MMRItem * gmap string float) :=
  match candidates with
  | [] => Ok ([], ∅)
  | _ =>
      let remaining := MMR.to_set (map id candidates) in
      scores ← initial_scores queryEmbedding candidates embeddings ∅;
      selected ← select_loop (length remaining) candidates scores embeddings
                   [] remaining;
      Ok (selected, scores)
  end.

End WithConfig.
End Selector.

(** ** The retrieval pipeline (pipeline.ts) *)
Module RAG.
Import JS.

Record RAGConfig := {
  topK : Z;
  mmrLambda : float;
  minScore : Q;
  maxCitations : Z
}.

Record Candidate := {
  id : string;
  text : str;
  embedding : list float;
  metadata : Selector.Metadata
}.

(** [RAGQuery['filters']]; each key is optional. *)
Record Filters := {
  tags : option (list str);
  timeRange : option (Z * Z);
  importance : option Q
}.

Record RAGQuery := {
  question : str;
  filters : option Filters
}.

Record Citation := { chunkId : string; startOff : Z; endOff : Z; score : Q }.

Record Source := {
  src_id : string; src_text : str; src_score : Q;
  src_startOff : Z; src_endOff : Z
}.

Record RAGResult := {
  answer : str;
  citations : list Citation;
  confidence : Q;
  sources : list Source
}.

(** [arr.includes(x)] *)
Definition includes (l : list str) (x : str) : bool := bool_decide (x ∈ l).

(** The predicate handed to [candidates.filter]. *)
Definition keep (f : Filters) (candidate : Candidate) : bool :=
  let md := metadata candidate in
  (* Tag filter *)
  (match tags f with
   | Some (t :: ts) =>
       let candidateTags := default [] (Selector.tags md) in
       existsb (fun tag => includes candidateTags (toLowerCase tag)) (t :: ts)
   | _ => true
   end)
  &&
  (* Time range filter: a comparison with an absent timestamp is false *)
  (match timeRange f with
   | Some (start, end_) =>
       match Selector.occurredAt md with
       | Some occurredAt => negb ((occurredAt <? start) || (end_ <? occurredAt))
       | None => true
       end
   | None => true
   end)
  &&
  (* Importance filter *)
  (match importance f with
   | Some floor =>
       let importance := default 0%Q (Selector.importance md) in
       negb (Qlt_bool importance floor)
   | None => true
   end).

Definition filterCandidates (candidates : list Candidate)
    (filters : option Filters) : list Candidate :=
  match filters with
  | None => candidates
  | Some f => List.filter (keep f) candidates
  end.

Section WithConfig.
Variable generateEmbedding : str -> list float.
Variable config : RAGConfig.

Definition sum_scores (sources : list Selector.MMRItem) : Q :=
  foldl (fun sum s => (sum + Selector.score s)%Q) 0%Q sources.

Definition calculateConfidence (sources : list Selector.MMRItem) : Q :=
  match sources with
  | [] => 0%Q
  | _ =>
      let avgScore := (sum_scores sources / inject_Z (Z.of_nat (length sources)))%Q in
      let sourceCount :=
        Qmin (inject_Z (Z.of_nat (length sources)) / inject_Z (maxCitations config)) 1 in
      (avgScore * sourceCount)%Q
  end.

(** [generateSimpleAnswer] *)
Definition generateSimpleAnswer (sourceTexts : list str) : str :=
  let context := join (lit " ") sourceTexts in
  lit "Based on your personal memory: " ++ slice context 0 500 ++ lit "...".

Definition generateAnswer (sources : list Selector.MMRItem) : RAGResult :=
  let cited := take (Z.to_nat (maxCitations config)) sources in
  {| answer := generateSimpleAnswer (map Selector.text cited);
     citations :=
       map (fun source =>
              {| chunkId := Selector.id source; startOff := 0;
                 endOff := len (Selector.text source);
                 score := Selector.score source |}) cited;
     confidence := calculateConfidence sources;
     sources :=
       map (fun s =>
              {| src_id := Selector.id s; src_text := Selector.text s;
                 src_score := Selector.score s; src_startOff := 0;
                 src_endOff := len (Selector.text s) |}) sources |}.

(** The candidates as handed to the selector: [score: 0]. *)
Definition to_mmr (c : Candidate) : Selector.MMRItem :=
  {| Selector.id := id c; Selector.score := 0; Selector.text := text c;
     Selector.metadata := metadata c |}.

(** [new Map(filtered.map(c => [c.id, c.embedding]))]: a later entry
    replaces an earlier one with the same id. *)
Definition embeddings_of (cs : list Candidate) : gmap string (list float) :=
  foldl (fun m c => <[id c := embedding c]> m) ∅ cs.

Definition selector_config : Selector.MMRConfig :=
  {| Selector.lambda := mmrLambda config; Selector.maxResults := topK config |}.

Definition query (q : RAGQuery) (candidates : list Candidate) : res RAGResult :=
  let queryEmbedding := generateEmbedding (question q) in
  let filteredCandidates := filterCandidates candidates (filters q) in
  let mmrCandidates := map to_mmr filteredCandidates in
  let embeddings := embeddings_of filteredCandidates in
  r ← Selector.select selector_config queryEmbedding mmrCandidates embeddings;
  Ok (generateAnswer r.1).

End WithConfig.
End RAG.

(** ** The greedy selection, as a function of the scores alone

    Both selection loops scan the remaining ids for the first one with the
    largest score, move it to the output and go on.  [Greedy] writes that
    down for a score [score pre i] of the id [i] that depends on the ids
    [pre] taken before. *)
Module Greedy.

Fixpoint scan (f : string -> float) (remaining : list string)
    (bestId : string) (bestScore : float) : string * float :=
  match remaining with
  | [] => (bestId, bestScore)
  | i :: rest =>
      if (bestScore <? f i)%float then scan f rest i (f i)
      else scan f rest bestId bestScore
  end.

Fixpoint picks (score : list string -> string -> float) (fuel : nat) (k : Z)
    (out remaining : list string) : list string :=
  match fuel with
  | O => out
  | S fuel' =>
      if (Z.of_nat (length out) <? k) && (0 <? length remaining)%nat
      then
        let '(bestId, bestScore) :=
          scan (score out) remaining EmptyString PrimFloat.neg_infinity in
        if negb (String.eqb bestId EmptyString)
           && (PrimFloat.neg_infinity <? bestScore)%float
        then picks score fuel' k (out ++ [bestId]) (MMR.set_delete remaining bestId)
        else out
      else out
  end.

(** [a] comes before [b] in a list. *)
Definition before (l : list string) (a b : string) : Prop :=
  exists l1 l2, l = l1 ++ a :: l2 /\ b ∈ l2.



End Greedy.

(** ** The crypto envelope (aes.ts, kdf.ts)

    Byte arrays are lists of bytes.  The code calls the platform's WebCrypto
    for every cryptographic operation; the platform is a parameter, described
    by the contract the code relies on. *)
Module Crypto.
Import JS.

Abbreviation bytes := (list Byte.byte).

#[global] Instance byte_eq_decision : EqDecision Byte.byte := Byte.byte_eq_dec.

(** [b ^= 1 << j] on one byte. *)
Definition flip_in_byte (b : Byte.byte) (j : nat) : Byte.byte :=
  match Byte.of_N (N.lxor (Byte.to_N b) (N.shiftl 1 (N.of_nat j))) with
  | Some x => x
  | None => b
  end.

(** The array with bit [i] flipped, bit [8 * n + j] being bit [j] of byte
    [n]; an index past the end changes nothing. *)
Fixpoint flip_bit (i : nat) (bs : bytes) : bytes :=
  match bs with
  | [] => []
  | b :: r => if (i <? 8)%nat then flip_in_byte b i :: r
              else b :: flip_bit (i - 8) r
  end.

(** AES-GCM as [crypto.subtle] offers it.  [importKey] rejects raw material
    of a wrong size, [encrypt] and [decrypt] reject with [None]; [decrypt]
    rejects whenever the tag does not verify. *)
Class AesGcm := {
  CryptoKey : Type;
  subtle_importKey : bytes -> option CryptoKey;
  subtle_encrypt : CryptoKey -> bytes -> bytes -> option bytes;
  subtle_decrypt : CryptoKey -> bytes -> bytes -> option bytes;
  (** a 256-bit key is accepted, and a 96-bit nonce lets encryption go through *)
  importKey_256 : forall k, length k = 32%nat -> is_Some (subtle_importKey k);
  encrypt_96 : forall key iv p, length iv = 12%nat -> is_Some (subtle_encrypt key iv p);
  (** decryption inverts encryption under the same key and nonce *)
  decrypt_encrypt : forall key iv p c,
    subtle_encrypt key iv p = Some c -> subtle_decrypt key iv c = Some p;
  (** a ciphertext with one bit flipped does not verify *)
  decrypt_tampered : forall key iv p c i,
    subtle_encrypt key iv p = Some c -> (i < 8 * length c)%nat ->
    subtle_decrypt key iv (flip_bit i c) = None
}.

Record WrapResult := { wrappedDEK : bytes; wrap_nonce : bytes }.

Record EncryptResult := { cipher : bytes; nonce : bytes }.

Section WithAesGcm.
Context `{AesGcm}.

(** [importKey]: a rejection of the platform is thrown on as it is. *)
Definition importKey (keyMaterial : bytes) : res CryptoKey :=
  match subtle_importKey keyMaterial with
  | Some key => Ok key
  | None => Throw ImportKeyFailed
  end.

(** [wrapDEK]; [nonce] is the value [generateNonce] draws, twelve random
    bytes. *)
Definition wrapDEK (kekKey dekPlain nonce : bytes) : res WrapResult :=
  if negb (length dekPlain =? 32)%nat then Throw DEKMustBe256Bits
  else
    key ← importKey kekKey;
    match subtle_encrypt key nonce dekPlain with
    | Some wrapped => Ok {| wrappedDEK := wrapped; wrap_nonce := nonce |}
    | None => Throw DEKWrappingFailed
    end.

Definition unwrapDEK (kekKey wrapped nonce : bytes) : res bytes :=
  key ← importKey kekKey;
  match subtle_decrypt key nonce wrapped with
  | Some dekPlain => Ok dekPlain
  | None => Throw DEKUnwrappingFailed
  end.

Definition seal (dek plaintext nonce : bytes) : res EncryptResult :=
  key ← importKey dek;
  match subtle_encrypt key nonce plaintext with
  | Some c => Ok {| cipher := c; nonce := nonce |}
  | None => Throw EncryptionFailed
  end.

Definition open (dek c nonce : bytes) : res bytes :=
  key ← importKey dek;
  match subtle_decrypt key nonce c with
  | Some plaintext => Ok plaintext
  | None => Throw DecryptionFailed
  end.

(** [sealString] and [openString]; the text encoder and decoder are the
    platform's. *)
Section WithText.
Variable encode : str -> bytes.
Variable decode : bytes -> str.

Definition sealString (dek : bytes) (text : str) (nonce : bytes) : res EncryptResult :=
  let plaintext := encode text in
  seal dek plaintext nonce.

Definition openString (dek c nonce : bytes) : res str :=
  plaintext ← open dek c nonce;
  Ok (decode plaintext).

End WithText.

End WithAesGcm.

(** What kdf.ts takes from the platform: the text encoder, PBKDF2 through
    [importKey] and [deriveBits], and [crypto.subtle.timingSafeEqual], a
    method that is not in the WebCrypto standard and that a runtime may not
    have ([None]); calling a method that is not there throws. *)
Record KdfPlatform := {
  KeyMaterial : Type;
  encode : str -> bytes;
  importKey_pbkdf2 : bytes -> option KeyMaterial;
  deriveBits_pbkdf2_sha256 : KeyMaterial -> bytes -> Z -> Z -> option bytes;
  timingSafeEqual : option (bytes -> bytes -> bool)
}.

(** [verifyPassphrase]: every exception ends in the [catch], which returns
    [false]. *)
Definition verifyPassphrase (P : KdfPlatform)
    (passphrase : str) (kdfSalt expectedKey : bytes) : bool :=
  match importKey_pbkdf2 P (encode P passphrase) with
  | None => false
  | Some keyMaterial =>
      match deriveBits_pbkdf2_sha256 P keyMaterial kdfSalt 100000 256 with
      | None => false
      | Some derivedKeyArray =>
          if negb (length derivedKeyArray =? length expectedKey)%nat then false
          else
            match timingSafeEqual P with
            | Some equal => equal derivedKeyArray expectedKey
            | None => false
            end
      end
  end.

(** [deriveKEK].  [Partial<KDFConfig>]: a key that is absent takes the
    default, 100000 iterations and 32 bytes.  [kdfSalt] is the value
    [crypto.getRandomValues] draws, 32 random bytes. *)
Record KDFConfig := { iterations : option Z; hashLength : option Z }.

Record KEKResult := { kdfSalt : bytes; kekKey : bytes }.

Inductive kdf_error : Set :=
  | PassphraseTooShort
  | KeyDerivationFailed.

Definition deriveKEK (P : KdfPlatform) (passphrase : str) (config : KDFConfig)
    (kdfSalt : bytes) : kdf_error + KEKResult :=
  if len passphrase <? 8 then inl PassphraseTooShort
  else
    let kdf_iterations := default 100000 (iterations config) in
    let kdf_hashLength := default 32 (hashLength config) in
    match importKey_pbkdf2 P (encode P passphrase) with
    | None => inl KeyDerivationFailed
    | Some keyMaterial =>
        match deriveBits_pbkdf2_sha256 P keyMaterial kdfSalt kdf_iterations
                (kdf_hashLength * 8) with
        | None => inl KeyDerivationFailed
        | Some kekKey => inr {| kdfSalt := kdfSalt; kekKey := kekKey |}
        end
    end.

(** The key [verifyPassphrase] derives, when the derivation goes through. *)
Definition derived_key (P : KdfPlatform) (passphrase : str) (kdfSalt : bytes)
    : option bytes :=
  keyMaterial ← importKey_pbkdf2 P (encode P passphrase);
  deriveBits_pbkdf2_sha256 P keyMaterial kdfSalt 100000 256.

(** A comparison that reads every byte: the differences are accumulated and
    tested once, at the end. *)
Definition constant_time_eq (a b : bytes) : bool :=
  N.eqb (foldl (fun acc xy => N.lor acc (N.lxor (Byte.to_N xy.1) (Byte.to_N xy.2)))
               0%N (zip a b)) 0%N.

(** *** A small instance of the contracts, to run the code on

    The "ciphertext" is the plaintext twice: the second copy plays the tag. *)
Definition toy_encrypt (key iv p : bytes) : option bytes := Some (p ++ p).

Definition toy_decrypt (key iv c : bytes) : option bytes :=
  let n := (length c / 2)%nat in
  if bool_decide (c = take n c ++ take n c) then Some (take n c) else None.

Definition toy_importKey (k : bytes) : option bytes :=
  if bool_decide (length k ∈ [16; 24; 32]%nat) then Some k else None.

End Crypto.

(** ** The embedding worker's queue (workers/embedding.ts)

    The worker runs on the event loop: [setTimeout] callbacks and the
    continuation of [await Promise.allSettled(...)] are entries of one agenda,
    each with the time at which it is due; the loop fires the earliest one.
    What [processJob] does with a job, and how long a batch takes, are
    parameters. *)
Module Worker.
Import JS.

Record WorkerConfig := { batchSize : Z; maxRetries : Z; retryDelay : Z }.

Record EmbeddingJob := {
  id : string;
  entryId : string;
  content : str;
  occurredAt : Z;
  priority : Z;
  retries : Z
}.

(** [job.retries++] *)
Definition bump (job : EmbeddingJob) : EmbeddingJob :=
  {| id := id job; entryId := entryId job; content := content job;
     occurredAt := occurredAt job; priority := priority job;
     retries := retries job + 1 |}.

Section WithProcessJob.
Variable EmbeddingResult : Type.
(** [processJob]: [None] when the promise is rejected. *)
Variable processJob : EmbeddingJob -> option EmbeddingResult.
(** The time the promises of a batch take to settle. *)
Variable latency : list EmbeddingJob -> Z.
Variable config : WorkerConfig.

(** What [emit] is called with. *)
Inductive Event :=
  | jobSuccess (job : EmbeddingJob) (result : EmbeddingResult)
  | jobFailed (job : EmbeddingJob).

(** The callbacks the worker leaves on the event loop. *)
Inductive Callback :=
  | Requeue (job : EmbeddingJob)      (* queue.push(job); processQueue() *)
  | Continue                          (* processQueue() *)
  | Settled (batch : list EmbeddingJob).  (* the rest of processQueue *)

Record Worker := {
  queue : list EmbeddingJob;
  isProcessing : bool;
  agenda : list (Z * Callback);
  now : Z;
  emitted : list Event
}.

Definition initial : Worker :=
  {| queue := []; isProcessing := false; agenda := []; now := 0; emitted := [] |}.

(** [setTimeout(callback, delay)]: behind the entries due no later. *)
Fixpoint schedule (due : Z) (cb : Callback) (ag : list (Z * Callback))
    : list (Z * Callback) :=
  match ag with
  | [] => [(due, cb)]
  | (t, c) :: rest => if t <=? due then (t, c) :: schedule due cb rest
                      else (due, cb) :: (t, c) :: rest
  end.

Definition setTimeout (cb : Callback) (delay : Z) (w : Worker) : Worker :=
  {| queue := queue w; isProcessing := isProcessing w;
     agenda := schedule (now w + delay) cb (agenda w);
     now := now w; emitted := emitted w |}.

Definition emit (e : Event) (w : Worker) : Worker :=
  {| queue := queue w; isProcessing := isProcessing w; agenda := agenda w;
     now := now w; emitted := emitted w ++ [e] |}.

Definition handleJobSuccess (job : EmbeddingJob) (result : EmbeddingResult)
    (w : Worker) : Worker :=
  emit (jobSuccess job result) w.

Definition handleJobFailure (job : EmbeddingJob) (w : Worker) : Worker :=
  let job := bump job in
  if retries job <? maxRetries config
  then
    let delay := retryDelay config * 2 ^ (retries job - 1) in
    setTimeout (Requeue job) delay w
  else emit (jobFailed job) w.

(** [processQueue] up to its [await]: the batch leaves the queue and its
    settlement is awaited. *)
Definition processQueue (w : Worker) : Worker :=
  if isProcessing w || bool_decide (queue w = []) then w
  else
    let n := Z.to_nat (batchSize config) in
    let batch := take n (queue w) in
    {| queue := drop n (queue w); isProcessing := true;
       agenda := schedule (now w + latency batch) (Settled batch) (agenda w);
       now := now w; emitted := emitted w |}.

(** The [for] loop over the settled batch. *)
Fixpoint handle_results (batch : list EmbeddingJob) (w : Worker) : Worker :=
  match batch with
  | [] => w
  | job :: rest =>
      handle_results rest
        (match processJob job with
         | None => handleJobFailure job w
         | Some result => handleJobSuccess job result w
         end)
  end.

(** [processQueue] after its [await], with the [finally] block. *)
Definition settle (batch : list EmbeddingJob) (w : Worker) : Worker :=
  let w := handle_results batch w in
  let w := {| queue := queue w; isProcessing := false; agenda := agenda w;
              now := now w; emitted := emitted w |} in
  if bool_decide (queue w = []) then w else setTimeout Continue 1000 w.

(** [addJob]; [jobId] is the value [crypto.randomUUID()] draws. *)
Definition addJob (job : EmbeddingJob) (jobId : string) (w : Worker) : Worker :=
  let fullJob :=
    {| id := jobId; entryId := entryId job; content := content job;
       occurredAt := occurredAt job; priority := priority job; retries := 0 |} in
  let q := sort_desc_by (fun j => inject_Z (priority j)) (queue w ++ [fullJob]) in
  let w := {| queue := q; isProcessing := isProcessing w; agenda := agenda w;
              now := now w; emitted := emitted w |} in
  if isProcessing w then w else processQueue w.

Definition fire (cb : Callback) (w : Worker) : Worker :=
  match cb with
  | Requeue job =>
      processQueue {| queue := queue w ++ [job]; isProcessing := isProcessing w;
                      agenda := agenda w; now := now w; emitted := emitted w |}
  | Continue => processQueue w
  | Settled batch => settle batch w
  end.

(** One turn of the event loop: the earliest callback fires at its time. *)
Definition turn (w : Worker) : option Worker :=
  match agenda w with
  | [] => None
  | (due, cb) :: rest =>
      Some (fire cb {| queue := queue w; isProcessing := isProcessing w;
                       agenda := rest; now := Z.max (now w) due;
                       emitted := emitted w |})
  end.

(** The event loop, for at most [n] turns; it stops when nothing is left to
    fire. *)
Fixpoint run (n : nat) (w : Worker) : Worker :=
  match n with
  | O => w
  | S n' => match turn w with
            | None => w
            | Some w' => run n' w'
            end
  end.

(** Nothing queued, nothing in flight, nothing scheduled. *)
Definition idle (w : Worker) : Prop :=
  queue w = [] /\ isProcessing w = false /\ agenda w = [].

(** The jobs the worker holds: queued, waiting to be re-enqueued, or in the
    batch in flight. *)
Definition jobs_of (cb : Callback) : list EmbeddingJob :=
  match cb with
  | Requeue job => [job]
  | Continue => []
  | Settled batch => batch
  end.

Definition jobs (w : Worker) : list EmbeddingJob :=
  queue w ++ flat_map (fun e => jobs_of e.2) (agenda w).

(** Where a job ends, [processJob] being what it is: the first attempt that
    succeeds, or the failure that brings [retries] to [maxRetries]. *)
Fixpoint fate (fuel : nat) (job : EmbeddingJob) : Event :=
  match processJob job with
  | Some result => jobSuccess job result
  | None =>
      let job := bump job in
      if retries job <? maxRetries config
      then match fuel with
           | S fuel' => fate fuel' job
           | O => jobFailed job
           end
      else jobFailed job
  end.

Definition outcome (job : EmbeddingJob) : Event :=
  fate (Z.to_nat (maxRetries config - retries job)) job.

(** [clearQueue] *)
Definition clearQueue (w : Worker) : Worker :=
  {| queue := []; isProcessing := isProcessing w; agenda := agenda w;
     now := now w; emitted := emitted w |}.

(** The states a worker can be in: a new worker, and what calls of [addJob]
    and [clearQueue] and turns of the event loop make of it. *)
Inductive reachable : Worker -> Prop :=
  | reach_initial : reachable initial
  | reach_addJob w job jobId : reachable w -> reachable (addJob job jobId w)
  | reach_clearQueue w : reachable w -> reachable (clearQueue w)
  | reach_turn w w' : reachable w -> turn w = Some w' -> reachable w'.

(** What holds of a worker between two turns of the loop: a batch is in
    flight exactly while [isProcessing] is set, and a queue that is not being
    processed has a [processQueue] coming. *)
Definition well_formed (w : Worker) : Prop :=
  (isProcessing w = true -> exists t batch, (t, Settled batch) ∈ agenda w) /\
  (isProcessing w = false -> queue w <> [] -> exists t, (t, Continue) ∈ agenda w).

End WithProcessJob.
End Worker.

(** ** The sentence-aware chunker

    The repository ships two variants of [chunkText]: chunker.ts, which
    rebuilds the text of a chunk from the trimmed sentences, and chunker.js,
    which keeps offsets and slices the input.  Both share the sentence
    splitter, the overlap and the validator. *)
Module Chunker.
Import JS.

Record Chunk := { start : Z; end_ : Z; text : str }.

Record Sentence := { s_text : str; s_start : Z; s_end : Z }.

(** [estimateTokens]: [Math.ceil(text.length / 3)]. *)
Definition estimateTokens (t : str) : Z := (len t + 2) / 3.

(** *** [splitIntoSentences] *)
Definition is_terminator (c : ascii) : bool :=
  Ascii.eqb c "." || Ascii.eqb c "!" || Ascii.eqb c "?".

(** The length of the longest prefix of characters in a class. *)
Fixpoint span (p : ascii -> bool) (s : str) : nat :=
  match s with
  | c :: r => if p c then S (span p r) else O
  | [] => O
  end.

(** [sentenceRegex.exec(text)] for [/[.!?]+\s*/g] with [lastIndex = from]:
    the first run of terminators at or after [from], with the white space
    that follows it; the result is the match's index and its end. *)
Definition exec (t : str) (from : nat) : option (nat * nat) :=
  let rest := drop from t in
  let skipped := span (fun c => negb (is_terminator c)) rest in
  if (skipped <? length rest)%nat
  then
    let index := (from + skipped)%nat in
    let terminators := span is_terminator (drop index t) in
    let spaces := span is_ws (drop (index + terminators) t) in
    Some (index, (index + terminators + spaces)%nat)
  else None.

(** The [while] loop.  A match is never empty, so the loop ends within
    [length text] turns. *)
Fixpoint sentences_loop (fuel : nat) (t : str) (lastIndex : nat)
    (sentences : list Sentence) : list Sentence * nat :=
  match fuel with
  | O => (sentences, lastIndex)
  | S fuel' =>
      match exec t lastIndex with
      | None => (sentences, lastIndex)
      | Some (index, match_end) =>
          let sentenceText := trim (slice t (Z.of_nat lastIndex) (Z.of_nat match_end)) in
          let sentences :=
            if 0 <? len sentenceText
            then sentences ++ [{| s_text := sentenceText;
                                  s_start := Z.of_nat lastIndex;
                                  s_end := Z.of_nat match_end |}]
            else sentences in
          sentences_loop fuel' t match_end sentences
      end
  end.

Definition splitIntoSentences (t : str) : list Sentence :=
  let '(sentences, lastIndex) := sentences_loop (S (length t)) t 0 [] in
  (* Handle remaining text if no sentence ending found *)
  let sentences :=
    if Z.of_nat lastIndex <? len t
    then
      let remainingText := trim (slice_from t (Z.of_nat lastIndex)) in
      if 0 <? len remainingText
      then sentences ++ [{| s_text := remainingText;
                            s_start := Z.of_nat lastIndex; s_end := len t |}]
      else sentences
    else sentences in
  (* If no sentences found, treat entire text as one sentence *)
  match sentences with
  | [] => if 0 <? len (trim t)
          then [{| s_text := trim t; s_start := 0; s_end := len t |}]
          else []
  | _ => sentences
  end.

(** *** [createOverlap]

    [Math.ceil(overlapTokens * 0.8)] is computed on the integer
    [overlapTokens] as the ceiling of [4 * overlapTokens / 5]. *)
Definition createOverlap (chunkText : str) (overlapTokens : Z) : str :=
  let words := split_ws chunkText in
  let overlapWords := Z.min (Z.of_nat (length words)) ((4 * overlapTokens + 4) / 5) in
  join (lit " ") (array_slice_from words (- overlapWords)).

(** [currentTokens >= config.minChunkTokens], where [minChunkTokens] is
    [Math.min(20, targetTokens / 8)], a number that need not be whole. *)
Definition reaches_min (targetTokens currentTokens : Z) : bool :=
  Qle_bool (Qmin 20 (targetTokens # 8)) (inject_Z currentTokens).

(** *** [validateChunks], and the property the spec asks of a chunk *)
Definition validateChunks (chunks : list Chunk) (originalText : str) : bool :=
  forallb (fun chunk =>
             bool_decide (slice originalText (start chunk) (end_ chunk) = text chunk))
          chunks.

Definition offsets_match (source : str) (chunk : Chunk) : Prop :=
  trim (slice source (start chunk) (end_ chunk)) = text chunk.

Definition in_bounds (source : str) (chunk : Chunk) : Prop :=
  0 <= start chunk <= end_ chunk /\ end_ chunk <= len source.

(** *** chunker.ts *)
Module TS.

(** The body of the [for] loop; the state is
    [(chunks, currentChunk, currentStart, currentTokens)]. *)
Definition step (targetTokens overlapTokens : Z)
    (st : list Chunk * str * Z * Z) (sentence : Sentence)
    : list Chunk * str * Z * Z :=
  let '(chunks, currentChunk, currentStart, currentTokens) := st in
  let potentialChunk :=
    currentChunk ++ (if 0 <? len currentChunk then lit " " else []) ++ s_text sentence in
  let potentialTokens := estimateTokens potentialChunk in
  if (targetTokens <? potentialTokens) && reaches_min targetTokens currentTokens
  then
    let chunks :=
      chunks ++ [{| start := currentStart;
                    end_ := currentStart + len currentChunk;
                    text := trim currentChunk |}] in
    let overlap := createOverlap currentChunk overlapTokens in
    let currentChunk :=
      overlap ++ (if 0 <? len overlap then lit " " else []) ++ s_text sentence in
    (chunks, currentChunk, s_start sentence - len overlap, estimateTokens currentChunk)
  else (chunks, potentialChunk, currentStart, potentialTokens).

Definition chunkText (input : str) (targetTokens overlapTokens : Z) : list Chunk :=
  if len (trim input) =? 0 then []
  else
    match splitIntoSentences input with
    | [] => []
    | sentences =>
        let '(chunks, currentChunk, currentStart, currentTokens) :=
          foldl (step targetTokens overlapTokens) ([], [], 0, 0) sentences in
        if reaches_min targetTokens currentTokens
           || (bool_decide (chunks = []) && (0 <? len (trim currentChunk)))
        then chunks ++ [{| start := currentStart;
                           end_ := currentStart + len currentChunk;
                           text := trim currentChunk |}]
        else chunks
    end.

End TS.

(** *** chunker.js *)
Module JSV.

(** The pattern the variant repeats at every push: the text of a chunk is
    the trimmed slice of the input between its offsets, and an empty one is
    not pushed. *)
Definition push_slice (input : str) (chunks : list Chunk) (a b : Z) : list Chunk :=
  let chunkText := trim (slice input a b) in
  if 0 <? len chunkText
  then chunks ++ [{| start := a; end_ := b; text := chunkText |}]
  else chunks.

(** The body of a word loop: [haystack] is the string searched for the
    word and [base] the offset added to the index found ([sentence.text] and
    [sentence.start] inside a long sentence, the input and 0 in the
    fallback).  The state is [(chunks, wordStart, wordEnd)]. *)
Definition word_step (input haystack : str) (base targetTokens : Z)
    (st : list Chunk * Z * Z) (word : str) : list Chunk * Z * Z :=
  let '(chunks, wordStart, wordEnd) := st in
  let wordIndex := indexOf haystack word (wordEnd - base) in
  let newWordEnd := base + wordIndex + len word in
  let wordChunkText := slice input wordStart newWordEnd in
  let wordChunkTokens := estimateTokens wordChunkText in
  if (targetTokens <? wordChunkTokens) && (wordStart <? wordEnd)
  then (push_slice input chunks wordStart wordEnd, base + wordIndex, newWordEnd)
  else (chunks, wordStart, newWordEnd).

(** A word loop with the push of the final word chunk. *)
Definition split_words (input haystack : str) (base targetTokens : Z)
    (chunks : list Chunk) (words : list str) : list Chunk :=
  let '(chunks, wordStart, wordEnd) :=
    foldl (word_step input haystack base targetTokens) (chunks, base, base) words in
  if wordStart <? wordEnd then push_slice input chunks wordStart wordEnd else chunks.

(** The body of the [for] loop over the sentences; the state is
    [(chunks, currentStart, currentEnd, currentTokens)]. *)
Definition step (input : str) (targetTokens overlapTokens : Z)
    (st : list Chunk * Z * Z * Z) (sentence : Sentence) : list Chunk * Z * Z * Z :=
  let '(chunks, currentStart, currentEnd, currentTokens) := st in
  let sentenceTokens := estimateTokens (s_text sentence) in
  if targetTokens <? sentenceTokens
  then
    (* Finalize current chunk if it has content *)
    let chunks :=
      if currentStart <? currentEnd
      then push_slice input chunks currentStart currentEnd else chunks in
    (* Split the long sentence by words *)
    let chunks :=
      split_words input (s_text sentence) (s_start sentence) targetTokens chunks
                  (split_ws (s_text sentence)) in
    (chunks, 0, 0, 0)
  else
    let potentialEnd := s_end sentence in
    let potentialTokens := estimateTokens (slice input currentStart potentialEnd) in
    if (targetTokens <? potentialTokens) && reaches_min targetTokens currentTokens
    then
      let chunkText := trim (slice input currentStart currentEnd) in
      let chunks := push_slice input chunks currentStart currentEnd in
      (* Start new chunk with overlap *)
      let overlap := createOverlap chunkText overlapTokens in
      let currentStart := Z.max 0 (currentEnd - len overlap) in
      (chunks, currentStart, potentialEnd,
       estimateTokens (slice input currentStart potentialEnd))
    else (chunks, currentStart, potentialEnd, potentialTokens).

Definition chunkText (input : str) (targetTokens overlapTokens : Z) : list Chunk :=
  if len (trim input) =? 0 then []
  else
    match splitIntoSentences input with
    | [] => []
    | sentences =>
        let '(chunks, currentStart, currentEnd, currentTokens) :=
          foldl (step input targetTokens overlapTokens) ([], 0, 0, 0) sentences in
        (* Add final chunk if it meets minimum size OR if it's the only content *)
        let chunks :=
          if reaches_min targetTokens currentTokens
             || (bool_decide (chunks = []) && (currentStart <? currentEnd))
          then push_slice input chunks currentStart currentEnd
          else chunks in
        (* If we still have no chunks, split by words *)
        match chunks with
        | [] => split_words input input 0 targetTokens [] (split_ws (trim input))
        | _ => chunks
        end
    end.

End JSV.

End Chunker.

(** ** The chunk processor (chunk/processor.ts)

    The processor the embedding worker hands a job's content to.  The
    configuration is one that has passed the constructor's schema; an
    importance that JavaScript computes as [NaN] is [None]. *)
Module Processor.
Import JS.

Record ChunkConfig := { maxChunkSize : Z; overlapSize : Z; minChunkSize : Z }.

Record TextChunk := {
  id : string;
  text : str;
  startOff : Z;
  endOff : Z;
  tags : list str;
  importance : option Q
}.

(** [s.split(re)] for a regular expression [re] that matches the maximal
    runs of the characters of a class: the pieces between the runs; a run at
    the start or at the end leaves an empty piece. *)
Fixpoint split_runs (p : ascii -> bool) (cur : str) (in_sep : bool) (s : str)
    : list str :=
  match s with
  | [] => [cur]
  | c :: r =>
      if p c
      then (if in_sep then split_runs p cur true r
            else cur :: split_runs p [] true r)
      else split_runs p (cur ++ [c]) false r
  end.

(** [splitIntoSentences]: [text.split(/[.!?]+/)], trimmed, without the empty
    pieces. *)
Definition splitIntoSentences (t : str) : list str :=
  List.filter (fun s => 0 <? len s)
              (map trim (split_runs Chunker.is_terminator [] false t)).

(** The class [\w]. *)
Definition is_word (c : ascii) : bool :=
  let n := nat_of_ascii c in
  ((48 <=? n)%nat && (n <=? 57)%nat) || ((65 <=? n)%nat && (n <=? 90)%nat)
  || (n =? 95)%nat || ((97 <=? n)%nat && (n <=? 122)%nat).

Definition is_sigil (c : ascii) : bool := Ascii.eqb c "#" || Ascii.eqb c "@".

(** The length of the match of [/#\w+|@\w+/] at the head of a string, if it
    matches there. *)
Definition match_tag (s : str) : option nat :=
  match s with
  | c :: r =>
      if is_sigil c && (0 <? Chunker.span is_word r)%nat
      then Some (S (Chunker.span is_word r))
      else None
  | [] => None
  end.

(** [text.match(/#\w+|@\w+/g)]: the matches from left to right, each search
    starting where the last match ended; [skip] counts the characters of the
    last match still to be passed. *)
Fixpoint match_all (skip : nat) (s : str) : list str :=
  match s with
  | [] => []
  | _ :: r =>
      match skip with
      | S k => match_all k r
      | O =>
          match match_tag s with
          | Some n => take n s :: match_all (n - 1) r
          | None => match_all 0 r
          end
      end
  end.

(** [extractTags]; no match at all gives the empty array. *)
Definition extractTags (t : str) : list str := map toLowerCase (match_all 0 t).

(** [(text.match(re) || []).length] for a class of one character. *)
Definition count (p : ascii -> bool) (t : str) : Z :=
  Z.of_nat (length (List.filter p t)).

Definition is_upper (c : ascii) : bool :=
  let n := nat_of_ascii c in (65 <=? n)%nat && (n <=? 90)%nat.

(** [calculateImportance].  On the empty text [caps] is [0 / 0]. *)
Definition calculateImportance (t : str) : option Q :=
  if len t =? 0 then None
  else
    let f_length := Qmin (inject_Z (len t) / 1000) 1 in
    let questions := (inject_Z (count (Ascii.eqb "?") t) / 10)%Q in
    let exclamations := (inject_Z (count (Ascii.eqb "!") t) / 10)%Q in
    let caps := (inject_Z (count is_upper t) / inject_Z (len t))%Q in
    Some (Qmin (f_length * (4 # 10) + questions * (3 # 10)
                + exclamations * (2 # 10) + caps * (1 # 10)) 1).

Section WithConfig.
Variable config : ChunkConfig.
(** The value the [k]-th call of [crypto.randomUUID()] draws. *)
Variable randomUUID : nat -> string.

(** [getOverlap] *)
Definition getOverlap (t : str) : str :=
  let words := split t (lit " ") in
  let overlapWords := overlapSize config / 6 in
  join (lit " ") (array_slice_from words (- overlapWords)).

(** [createChunk]; [k] chunks were created before this one. *)
Definition createChunk (k : nat) (t : str) (entryId : string)
    (startOff endOff occurredAt : Z) : TextChunk :=
  {| id := randomUUID k; text := t; startOff := startOff; endOff := endOff;
     tags := extractTags t; importance := calculateImportance t |}.

(** The body of the [for] loop of [processText]; the state is
    [(chunks, currentChunk, startOff)]. *)
Definition step (entryId : string) (occurredAt : Z)
    (st : list TextChunk * str * Z) (sentence : str) : list TextChunk * str * Z :=
  let '(chunks, currentChunk, startOff) := st in
  let potentialChunk :=
    currentChunk ++ (if 0 <? len currentChunk then lit " " else []) ++ sentence in
  if (maxChunkSize config <? len potentialChunk)
     && (minChunkSize config <=? len currentChunk)
  then
    let chunks :=
      chunks ++ [createChunk (length chunks) (trim currentChunk) entryId
                   startOff (startOff + len currentChunk) occurredAt] in
    let overlap := getOverlap currentChunk in
    let currentChunk := overlap ++ sentence in
    (chunks, currentChunk, startOff + (len currentChunk - len overlap))
  else (chunks, potentialChunk, startOff).

Definition processText (t : str) (entryId : string) (occurredAt : Z)
    : list TextChunk :=
  let '(chunks, currentChunk, startOff) :=
    foldl (step entryId occurredAt) ([], [], 0) (splitIntoSentences t) in
  if minChunkSize config <=? len currentChunk
  then chunks ++ [createChunk (length chunks) (trim currentChunk) entryId
                    startOff (startOff + len currentChunk) occurredAt]
  else chunks.

End WithConfig.
End Processor.

(** ** The embedding generator (embed/generator.ts)

    The stand-in generator the repository ships: the components of an
    embedding are read off a hash of the text. *)
Module Generator.
Import JS.

Record EmbeddingConfig := { model : str; dimensions : Z; batchSize : Z }.

Record EmbeddingResult := {
  id : string;
  vector : list Q;
  res_model : str;
  createdAt : Z
}.

(** [ToInt32]: a number taken modulo [2^32] into [-2^31, 2^31). *)
Definition to_int32 (z : Z) : Z := (z + 2 ^ 31) mod 2 ^ 32 - 2 ^ 31.

(** [str.charCodeAt(i)] *)
Definition charCode (c : ascii) : Z := Z.of_nat (nat_of_ascii c).

(** The body of the loop of [simpleHash]:
    [hash = ((hash << 5) - hash) + char; hash = hash & hash]. *)
Definition hash_step (hash : Z) (c : ascii) : Z :=
  let hash := to_int32 (Z.shiftl (to_int32 hash) 5) - hash + charCode c in
  Z.land (to_int32 hash) (to_int32 hash).

Definition simpleHash (s : str) : Z := Z.abs (foldl hash_step 0 s).

Section WithConfig.
Variable config : EmbeddingConfig.
(** [Math.sin(x) * 0.5 + 0.5], as the [Float32Array] stores it. *)
Variable component : Z -> Q.
(** The values the [k]-th calls of [crypto.randomUUID()] and [Date.now()]
    give. *)
Variable randomUUID : nat -> string.
Variable now : nat -> Z.

Definition generateEmbedding (t : str) : list Q :=
  let hash := simpleHash t in
  map (fun i => component (hash + i)) (seqZ 0 (dimensions config)).

(** The inner [for] loop: one result pushed for each text of the batch. *)
Definition push_batch (embeddings : list (list Q)) (results : list EmbeddingResult)
    : list EmbeddingResult :=
  foldl (fun results v =>
           results ++ [{| id := randomUUID (length results); vector := v;
                          res_model := model config;
                          createdAt := now (length results) |}])
        results embeddings.

(** The outer [for] loop, [i] advancing by [batchSize]. *)
Fixpoint batches (fuel : nat) (texts : list str) (i : Z)
    (results : list EmbeddingResult) : list EmbeddingResult :=
  match fuel with
  | O => results
  | S fuel' =>
      if i <? Z.of_nat (length texts)
      then
        let batch := array_slice texts i (i + batchSize config) in
        let embeddings := map generateEmbedding batch in
        batches fuel' texts (i + batchSize config) (push_batch embeddings results)
      else results
  end.

(** [generateBatchEmbeddings]; with a batch size of at least 1 the loop ends
    within [texts.length] turns. *)
Definition generateBatchEmbeddings (texts : list str) : list EmbeddingResult :=
  batches (length texts) texts 0 [].

End WithConfig.
End Generator.

(** ** [processJob] of the embedding worker (workers/embedding.ts) *)
Module Embedding.
Import JS.

Record EmbeddedChunk := {
  id : string;
  text : str;
  embedding : list Q;
  startOff : Z;
  endOff : Z
}.

Record EmbeddingResult := {
  jobId : string;
  chunks : list EmbeddedChunk;
  success : bool
}.

Section WithServices.
Variable chunkConfig : Processor.ChunkConfig.
Variable embeddingConfig : Generator.EmbeddingConfig.
Variable component : Z -> Q.
Variable chunkUUID : nat -> string.
Variable resultUUID : nat -> string.
Variable now : nat -> Z.

(** [chunks.map((chunk, index) => ...)]: reading [embeddings[index].vector]
    where there is no such element throws. *)
Fixpoint combine_chunks (chunks : list Processor.TextChunk) (index : nat)
    (embeddings : list Generator.EmbeddingResult) : option (list EmbeddedChunk) :=
  match chunks with
  | [] => Some []
  | chunk :: rest =>
      e ← embeddings !! index;
      tail ← combine_chunks rest (S index) embeddings;
      Some ({| id := Processor.id chunk; text := Processor.text chunk;
               embedding := Generator.vector e;
               startOff := Processor.startOff chunk;
               endOff := Processor.endOff chunk |} :: tail)
  end.

(** [processJob]: [None] when the promise is rejected. *)
Definition processJob (job : Worker.EmbeddingJob) : option EmbeddingResult :=
  let chunks :=
    Processor.processText chunkConfig chunkUUID (Worker.content job)
      (Worker.entryId job) (Worker.occurredAt job) in
  let texts := map Processor.text chunks in
  let embeddings :=
    Generator.generateBatchEmbeddings embeddingConfig component resultUUID now texts in
  combined ← combine_chunks chunks 0 embeddings;
  Some {| jobId := Worker.id job; chunks := combined; success := true |}.

End WithServices.
End Embedding.

(** * Properties

    ** Numbers *)
Module FloatFacts.

(** *** Signs *)

(** A float that is not a number, or one with the sign [s]. *)
Definition sign_is (s : bool) (f : spec_float) : Prop :=
  match f with
  | S754_zero s' | S754_infinity s' | S754_finite s' _ _ => s' = s
  | S754_nan => True
  end.

Lemma binary_round_aux_sign (s : bool) (m e : Z) (l : location) :
  sign_is s (binary_round_aux prec emax s m e l).
Proof.
  unfold binary_round_aux.
  destruct (shr_fexp prec emax m e l) as [mrs' e'].
  destruct (shr_fexp prec emax _ e' loc_Exact) as [mrs'' e''].
  destruct (shr_m mrs''); simpl; [done| |done].
  by destruct (e'' <=? emax - prec).
Qed.

Lemma binary_normalize_sign (m e : Z) :
  0 <= m -> sign_is false (binary_normalize prec emax m e false).
Proof.
  intros Hm. destruct m as [|p|p]; simpl; [done| |lia].
  unfold binary_round. destruct (shl_align _ _ _) as [mz ez].
  apply binary_round_aux_sign.
Qed.

Lemma of_uint63_sign (n : PrimInt63.int) :
  sign_is false (Prim2SF (PrimFloat.of_uint63 n)).
Proof.
  rewrite FloatAxioms.of_uint63_spec. apply binary_normalize_sign.
  apply Uint63.to_Z_bounded.
Qed.

Lemma SFopp_sign (s : bool) (f : spec_float) :
  sign_is s f -> sign_is (negb s) (SFopp f).
Proof. destruct f; simpl; congruence. Qed.

Lemma number_sign (z : Z) : sign_is (z <? 0) (Prim2SF (number z)).
Proof.
  destruct z as [|p|p]; simpl number.
  - reflexivity.
  - apply of_uint63_sign.
  - rewrite FloatAxioms.opp_spec. apply (SFopp_sign false), of_uint63_sign.
Qed.

Lemma SFmul_sign (sa sb : bool) (a b : spec_float) :
  sign_is sa a -> sign_is sb b -> sign_is (xorb sa sb) (SF64mul a b).
Proof.
  destruct a as [s1|s1| |s1 m1 e1], b as [s2|s2| |s2 m2 e2]; simpl;
    try done; try congruence.
  intros -> ->. apply binary_round_aux_sign.
Qed.

Lemma SFltb_signs (a b : spec_float) :
  sign_is false a -> sign_is true b -> SFltb a b = false.
Proof.
  destruct a as [s1|s1| |s1 m1 e1], b as [s2|s2| |s2 m2 e2]; simpl;
    try done; by intros -> ->.
Qed.

(** A product of two numbers that are not negative is not below a negative
    integer. *)
Lemma product_above_negative (n l : Z) (c : float) :
  0 <= n -> l < 0 -> sign_is false (Prim2SF c) ->
  (number n * c <? number l)%float = false.
Proof.
  intros Hn Hl Hc. rewrite FloatAxioms.ltb_spec, FloatAxioms.mul_spec. apply SFltb_signs.
  - apply (SFmul_sign false false); [|done].
    pose proof (number_sign n) as H.
    destruct (Z.ltb_spec n 0); [lia|done].
  - pose proof (number_sign l) as H.
    destruct (Z.ltb_spec l 0); [done|lia].
Qed.

(** *** The order of the numbers *)
Lemma SFcompare_lt_trans (a b c : spec_float) :
  SFcompare a b = Some Lt -> SFcompare b c = Some Lt -> SFcompare a c = Some Lt.
Proof.
  destruct a as [sa|sa| |sa ma ea], b as [sb|sb| |sb mb eb], c as [sc|sc| |sc mc ec];
    simpl; try discriminate;
    repeat match goal with s : bool |- _ => destruct s end; simpl; try discriminate;
    try reflexivity.
  all: destruct (Z.compare_spec ea eb), (Z.compare_spec eb ec), (Z.compare_spec ea ec);
    try discriminate; try reflexivity; try lia; subst.
  all: rewrite ?Pos.compare_cont_spec; simpl;
    destruct (Pos.compare_spec ma mb), (Pos.compare_spec mb mc), (Pos.compare_spec ma mc);
    simpl; try discriminate; try reflexivity; try lia.
Qed.

Lemma SFcompare_antisym (a b : spec_float) :
  SFcompare b a = option_map CompOpp (SFcompare a b).
Proof.
  destruct a as [sa|sa| |sa ma ea], b as [sb|sb| |sb mb eb]; simpl; try done;
    repeat match goal with s : bool |- _ => destruct s end; simpl; try done.
  all: rewrite (Z.compare_antisym ea eb); destruct (ea ?= eb); simpl; try done.
  all: rewrite !Pos.compare_cont_spec; simpl.
  all: rewrite (Pos.compare_antisym ma mb); by destruct (ma ?= mb)%positive.
Qed.

Lemma SFcompare_eq_l (a b c : spec_float) :
  SFcompare a b = Some Eq -> SFcompare a c = SFcompare b c.
Proof.
  destruct a as [sa|sa| |sa ma ea], b as [sb|sb| |sb mb eb]; simpl; try discriminate;
    repeat match goal with s : bool |- _ => destruct s end; simpl; try discriminate;
    try (by destruct c as [[]|[]| |[] ? ?]).
  all: destruct (Z.compare_spec ea eb); try discriminate; subst.
  all: rewrite ?Pos.compare_cont_spec; simpl.
  all: destruct (Pos.compare_spec ma mb); try discriminate; subst; done.
Qed.

Lemma SFcompare_refl (a : spec_float) : a <> S754_nan -> SFcompare a a = Some Eq.
Proof.
  destruct a as [[]|[]| |[] m e]; simpl; try done.
  all: by rewrite Z.compare_refl, Pos.compare_cont_spec, Pos.compare_refl.
Qed.

Lemma SFcompare_None (a b : spec_float) :
  SFcompare a b = None <-> a = S754_nan \/ b = S754_nan.
Proof.
  destruct a as [[]|[]| |[] ma ea], b as [[]|[]| |[] mb eb]; simpl;
    (split; [intros H; try done; auto | intros [H | H]; done]).
Qed.

Lemma is_nan_spec (x : float) : PrimFloat.is_nan x = true <-> Prim2SF x = S754_nan.
Proof.
  unfold PrimFloat.is_nan. rewrite FloatAxioms.eqb_spec. unfold SFeqb. split.
  - intros H. destruct (Prim2SF x) as [s|s| |s m e] eqn:E; [| |done|];
      by rewrite SFcompare_refl in H.
  - by intros ->.
Qed.

Lemma is_nan_false (x : float) : PrimFloat.is_nan x = false <-> Prim2SF x <> S754_nan.
Proof.
  rewrite <- is_nan_spec. destruct (PrimFloat.is_nan x); split; congruence.
Qed.

(** The three cases of two numbers. *)
Lemma compare_cases (a b : float) :
  PrimFloat.is_nan a = false -> PrimFloat.is_nan b = false ->
  (a <? b)%float = true \/ (a =? b)%float = true \/ (b <? a)%float = true.
Proof.
  rewrite !is_nan_false, !FloatAxioms.ltb_spec, FloatAxioms.eqb_spec. intros Ha Hb.
  unfold SFltb, SFeqb. rewrite (SFcompare_antisym (Prim2SF a) (Prim2SF b)).
  destruct (SFcompare (Prim2SF a) (Prim2SF b)) as [[]|] eqn:E; simpl; auto.
  apply SFcompare_None in E. tauto.
Qed.

Lemma ltb_trans (a b c : float) :
  (a <? b)%float = true -> (b <? c)%float = true -> (a <? c)%float = true.
Proof.
  rewrite !FloatAxioms.ltb_spec. unfold SFltb. intros H1 H2.
  destruct (SFcompare (Prim2SF a) (Prim2SF b)) as [[]|] eqn:E1; try done.
  destruct (SFcompare (Prim2SF b) (Prim2SF c)) as [[]|] eqn:E2; try done.
  by rewrite (SFcompare_lt_trans _ _ _ E1 E2).
Qed.

Lemma ltb_not_nan (a b : float) :
  (a <? b)%float = true -> PrimFloat.is_nan a = false /\ PrimFloat.is_nan b = false.
Proof.
  rewrite FloatAxioms.ltb_spec, !is_nan_false. unfold SFltb. intros H.
  split; intros E; rewrite E in H; [done|]. by destruct (Prim2SF a).
Qed.

Lemma ltb_asym (a b : float) : (a <? b)%float = true -> (b <? a)%float = false.
Proof.
  rewrite !FloatAxioms.ltb_spec. unfold SFltb. rewrite (SFcompare_antisym (Prim2SF a) (Prim2SF b)).
  by destruct (SFcompare (Prim2SF a) (Prim2SF b)) as [[]|].
Qed.

(** Numbers that [==] holds equal compare alike with any other. *)
Lemma eqb_ltb_l (a a' x : float) :
  (a =? a')%float = true -> (a <? x)%float = (a' <? x)%float.
Proof.
  rewrite FloatAxioms.eqb_spec, !FloatAxioms.ltb_spec. unfold SFeqb, SFltb. intros H.
  destruct (SFcompare (Prim2SF a) (Prim2SF a')) as [[]|] eqn:E; try done.
  by rewrite (SFcompare_eq_l _ _ (Prim2SF x) E).
Qed.




Lemma eqb_leb_l (a a' x : float) :
  (a =? a')%float = true -> (a <=? x)%float = (a' <=? x)%float.
Proof.
  rewrite FloatAxioms.eqb_spec, !FloatAxioms.leb_spec. unfold SFeqb, SFleb. intros H.
  destruct (SFcompare (Prim2SF a) (Prim2SF a')) as [[]|] eqn:E; try done.
  by rewrite (SFcompare_eq_l _ _ (Prim2SF x) E).
Qed.

Lemma eqb_leb_r (a a' x : float) :
  (a =? a')%float = true -> (x <=? a)%float = (x <=? a')%float.
Proof.
  rewrite FloatAxioms.eqb_spec, !FloatAxioms.leb_spec. unfold SFeqb, SFleb. intros H.
  destruct (SFcompare (Prim2SF a) (Prim2SF a')) as [[]|] eqn:E; try done.
  rewrite (SFcompare_antisym (Prim2SF a) (Prim2SF x)),
          (SFcompare_antisym (Prim2SF a') (Prim2SF x)).
  by rewrite (SFcompare_eq_l _ _ (Prim2SF x) E).
Qed.


(** What does not exceed the best so far does not exceed a better one. *)
Lemma not_above_later (s s' x : float) :
  (s <? x)%float = false -> (s <? s')%float = true -> (s' <? x)%float = false.
Proof.
  intros H1 H2. destruct (s' <? x)%float eqn:E; [|done].
  by rewrite (ltb_trans _ _ _ H2 E) in H1.
Qed.

(** A number that did not exceed the best so far is below a better one. *)
Lemma below_later (s x y : float) :
  (s <? x)%float = false -> PrimFloat.is_nan x = false -> (s <? y)%float = true ->
  (x <? y)%float = true.
Proof.
  intros H1 Hx H2. destruct (ltb_not_nan _ _ H2) as [Hs _].
  destruct (compare_cases s x Hs Hx) as [H | [H | H]].
  - congruence.
  - by rewrite <- (eqb_ltb_l _ _ y H).
  - by apply (ltb_trans x s y).
Qed.

Lemma ltb_false_leb (a b : float) :
  PrimFloat.is_nan a = false -> PrimFloat.is_nan b = false ->
  (a <? b)%float = false -> (b <=? a)%float = true.
Proof.
  rewrite !is_nan_false, FloatAxioms.ltb_spec, FloatAxioms.leb_spec. intros Ha Hb.
  unfold SFltb, SFleb. rewrite (SFcompare_antisym (Prim2SF a) (Prim2SF b)).
  destruct (SFcompare (Prim2SF a) (Prim2SF b)) as [[]|] eqn:E; simpl; try done.
  apply SFcompare_None in E. tauto.
Qed.






Lemma ltb_nan_r (a x : float) :
  PrimFloat.is_nan x = true -> (a <? x)%float = false.
Proof.
  intros H. destruct (a <? x)%float eqn:E; [|done].
  apply ltb_not_nan in E as [_ E]. congruence.
Qed.

Lemma eqb_not_ltb (a b : float) : (a =? b)%float = true -> (b <? a)%float = false.
Proof.
  rewrite FloatAxioms.eqb_spec, FloatAxioms.ltb_spec. unfold SFeqb, SFltb.
  rewrite (SFcompare_antisym (Prim2SF a) (Prim2SF b)).
  by destruct (SFcompare (Prim2SF a) (Prim2SF b)) as [[]|].
Qed.










End FloatFacts.
(** ** The stable descending sort *)
Module SortFacts.

Lemma StronglySorted_snoc {A} (R : A -> A -> Prop) (l : list A) (x : A) :
  StronglySorted R l -> Forall (fun y => R y x) l -> StronglySorted R (l ++ [x]).
Proof.
  induction 1 as [|y l Hs IH Hall]; intros Hx; simpl.
  - repeat constructor.
  - inversion Hx; subst. constructor; [by apply IH|].
    apply Forall_app. split; [done|]. by constructor.
Qed.

Section Sort.
Context {A : Type} (key : A -> Q).

Definition key_ge (a b : A) : Prop := (key b <= key a)%Q.

Lemma insert_desc_by_perm (x : A) (l : list A) :
  Permutation (insert_desc_by key x l) (x :: l).
Proof.
  induction l as [|y r IH]; simpl; [done|].
  destruct (Qle_bool (key y) (key x)); [done|].
  rewrite IH. apply perm_swap.
Qed.

Lemma sort_desc_by_perm (l : list A) : Permutation (sort_desc_by key l) l.
Proof.
  induction l as [|x l IH]; simpl; [done|].
  rewrite insert_desc_by_perm. by constructor.
Qed.

Lemma insert_desc_by_sorted (x : A) (l : list A) :
  StronglySorted key_ge l -> StronglySorted key_ge (insert_desc_by key x l).
Proof.
  induction 1 as [|y r Hs IH Hall]; simpl.
  - repeat constructor.
  - destruct (Qle_bool (key y) (key x)) eqn:E.
    + apply Qle_bool_iff in E. constructor; [by constructor|].
      constructor; [exact E|].
      eapply Forall_impl; [exact Hall|]. intros z Hz. unfold key_ge in *.
      eapply Qle_trans; eauto.
    + assert (Hlt : (key x < key y)%Q).
      { apply Qnot_le_lt. intros H. apply Qle_bool_iff in H. congruence. }
      constructor; [exact IH|].
      rewrite insert_desc_by_perm. constructor; [|exact Hall].
      unfold key_ge. by apply Qlt_le_weak.
Qed.

Lemma sort_desc_by_sorted (l : list A) : StronglySorted key_ge (sort_desc_by key l).
Proof.
  induction l as [|x l IH]; simpl; [constructor|]. by apply insert_desc_by_sorted.
Qed.

(** The sort is stable: the elements of one key keep the order they came
    in. *)
Definition has_key (q : Q) (a : A) : bool := Qeq_bool (key a) q.

Lemma insert_desc_by_stable (q : Q) (x : A) (l : list A) :
  List.filter (has_key q) (insert_desc_by key x l) = List.filter (has_key q) (x :: l).
Proof.
  induction l as [|y r IH]; [done|]. cbn [insert_desc_by].
  destruct (Qle_bool (key y) (key x)) eqn:E; [done|].
  assert (Hlt : (key x < key y)%Q).
  { apply Qnot_le_lt. intros H. apply Qle_bool_iff in H. congruence. }
  cbn [List.filter] in *. rewrite IH.
  destruct (has_key q x) eqn:Ex, (has_key q y) eqn:Ey; try done.
  unfold has_key in *. apply Qeq_bool_iff in Ex, Ey.
  rewrite Ex, Ey in Hlt. by apply Qlt_irrefl in Hlt.
Qed.

Lemma sort_desc_by_stable (q : Q) (l : list A) :
  List.filter (has_key q) (sort_desc_by key l) = List.filter (has_key q) l.
Proof.
  induction l as [|x l IH]; [done|]. cbn [sort_desc_by foldr].
  change (foldr (insert_desc_by key) [] l) with (sort_desc_by key l).
  rewrite insert_desc_by_stable. cbn [List.filter]. by rewrite IH.
Qed.

End Sort.
End SortFacts.

(** ** Facts about the string primitives *)
Module JSFacts.
Import JS.

Lemma len_nonneg (s : str) : 0 <= len s.
Proof. unfold len. lia. Qed.

Lemma len_app (s t : str) : len (s ++ t) = len s + len t.
Proof. unfold len. rewrite length_app. lia. Qed.

Lemma rel_index_range (n k : Z) : 0 <= n -> 0 <= rel_index n k <= n.
Proof. unfold rel_index. intros Hn. destruct (k <? 0) eqn:E; lia. Qed.

Lemma slice_len_le (s : str) (a b : Z) :
  0 <= a -> 0 <= b -> len (slice s a b) <= b.
Proof.
  intros Ha Hb. unfold slice, len, rel_index.
  destruct (a <? 0) eqn:Ea; [lia|]. destruct (b <? 0) eqn:Eb; [lia|].
  rewrite length_take. lia.
Qed.


Lemma lastIndexOf_go_bound (c : ascii) (s : str) (pos best : Z) :
  best < pos -> lastIndexOf_go c s pos best < pos + len s.
Proof.
  revert pos best. induction s as [|x r IH]; intros pos best Hb; simpl.
  - unfold len. simpl. lia.
  - unfold len. simpl length. specialize (IH (pos + 1)).
    destruct (Ascii.eqb x c).
    + specialize (IH pos ltac:(lia)). unfold len in IH. lia.
    + specialize (IH best ltac:(lia)). unfold len in IH. lia.
Qed.

Lemma lastIndexOf_bound (s : str) (c : ascii) : lastIndexOf s c < len s.
Proof.
  unfold lastIndexOf. pose proof (lastIndexOf_go_bound c s 0 (-1)). lia.
Qed.



(** *** Trimming *)
Lemma trimStart_suffix (s : str) : exists pre, s = pre ++ trimStart s.
Proof.
  induction s as [|c r [pre IH]]; simpl; [by exists []|].
  destruct (is_ws c); [|by exists []]. exists (c :: pre). simpl. by f_equal.
Qed.

Lemma trimEnd_prefix (s : str) : exists post, s = trimEnd s ++ post.
Proof.
  unfold trimEnd. destruct (trimStart_suffix (reverse s)) as [pre H].
  exists (reverse pre). apply (f_equal reverse) in H.
  rewrite reverse_involutive, reverse_app in H. exact H.
Qed.

(** The trimmed string sits inside the string. *)
Lemma trim_inside (s : str) : exists pre post, s = pre ++ trim s ++ post.
Proof.
  unfold trim. destruct (trimStart_suffix s) as [pre H].
  destruct (trimEnd_prefix (trimStart s)) as [post H'].
  exists pre, post. by rewrite <- H'.
Qed.

Lemma trim_len (s : str) : len (trim s) <= len s.
Proof.
  destruct (trim_inside s) as (pre & post & H).
  rewrite H at 2. rewrite !len_app.
  pose proof (len_nonneg pre). pose proof (len_nonneg post). lia.
Qed.

Lemma slice_len_diff (s : str) (a b : Z) :
  0 <= a -> a <= b -> len (slice s a b) <= b - a.
Proof.
  intros Ha Hb. unfold slice, len, rel_index.
  destruct (Z.ltb_spec a 0); [lia|]. destruct (Z.ltb_spec b 0); [lia|].
  rewrite length_take, length_drop. lia.
Qed.

(** *** Searching *)
Lemma is_prefix_app (p b : str) : is_prefix p (p ++ b) = true.
Proof.
  induction p as [|c p IH]; simpl; [done|]. by rewrite Ascii.eqb_refl.
Qed.

Lemma is_prefix_length (p s : str) :
  is_prefix p s = true -> (length p <= length s)%nat.
Proof.
  revert s. induction p as [|c p IH]; intros [|d s] H; simpl in *; try lia; try done.
  apply andb_true_iff in H as [_ H]. apply IH in H. lia.
Qed.

(** The scan stops at the first position where the pattern starts: at or
    before any position where it is known to start, and with room for the
    pattern. *)
Lemma indexOf_go_found (pat s : str) (pos : Z) (k : nat) :
  is_prefix pat (drop k s) = true -> (k <= length s)%nat ->
  let i := indexOf_go pat s pos in
  pos <= i <= pos + Z.of_nat k /\ i - pos + len pat <= len s.
Proof.
  revert pos k. induction s as [|c s IH]; intros pos k Hk Hlen; simpl in *.
  - assert (k = 0)%nat as -> by lia. simpl in Hk. rewrite Hk.
    apply is_prefix_length in Hk. unfold len. simpl in *. lia.
  - destruct (is_prefix pat (c :: s)) eqn:E.
    + apply is_prefix_length in E. unfold len. simpl in *. lia.
    + destruct k as [|k]; [simpl in Hk; congruence|]. simpl in Hk.
      destruct (IH (pos + 1) k Hk ltac:(lia)) as [H1 H2].
      unfold len in *. simpl length. lia.
Qed.

(** [indexOf] finds a pattern that occurs at or after the position the
    search starts from. *)
Lemma indexOf_found (s pat a b : str) (from : Z) :
  s = a ++ pat ++ b -> 0 <= from <= len a ->
  let i := indexOf s pat from in
  from <= i <= len a /\ i + len pat <= len s.
Proof.
  intros Hs Hfrom. unfold indexOf.
  assert (Hla : len a <= len s).
  { rewrite Hs, !len_app. pose proof (len_nonneg pat). pose proof (len_nonneg b). lia. }
  replace (Z.min (Z.max from 0) (len s)) with from by lia.
  set (n := Z.to_nat from).
  assert (Hn : (n <= length a)%nat) by (unfold len in *; lia).
  destruct (indexOf_go_found pat (drop n s) from (length a - n)) as [H1 H2].
  - rewrite drop_drop. replace (n + (length a - n))%nat with (length a) by lia.
    rewrite Hs, drop_app_length. apply is_prefix_app.
  - rewrite length_drop, Hs, length_app. lia.
  - cbv zeta. split.
    + unfold len in *. lia.
    + assert (len (drop n s) = len s - from).
      { unfold len in *. rewrite length_drop. lia. }
      lia.
Qed.

(** *** Splitting into words *)

(** The words occur in the string, one after the other. *)
Fixpoint occurs_in_order (ws : list str) (s : str) : Prop :=
  match ws with
  | [] => True
  | w :: r => exists a b, s = a ++ w ++ b /\ occurs_in_order r b
  end.

Lemma occurs_prepend (ws : list str) (p s : str) :
  occurs_in_order ws s -> occurs_in_order ws (p ++ s).
Proof.
  destruct ws as [|w r]; simpl; [done|].
  intros (a & b & -> & H). exists (p ++ a), b. by rewrite <- app_assoc.
Qed.

Lemma occurs_append (ws : list str) (s q : str) :
  occurs_in_order ws s -> occurs_in_order ws (s ++ q).
Proof.
  revert s. induction ws as [|w r IH]; intros s; simpl; [done|].
  intros (a & b & -> & H). exists a, (b ++ q).
  split; [by rewrite <- !app_assoc|]. by apply IH.
Qed.

Lemma split_ws_go_occurs (cur : str) (in_sep : bool) (s : str) :
  (in_sep = true -> cur = []) ->
  occurs_in_order (split_ws_go cur in_sep s) (cur ++ s).
Proof.
  revert cur in_sep. induction s as [|c r IH]; intros cur in_sep Hsep; simpl.
  - exists [], []. by rewrite app_nil_r.
  - destruct (is_ws c).
    + destruct in_sep.
      * rewrite (Hsep eq_refl). simpl. apply (occurs_prepend _ [c]).
        by apply (IH [] true).
      * exists [], (c :: r). split; [done|]. apply (occurs_prepend _ [c]).
        by apply (IH [] true).
    + replace (cur ++ c :: r) with ((cur ++ [c]) ++ r) by (by rewrite <- app_assoc).
      apply IH. done.
Qed.

Lemma split_ws_occurs (s : str) : occurs_in_order (split_ws s) s.
Proof. apply (split_ws_go_occurs [] false s). done. Qed.

End JSFacts.

(** ** Token-budget packing *)
Module BudgetFacts.
Import JS JSFacts SortFacts Budget.

Lemma estimateTokens_nonneg (t : str) : 0 <= estimateTokens t.
Proof. unfold estimateTokens. pose proof (len_nonneg t). apply Z.div_pos; lia. Qed.

Lemma estimateTokens_le (t : str) (m : Z) :
  len t <= 4 * m -> estimateTokens t <= m.
Proof.
  intros H. unfold estimateTokens.
  apply Z.lt_succ_r, Z.div_lt_upper_bound; lia.
Qed.

Lemma estimateTokens_len (t : str) : len t <= 4 * estimateTokens t.
Proof.
  unfold estimateTokens.
  pose proof (Z.mul_div_le (len t + 3) 4). pose proof (Z.mod_pos_bound (len t + 3) 4).
  pose proof (Z.div_mod (len t + 3) 4). lia.
Qed.

(** The two thresholds are not negative. *)
Lemma threshold_sentence (n l : Z) :
  0 <= n -> (number n * 0.7 <? number l)%float = true -> 0 <= l.
Proof.
  intros Hn H. destruct (Z.lt_ge_cases l 0) as [Hl | Hl]; [|done].
  rewrite FloatFacts.product_above_negative in H; done.
Qed.

Lemma threshold_space (n l : Z) :
  0 <= n -> (number n * 0.8 <? number l)%float = true -> 0 <= l.
Proof.
  intros Hn H. destruct (Z.lt_ge_cases l 0) as [Hl | Hl]; [|done].
  rewrite FloatFacts.product_above_negative in H; done.
Qed.

(** Whatever branch truncation takes, the result has at most [4 * maxTokens]
    characters. *)
Lemma truncateText_len (t : str) (m : Z) :
  0 <= m -> len (truncateText t m) <= 4 * m.
Proof.
  intros Hm. unfold truncateText.
  destruct (len t <=? m * 4) eqn:E1; [lia|].
  set (tr := slice t 0 (m * 4)).
  assert (Htr : len tr <= m * 4) by (apply slice_len_le; lia).
  set (lse := Z.max (Z.max (lastIndexOf tr ".") (lastIndexOf tr "!")) (lastIndexOf tr "?")).
  assert (Hlse : lse < len tr).
  { pose proof (lastIndexOf_bound tr "."). pose proof (lastIndexOf_bound tr "!").
    pose proof (lastIndexOf_bound tr "?"). lia. }
  destruct (number (m * 4) * 0.7 <? number lse)%float eqn:E2.
  - apply threshold_sentence in E2; [|lia].
    pose proof (slice_len_le t 0 (lse + 1)). lia.
  - destruct (number (m * 4) * 0.8 <? number (lastIndexOf tr " "))%float eqn:E3.
    + apply threshold_space in E3; [|lia].
      pose proof (lastIndexOf_bound tr " ").
      pose proof (slice_len_le t 0 (lastIndexOf tr " ")). lia.
    + lia.
Qed.

Lemma truncateText_tokens (t : str) (m : Z) :
  0 <= m -> estimateTokens (truncateText t m) <= m.
Proof. intros. apply estimateTokens_le, truncateText_len. done. Qed.

Lemma sum_tokens_app (l1 l2 : list str) :
  sum_tokens (l1 ++ l2) = sum_tokens l1 + sum_tokens l2.
Proof. induction l1 as [|x l1 IH]; simpl; [done|]. rewrite IH. lia. Qed.

Lemma sum_tokens_nonneg (l : list str) : 0 <= sum_tokens l.
Proof.
  induction l as [|x l IH]; simpl; [done|].
  pose proof (estimateTokens_nonneg x). lia.
Qed.

(** The loop never spends more than what is left of the budget. *)
Lemma pack_sum (sorted : list Snippet) (rem : Z) (sel : list str) :
  0 <= rem -> sum_tokens (pack sorted rem sel) <= sum_tokens sel + rem.
Proof.
  revert rem sel. induction sorted as [|s rest IH]; intros rem sel Hrem; simpl.
  - lia.
  - destruct (estimateTokens (text s) <=? rem) eqn:E1.
    + etrans; [apply IH; lia|]. rewrite sum_tokens_app. simpl. lia.
    + destruct (20 <? rem) eqn:E2; [|lia].
      destruct (0 <? len (trim (truncateText (text s) rem))); [|lia].
      rewrite sum_tokens_app. simpl.
      pose proof (truncateText_tokens (text s) rem Hrem). lia.
Qed.

(** What the loop appends: the texts of a prefix of the sorted list, then at
    most one truncated text, of the snippet that follows the prefix, cut to
    what the prefix left of the budget. *)
Lemma pack_shape (sorted : list Snippet) (rem : Z) (sel : list str) :
  exists (j : nat) (tail : list str),
    pack sorted rem sel = sel ++ map text (take j sorted) ++ tail /\
    (tail = [] \/
     exists s, sorted !! j = Some s /\
       let r := rem - sum_tokens (map text (take j sorted)) in
       20 < r < estimateTokens (text s) /\ tail = [truncateText (text s) r]).
Proof.
  revert rem sel. induction sorted as [|s rest IH]; intros rem sel; simpl.
  - exists 0%nat, []. rewrite app_nil_r. auto.
  - destruct (Z.leb_spec (estimateTokens (text s)) rem) as [Hfit | Hover].
    + destruct (IH (rem - estimateTokens (text s)) (sel ++ [text s]))
        as (j & tail & -> & Ht).
      exists (S j), tail. split; [by rewrite <- app_assoc|].
      destruct Ht as [-> | (s' & Hs' & Hr & ->)]; [by left|right].
      exists s'. split; [done|]. simpl.
      replace (rem - (estimateTokens (text s) + sum_tokens (map text (take j rest))))
        with (rem - estimateTokens (text s) - sum_tokens (map text (take j rest))) by lia.
      done.
    + destruct (Z.ltb_spec 20 rem) as [Hroom | _].
      * destruct (0 <? len (trim (truncateText (text s) rem))).
        -- exists 0%nat, [truncateText (text s) rem]. split; [done|].
           right. exists s. split; [done|]. simpl. rewrite Z.sub_0_r. split; [lia|done].
        -- exists 0%nat, []. rewrite app_nil_r. auto.
      * exists 0%nat, []. rewrite app_nil_r. auto.
Qed.

Definition score_ge (a b : Snippet) : Prop := (score b <= score a)%Q.

Lemma sort_desc_perm (l : list Snippet) : Permutation (sort_desc l) l.
Proof. apply sort_desc_by_perm. Qed.

Lemma sort_desc_sorted (l : list Snippet) : StronglySorted score_ge (sort_desc l).
Proof. apply sort_desc_by_sorted. Qed.

Lemma join_len (sep : str) (l : list str) :
  len (join sep l) =
  foldr (fun t acc => len t + acc) 0 l + len sep * Z.of_nat (pred (length l)).
Proof.
  induction l as [|x [|y r] IH].
  - simpl. unfold len. simpl. lia.
  - simpl. unfold len. simpl. lia.
  - change (join sep (x :: y :: r)) with (x ++ sep ++ join sep (y :: r)).
    rewrite !len_app, IH. simpl foldr. simpl length. simpl pred. lia.
Qed.

Lemma sum_len_tokens (l : list str) :
  foldr (fun t acc => len t + acc) 0 l <= 4 * sum_tokens l.
Proof.
  induction l as [|x l IH]; simpl; [lia|].
  pose proof (estimateTokens_len x). lia.
Qed.

Lemma sum_tokens_Forall (l : list str) (m : Z) :
  sum_tokens l <= m -> Forall (fun p => estimateTokens p <= m) l.
Proof.
  revert m. induction l as [|x l IH]; intros m H; simpl in *; [constructor|].
  pose proof (estimateTokens_nonneg x). pose proof (sum_tokens_nonneg l).
  constructor; [lia|]. apply IH. lia.
Qed.

Lemma sort_desc_stable (q : Q) (l : list Snippet) :
  List.filter (has_key score q) (sort_desc l) = List.filter (has_key score q) l.
Proof. apply sort_desc_by_stable. Qed.

(** C7 (as amended): for an integer budget that is not negative, the packer
    takes the snippets in descending score order, snippets of one score in
    the order of the input (the sort is stable); it keeps the texts of a
    prefix of that order and at most one truncated text, of the snippet after
    the prefix, cut to what the prefix left of the budget; and the token
    estimates of the kept pieces sum to at most [maxTokens]; so each piece,
    and a context made of one piece, stays within the budget.  The separators
    of the final [join] are not counted: the joined context is estimated at
    no more than [maxTokens] plus half the number of pieces. *)
Theorem packing_within_budget (snippets : list Snippet) (maxTokens : Z) :
  0 <= maxTokens ->
  let sorted := sort_desc snippets in
  let pieces := packed snippets maxTokens in
  Permutation sorted snippets /\
  StronglySorted score_ge sorted /\
  (forall q, List.filter (has_key score q) sorted
             = List.filter (has_key score q) snippets) /\
  (exists (j : nat) (tail : list str),
      pieces = map text (take j sorted) ++ tail /\
      (tail = [] \/
       exists s, sorted !! j = Some s /\
         let r := maxTokens - sum_tokens (map text (take j sorted)) in
         20 < r < estimateTokens (text s) /\
         tail = [truncateText (text s) r])) /\
  sum_tokens pieces <= maxTokens /\
  Forall (fun p => estimateTokens p <= maxTokens) pieces /\
  estimateTokens (enforceTokenBudgetWithPriority snippets maxTokens)
    <= maxTokens + Z.of_nat (length pieces) / 2.
Proof.
  intros Hm sorted pieces.
  assert (Hsum : sum_tokens pieces <= maxTokens).
  { pose proof (pack_sum (sort_desc snippets) maxTokens [] Hm) as H.
    simpl in H. exact H. }
  split; [apply sort_desc_perm|]. split; [apply sort_desc_sorted|].
  split; [intros q; apply sort_desc_stable|].
  split; [apply (pack_shape (sort_desc snippets) maxTokens [])|].
  split; [exact Hsum|]. split; [by apply sum_tokens_Forall|].
  destruct snippets as [|s0 rest] eqn:Es.
  - simpl. unfold estimateTokens, len. simpl.
    change (3 / 4) with 0. apply Z.add_nonneg_nonneg; [lia|].
    apply Z.div_pos; lia.
  - unfold enforceTokenBudgetWithPriority. fold pieces.
    unfold estimateTokens at 1. rewrite join_len.
    pose proof (sum_len_tokens pieces) as Hl.
    change (len (lit _)) with 2.
    set (n := length pieces) in *.
    apply Z.lt_succ_r, Z.div_lt_upper_bound; [lia|].
    assert (Z.of_nat (pred n) <= 2 * (Z.of_nat n / 2)).
    { pose proof (Z.div_mod (Z.of_nat n) 2). pose proof (Z.mod_pos_bound (Z.of_nat n) 2). lia. }
    lia.
Qed.

(** The theorem at a concrete input: a budget of 45 tokens and one snippet of
    126 letters, a full stop and 80 more letters.  The sentence end at index
    126 exceeds [180 * 0.7], which is [125.99999999999999] in doubles, so the
    snippet is cut after the full stop. *)
Definition ex_sentence : list Snippet :=
  [ {| text := repeat "a"%char 126 ++ lit "." ++ repeat "b"%char 80; score := 1 |} ].

Lemma packing_within_budget_witness :
  0 <= 45 /\
  packed ex_sentence 45 = [repeat "a"%char 126 ++ lit "."] /\
  sum_tokens (packed ex_sentence 45) <= 45.
Proof.
  split; [lia|]. split; [vm_compute; reflexivity|].
  exact (proj1 (proj2 (proj2 (proj2 (proj2
           (packing_within_budget ex_sentence 45 ltac:(lia))))))).
Defined.

Definition ex_two : list Snippet :=
  [ {| text := lit "aaaa"; score := 1 |}; {| text := lit "bbbb"; score := 0 |} ].

(** C7 (as stated) fails: with a budget of two tokens, two four-character
    snippets are both packed whole (one token each), nothing is truncated,
    and the context joined with a blank line has ten characters, which the
    estimator counts as three tokens. *)
Lemma packing_overflow_counterexample :
  packed ex_two 2 = [lit "aaaa"; lit "bbbb"] /\
  ~ (estimateTokens (enforceTokenBudgetWithPriority ex_two 2) <= 2 \/
     exists s, packed ex_two 2 = [truncateText (text s) 2]).
Proof.
  split; [reflexivity|].
  intros [H | [s H]].
  - vm_compute in H. apply H. reflexivity.
  - discriminate H.
Qed.

End BudgetFacts.

(** ** Candidate filtering *)
Module FilterFacts.
Import JS RAG.

(** The filter specification in the words of the spec.  A requested tag
    matches a candidate tag when the two are equal up to letter case. *)
Definition same_ignoring_case (a b : str) : Prop := toLowerCase a = toLowerCase b.

Definition tag_filter_passes (requested : list str) (c : Candidate) : Prop :=
  Exists (fun tag =>
            Exists (same_ignoring_case tag)
                   (default [] (Selector.tags (metadata c))))
         requested.

(** Inclusive bounds on the occurrence timestamp; a candidate that carries
    no timestamp is not rejected. *)
Definition time_filter_passes (range : Z * Z) (c : Candidate) : Prop :=
  forall t, Selector.occurredAt (metadata c) = Some t -> range.1 <= t <= range.2.

(** A floor on the importance, an absent importance counting as 0. *)
Definition importance_filter_passes (floor : Q) (c : Candidate) : Prop :=
  (floor <= default 0%Q (Selector.importance (metadata c)))%Q.

(** A filter that is not supplied passes every candidate; an empty tag list
    counts as not supplied. *)
Definition passes (filters : option Filters) (c : Candidate) : Prop :=
  match filters with
  | None => True
  | Some f =>
      match tags f with
      | Some (t :: ts) => tag_filter_passes (t :: ts) c
      | _ => True
      end /\
      match timeRange f with
      | Some range => time_filter_passes range c
      | None => True
      end /\
      match importance f with
      | Some floor => importance_filter_passes floor c
      | None => True
      end
  end.

(** Tags as the chunk processor stores them ([extractTags] lowers them). *)
Definition tags_stored_lowercase (c : Candidate) : Prop :=
  Forall (fun tag => toLowerCase tag = tag)
         (default [] (Selector.tags (metadata c))).

Lemma includes_spec (l : list str) (x : str) : includes l x = true <-> x ∈ l.
Proof. unfold includes. apply bool_decide_eq_true. Qed.

Lemma tag_filter_code (requested : list str) (c : Candidate) :
  tags_stored_lowercase c ->
  existsb (fun tag => includes (default [] (Selector.tags (metadata c)))
                               (toLowerCase tag)) requested = true
  <-> tag_filter_passes requested c.
Proof.
  intros Hlow. unfold tag_filter_passes, tags_stored_lowercase in *.
  set (ctags := default [] (Selector.tags (metadata c))) in *.
  rewrite existsb_exists, Exists_exists. split.
  - intros (tag & Hin & Hinc). exists tag. split; [by apply list_elem_of_In|].
    apply includes_spec in Hinc. apply Exists_exists.
    exists (toLowerCase tag). split; [exact Hinc|].
    unfold same_ignoring_case. rewrite Forall_forall in Hlow.
    symmetry. by apply Hlow.
  - intros (tag & Hin & Hex). exists tag. split; [by apply list_elem_of_In|].
    apply includes_spec. apply Exists_exists in Hex as (ct & Hct & Hsame).
    unfold same_ignoring_case in Hsame. rewrite Forall_forall in Hlow.
    rewrite Hsame, (Hlow ct Hct). exact Hct.
Qed.

Lemma time_filter_code (start end_ : Z) (c : Candidate) :
  match Selector.occurredAt (metadata c) with
  | Some occurredAt => negb ((occurredAt <? start) || (end_ <? occurredAt))
  | None => true
  end = true <-> time_filter_passes (start, end_) c.
Proof.
  unfold time_filter_passes. simpl. destruct (Selector.occurredAt (metadata c)) as [t|].
  - split.
    + intros H t' [= <-]. apply negb_true_iff, orb_false_iff in H as [H1 H2]. lia.
    + intros H. specialize (H t eq_refl). apply negb_true_iff, orb_false_iff. lia.
  - split; [intros _ t' [=] | done].
Qed.

Lemma importance_filter_code (floor : Q) (c : Candidate) :
  negb (Qlt_bool (default 0%Q (Selector.importance (metadata c))) floor) = true
  <-> importance_filter_passes floor c.
Proof.
  unfold importance_filter_passes, Qlt_bool. rewrite negb_involutive.
  apply Qle_bool_iff.
Qed.

Lemma keep_spec (f : Filters) (c : Candidate) :
  tags_stored_lowercase c -> keep f c = true <-> passes (Some f) c.
Proof.
  intros Hlow. unfold keep, passes. rewrite !andb_true_iff.
  assert (Ht : match tags f with
               | Some (t :: ts) =>
                   existsb (fun tag => includes (default [] (Selector.tags (metadata c)))
                                                (toLowerCase tag)) (t :: ts)
               | _ => true
               end = true <->
               match tags f with
               | Some (t :: ts) => tag_filter_passes (t :: ts) c
               | _ => True
               end).
  { destruct (tags f) as [[|t ts]|]; [done| |done]. by apply tag_filter_code. }
  assert (Hr : match timeRange f with
               | Some (start, end_) =>
                   match Selector.occurredAt (metadata c) with
                   | Some occurredAt => negb ((occurredAt <? start) || (end_ <? occurredAt))
                   | None => true
                   end
               | None => true
               end = true <->
               match timeRange f with
               | Some range => time_filter_passes range c
               | None => True
               end).
  { destruct (timeRange f) as [[s e]|]; [|done]. apply time_filter_code. }
  assert (Hi : match importance f with
               | Some floor =>
                   negb (Qlt_bool (default 0%Q (Selector.importance (metadata c))) floor)
               | None => true
               end = true <->
               match importance f with
               | Some floor => importance_filter_passes floor c
               | None => True
               end).
  { destruct (importance f) as [fl|]; [|done]. apply importance_filter_code. }
  tauto.
Qed.

(** C8 (as amended): when the candidates' tags are stored in lower case, the
    candidates kept are exactly those of the input, in their order, that pass
    every supplied filter of the specification. *)
Theorem filterCandidates_keeps_passing (candidates : list Candidate)
    (filters : option Filters) (c : Candidate) :
  Forall tags_stored_lowercase candidates ->
  sublist (filterCandidates candidates filters) candidates /\
  (c ∈ filterCandidates candidates filters <-> c ∈ candidates /\ passes filters c).
Proof.
  intros Hlow. destruct filters as [f|]; simpl.
  - split.
    + induction candidates as [|x l IH]; simpl; [done|].
      inversion Hlow; subst.
      destruct (keep f x); [apply sublist_skip | apply sublist_cons]; auto.
    + rewrite list_elem_of_In, filter_In, <- list_elem_of_In.
      split.
      * intros [Hin Hk]. split; [done|]. apply keep_spec; [|done].
        rewrite Forall_forall in Hlow. by apply Hlow.
      * intros [Hin Hp]. split; [done|]. apply keep_spec; [|done].
        rewrite Forall_forall in Hlow. by apply Hlow.
  - split; [done|]. tauto.
Qed.

Definition md (ts : list str) (t : option Z) (i : option Q) : Selector.Metadata :=
  {| Selector.tags := Some ts; Selector.occurredAt := t; Selector.importance := i |}.

Definition cand (i : string) (m : Selector.Metadata) : Candidate :=
  {| id := i; text := lit "note"; embedding := [1%float]; metadata := m |}.

Definition ex_lower : Candidate := cand "a" (md [lit "work"] (Some 5) (Some (1 # 2))).
Definition ex_mixed : Candidate := cand "b" (md [lit "Work"] (Some 5) None).

Definition ex_filters : Filters :=
  {| tags := Some [lit "WORK"]; timeRange := Some (5, 9); importance := Some (1 # 2) |}.

Lemma filterCandidates_keeps_passing_witness :
  Forall tags_stored_lowercase [ex_lower] /\
  (ex_lower ∈ filterCandidates [ex_lower] (Some ex_filters) <->
   ex_lower ∈ [ex_lower] /\ passes (Some ex_filters) ex_lower).
Proof.
  assert (H : Forall tags_stored_lowercase [ex_lower]).
  { repeat constructor. }
  split; [exact H|].
  exact (proj2 (filterCandidates_keeps_passing [ex_lower] (Some ex_filters) ex_lower H)).
Defined.

(** C8 (as stated) fails: the requested tag is lowered, the candidate's tags
    are not.  A candidate tagged [Work] matches the requested tag [work] up to
    case, and is dropped. *)
Lemma tag_case_counterexample :
  let f := {| tags := Some [lit "work"]; timeRange := None; importance := None |} in
  ex_mixed ∈ [ex_mixed] /\ passes (Some f) ex_mixed /\
  ex_mixed ∉ filterCandidates [ex_mixed] (Some f).
Proof.
  split; [apply list_elem_of_here|]. split.
  - repeat split. do 2 constructor. reflexivity.
  - vm_compute. intros H. inversion H.
Qed.

End FilterFacts.

(** ** The greedy selection *)
Module GreedyFacts.
Import SortFacts Greedy FloatFacts.

Lemma set_delete_elem (s : list string) (b x : string) :
  x ∈ MMR.set_delete s b <-> x ∈ s /\ x <> b.
Proof.
  unfold MMR.set_delete. rewrite list_elem_of_In, filter_In, <- list_elem_of_In.
  rewrite negb_true_iff. split.
  - intros [H1 H2]. split; [done|]. intros ->. by rewrite String.eqb_refl in H2.
  - intros [H1 H2]. split; [done|]. by apply String.eqb_neq.
Qed.

Lemma set_delete_NoDup (s : list string) (b : string) :
  NoDup s -> NoDup (MMR.set_delete s b).
Proof.
  unfold MMR.set_delete. induction 1 as [|x l Hx Hl IH]; simpl; [constructor|].
  destruct (negb (x =? b)%string); [|done].
  constructor; [|done]. rewrite list_elem_of_In, filter_In, <- list_elem_of_In. tauto.
Qed.

Lemma set_delete_length (s : list string) (b : string) :
  NoDup s -> b ∈ s -> S (length (MMR.set_delete s b)) = length s.
Proof.
  unfold MMR.set_delete. induction 1 as [|x l Hx Hl IH]; intros Hb; [inversion Hb|].
  simpl. destruct (String.eqb_spec x b) as [-> | Hne]; simpl.
  - f_equal. clear IH Hl Hb. induction l as [|y l IH]; simpl; [done|].
    destruct (String.eqb_spec y b) as [-> | Hne]; simpl.
    + exfalso. apply Hx. apply list_elem_of_here.
    + f_equal. apply IH. intros H. apply Hx. by apply list_elem_of_further.
  - f_equal. apply IH. apply elem_of_cons in Hb as [-> | Hb]; [done|done].
Qed.

Lemma to_set_elem (l : list string) (x : string) : x ∈ MMR.to_set l <-> x ∈ l.
Proof.
  induction l as [|y l IH]; simpl; [done|].
  rewrite !elem_of_cons.
  change (List.filter _ (MMR.to_set l)) with (MMR.set_delete (MMR.to_set l) y).
  rewrite set_delete_elem, IH.
  destruct (decide (x = y)); tauto.
Qed.

Lemma to_set_NoDup (l : list string) : NoDup (MMR.to_set l).
Proof.
  induction l as [|y l IH]; simpl; [constructor|].
  change (List.filter _ (MMR.to_set l)) with (MMR.set_delete (MMR.to_set l) y).
  constructor; [|by apply set_delete_NoDup].
  rewrite set_delete_elem. tauto.
Qed.

(** *** The order of a list *)
Lemma before_cons (l : list string) (x a b : string) :
  before l a b -> before (x :: l) a b.
Proof. intros (l1 & l2 & -> & Hb). by exists (x :: l1), l2. Qed.

(** What comes before in a filtered list comes before in the list. *)
Lemma before_filter (p : string -> bool) (l : list string) (a b : string) :
  before (List.filter p l) a b -> before l a b.
Proof.
  induction l as [|x l IH]; simpl.
  - intros (l1 & l2 & H & _). by destruct l1.
  - destruct (p x) eqn:E; [|intros H; by apply before_cons, IH].
    intros (l1 & l2 & H & Hb). destruct l1 as [|y l1]; simpl in H.
    + injection H as -> <-. exists [], l. split; [done|].
      apply list_elem_of_In, filter_In in Hb as [Hb _]. by apply list_elem_of_In.
    + injection H as <- H. apply before_cons, IH. by exists l1, l2.
Qed.

(** The set of the ids keeps the order of their first appearance. *)
Lemma to_set_before (l : list string) (a b : string) :
  before (MMR.to_set l) a b -> before l a b.
Proof.
  induction l as [|x l IH]; simpl.
  - intros (l1 & l2 & H & _). by destruct l1.
  - intros (l1 & l2 & H & Hb). destruct l1 as [|y l1]; simpl in H.
    + injection H as -> <-. exists [], l. split; [done|].
      apply list_elem_of_In, filter_In in Hb as [Hb _].
      by apply to_set_elem, list_elem_of_In.
    + injection H as <- H. apply before_cons, IH.
      apply (before_filter (fun j => negb (j =? x)%string)). by exists l1, l2.
Qed.


Section Scan.
Variable f : string -> float.

(** What the scan returns: either nothing exceeded the score it started
    from, or the first id whose score nothing after it exceeds; the ids
    before it score strictly less, or [NaN]. *)
Lemma scan_first (remaining : list string) (bestId : string) (bestScore : float) :
  let r := scan f remaining bestId bestScore in
  (r = (bestId, bestScore) /\
   forall j, j ∈ remaining -> (bestScore <? f j)%float = false) \/
  (exists l1 l2,
     remaining = l1 ++ r.1 :: l2 /\ r.2 = f r.1 /\
     (bestScore <? f r.1)%float = true /\
     (forall j, j ∈ l1 ->
        (f j <? f r.1)%float = true \/ PrimFloat.is_nan (f j) = true) /\
     (forall j, j ∈ l2 -> (f r.1 <? f j)%float = false)).
Proof.
  revert bestId bestScore.
  induction remaining as [|i rest IH]; intros bestId bestScore; simpl.
  - left. split; [done|]. intros j Hj. inversion Hj.
  - destruct (bestScore <? f i)%float eqn:E.
    + right. destruct (IH i (f i)) as [[-> Hall] | (l1 & l2 & Hr & Hv & Hlt & H1 & H2)].
      * exists [], rest. simpl. repeat split; try done.
        intros j Hj. inversion Hj.
      * exists (i :: l1), l2. split; [by rewrite Hr at 1|]. split; [done|].
        split; [by apply (ltb_trans _ (f i))|]. split; [|done].
        intros j Hj. apply elem_of_cons in Hj as [-> | Hj]; [by left|by apply H1].
    + destruct (IH bestId bestScore)
        as [[-> Hall] | (l1 & l2 & Hr & Hv & Hlt & H1 & H2)].
      * left. split; [done|]. intros j Hj.
        apply elem_of_cons in Hj as [-> | Hj]; [done|by apply Hall].
      * right. exists (i :: l1), l2. split; [by rewrite Hr at 1|]. split; [done|].
        split; [done|]. split; [|done].
        intros j Hj. apply elem_of_cons in Hj as [-> | Hj]; [|by apply H1].
        destruct (PrimFloat.is_nan (f i)) eqn:En; [by right|left].
        by apply (below_later bestScore).
Qed.

End Scan.

Section Picks.
Variable score : list string -> string -> float.

(** Each id of [out] scored above [-Infinity] when it was taken, and was the
    first of the best among the ids of [ids] not taken before it: another
    one scored less, or [NaN], or the same and comes after it in the set of
    the ids. *)
Definition first_best (ids out : list string) : Prop :=
  forall pre b post, out = pre ++ b :: post ->
    (PrimFloat.neg_infinity <? score pre b)%float = true /\
    forall j, j ∈ ids -> j ∉ pre -> j <> b ->
      (score pre j <? score pre b)%float = true \/
      PrimFloat.is_nan (score pre j) = true \/
      ((score pre j =? score pre b)%float = true /\ before (MMR.to_set ids) b j).

Definition inv (ids out remaining : list string) : Prop :=
  NoDup out /\ NoDup remaining /\
  (forall i, i ∈ ids <-> i ∈ out \/ i ∈ remaining) /\
  (forall i, i ∈ out -> i ∉ remaining) /\
  (forall a b, before remaining a b -> before (MMR.to_set ids) a b) /\
  first_best ids out.

Lemma snoc_split {A} (l pre post : list A) (a x : A) :
  l ++ [a] = pre ++ x :: post ->
  (post = [] /\ pre = l /\ x = a) \/
  (exists post', post = post' ++ [a] /\ l = pre ++ x :: post').
Proof.
  destruct post as [|y post'] using rev_ind; intros H.
  - apply app_inj_tail in H as [-> ->]. by left.
  - clear IHpost'. right. exists post'.
    change (pre ++ x :: post' ++ [y]) with (pre ++ (x :: post') ++ [y]) in H.
    rewrite app_assoc in H. apply app_inj_tail in H as [-> ->]. done.
Qed.

Lemma inv_step (ids out l1 l2 : list string) (b : string) :
  inv ids out (l1 ++ b :: l2) ->
  (PrimFloat.neg_infinity <? score out b)%float = true ->
  (forall j, j ∈ l1 ->
     (score out j <? score out b)%float = true \/
     PrimFloat.is_nan (score out j) = true) ->
  (forall j, j ∈ l2 -> (score out b <? score out j)%float = false) ->
  inv ids (out ++ [b]) (MMR.set_delete (l1 ++ b :: l2) b).
Proof.
  intros (Hn & Hr & Hu & Hd & Hord & Hbest) Hb H1 H2.
  set (remaining := l1 ++ b :: l2) in *.
  assert (Hbr : b ∈ remaining).
  { unfold remaining. rewrite elem_of_app, elem_of_cons. auto. }
  split; [|split; [|split; [|split; [|split]]]].
  - apply NoDup_app. split; [done|]. split; [|apply NoDup_singleton].
    intros x Hx Hx'. apply list_elem_of_singleton in Hx' as ->. by apply (Hd b).
  - by apply set_delete_NoDup.
  - intros i. rewrite elem_of_app, list_elem_of_singleton, set_delete_elem.
    specialize (Hu i). destruct (decide (i = b)) as [-> | Hne]; tauto.
  - intros i Hi Hi'. apply set_delete_elem in Hi' as [Hi' Hne].
    apply elem_of_app in Hi as [Hi | Hi]; [by apply (Hd i)|].
    by apply list_elem_of_singleton in Hi.
  - intros a c Hac. apply Hord. by eapply before_filter.
  - intros pre x post Hsplit.
    apply snoc_split in Hsplit as [(-> & -> & ->) | (post' & -> & ->)];
      [|by eapply Hbest].
    split; [done|]. intros j Hj Hpre Hne.
    assert (Hjr : j ∈ remaining) by (apply Hu in Hj as [Hj | Hj]; done).
    unfold remaining in Hjr. rewrite elem_of_app, elem_of_cons in Hjr.
    destruct Hjr as [Hj1 | [-> | Hj2]]; [|done|].
    + destruct (H1 j Hj1); auto.
    + destruct (PrimFloat.is_nan (score out j)) eqn:En; [auto|].
      destruct (ltb_not_nan _ _ Hb) as [_ Hbn].
      destruct (compare_cases (score out j) (score out b) En Hbn) as [H | [H | H]].
      * auto.
      * right. right. split; [done|]. apply Hord. by exists l1, l2.
      * by rewrite (H2 j Hj2) in H.
Qed.

Lemma picks_inv (ids : list string) (fuel : nat) (k : Z) (out remaining : list string) :
  inv ids out remaining ->
  exists remaining', inv ids (picks score fuel k out remaining) remaining'.
Proof.
  revert out remaining. induction fuel as [|fuel IH]; intros out remaining Hinv; simpl.
  - by exists remaining.
  - destruct ((Z.of_nat (length out) <? k) && (0 <? length remaining)%nat) eqn:E;
      [|by exists remaining].
    destruct (scan_first (score out) remaining EmptyString PrimFloat.neg_infinity)
      as [[-> _] | (l1 & l2 & Hr & Hv & Hlt & H1 & H2)].
    { simpl. by exists remaining. }
    destruct (scan (score out) remaining "" PrimFloat.neg_infinity) as [b s].
    simpl in *. subst s.
    destruct (negb (b =? "")%string && (PrimFloat.neg_infinity <? score out b)%float);
      [|by exists remaining].
    apply IH. rewrite Hr in *. by apply inv_step.
Qed.

Lemma picks_first_best (fuel : nat) (k : Z) (ids : list string) :
  let out := picks score fuel k [] (MMR.to_set ids) in
  NoDup out /\ (forall i, i ∈ out -> i ∈ ids) /\ first_best ids out.
Proof.
  intros out.
  destruct (picks_inv ids fuel k [] (MMR.to_set ids))
    as (rem' & Hn & Hr & Hu & Hd & _ & Hbest).
  { split; [constructor|]. split; [apply to_set_NoDup|]. split; [|split; [|split]].
    - intros i. rewrite to_set_elem. split; [by right|].
      intros [Hi | Hi]; [inversion Hi|done].
    - intros i Hi. inversion Hi.
    - done.
    - intros pre b post Hsplit. by destruct pre. }
  split; [done|]. split; [|done]. intros i Hi. apply Hu. by left.
Qed.

Lemma picks_extends (fuel : nat) (k : Z) (out remaining : list string) (x : string) :
  x ∈ out -> x ∈ picks score fuel k out remaining.
Proof.
  revert out remaining. induction fuel as [|fuel IH]; intros out remaining Hx; simpl.
  - done.
  - destruct (_ && _); [|done].
    destruct (scan (score out) remaining "" PrimFloat.neg_infinity) as [b s].
    destruct (_ && _); [|done]. apply IH. rewrite elem_of_app. by left.
Qed.

Lemma picks_at_most (fuel : nat) (k : Z) (out remaining : list string) :
  Z.of_nat (length (picks score fuel k out remaining))
    <= Z.max k (Z.of_nat (length out)).
Proof.
  revert out remaining. induction fuel as [|fuel IH]; intros out remaining; simpl.
  - lia.
  - destruct (Z.ltb_spec (Z.of_nat (length out)) k); simpl; [|lia].
    destruct (0 <? length remaining)%nat; [|lia].
    destruct (scan (score out) remaining "" PrimFloat.neg_infinity) as [b s].
    destruct (_ && _); [|lia].
    etrans; [apply IH|]. rewrite length_app. simpl. lia.
Qed.

(** With enough fuel and no empty id, the loop stops only when [k] ids are
    out or none remains, or when no id that remains scores above
    [-Infinity]. *)
Lemma picks_length (fuel : nat) (k : Z) (out remaining : list string) :
  NoDup remaining -> EmptyString ∉ remaining ->
  (length remaining <= fuel)%nat ->
  let out' := picks score fuel k out remaining in
  length out' =
    (length out + Nat.min (Z.to_nat (k - Z.of_nat (length out))) (length remaining))%nat
  \/ (forall j, j ∈ remaining -> j ∉ out' ->
        (PrimFloat.neg_infinity <? score out' j)%float = false).
Proof.
  revert out remaining. induction fuel as [|fuel IH]; intros out remaining Hnd He Hf; simpl.
  - left. destruct remaining; simpl in *; lia.
  - destruct (Z.of_nat (length out) <? k) eqn:E1; simpl; [|left; lia].
    destruct (0 <? length remaining)%nat eqn:E2; [|left; apply Nat.ltb_ge in E2; lia].
    apply Nat.ltb_lt in E2.
    destruct (scan_first (score out) remaining EmptyString PrimFloat.neg_infinity)
      as [[-> Hall] | (l1 & l2 & Hr & Hv & Hlt & H1 & H2)].
    { simpl. right. intros j Hj _. by apply Hall. }
    destruct (scan (score out) remaining "" PrimFloat.neg_infinity) as [b s].
    simpl in *. subst s.
    assert (Hb : b ∈ remaining).
    { rewrite Hr, elem_of_app, elem_of_cons. auto. }
    assert (Hne : b <> EmptyString) by (intros ->; done).
    apply String.eqb_neq in Hne. rewrite Hne, Hlt. simpl.
    pose proof (set_delete_length remaining b Hnd Hb) as Hlen.
    destruct (IH (out ++ [b]) (MMR.set_delete remaining b)) as [Hl | Hstop].
    + by apply set_delete_NoDup.
    + rewrite set_delete_elem. tauto.
    + lia.
    + left. rewrite Hl, length_app. simpl. lia.
    + right. intros j Hj Hout. apply Hstop; [|done].
      apply set_delete_elem. split; [done|]. intros ->. apply Hout.
      apply picks_extends. rewrite elem_of_app, list_elem_of_singleton. auto.
Qed.


End Picks.

(** *** When the score does not depend on what was taken *)
Section Ranked.
Variable score : list string -> string -> float.
Variable f : string -> float.
Variable ids : list string.
Hypothesis score_f :
  forall pre j, (forall p, p ∈ pre -> p ∈ ids) -> j ∈ ids ->
                (score pre j =? f j)%float = true.


End Ranked.
End GreedyFacts.
(** ** The MMR re-ranker and the MMR selector *)
Module MMRFacts.
Import GreedyFacts FloatFacts.

(** The cosine similarity of two vectors of one dimension. *)
Definition cos (a b : list float) : float :=
  match MMR.cosineSimilarity a b with
  | Ok c => c
  | Throw _ => 0%float
  end.

Lemma cosineSimilarity_ok (a b : list float) :
  length a = length b -> exists r, MMR.cosineSimilarity a b = Ok r.
Proof.
  intros H. unfold MMR.cosineSimilarity. rewrite H, Nat.eqb_refl. simpl.
  destruct (MMR.sums a b 0 0 0) as [[d na] nb]. eauto.
Qed.

Lemma cos_ok (a b : list float) :
  length a = length b -> MMR.cosineSimilarity a b = Ok (cos a b).
Proof.
  intros H. unfold cos. by destruct (cosineSimilarity_ok a b H) as [r ->].
Qed.

Lemma cosineSimilarity_throws (a b : list float) :
  length a <> length b ->
  MMR.cosineSimilarity a b = Throw VectorDimensionsMustMatch.
Proof.
  intros H. unfold MMR.cosineSimilarity.
  apply Nat.eqb_neq in H. by rewrite H.
Qed.

Lemma cosineSimilarity_error (a b : list float) (e : error) :
  MMR.cosineSimilarity a b = Throw e -> e = VectorDimensionsMustMatch.
Proof.
  unfold MMR.cosineSimilarity. destruct (negb _); [by intros [= <-]|].
  by destruct (MMR.sums a b 0 0 0) as [[? ?] ?].
Qed.

Lemma origin_guard (b : string) :
  negb (b =? "")%string
  && (PrimFloat.neg_infinity <? PrimFloat.neg_infinity)%float = false.
Proof. apply andb_false_r. Qed.

(** *** mmr.ts *)
Section Rerank.
Import MMR.
Variable items : list MMRItem.
Variable queryVec : list float.
Variable lambda : float.

(** Every item vector has the dimension of the query vector. *)
Definition dims_ok : Prop :=
  Forall (fun it => length (vec it) = length queryVec) items.

(** The relevance of an id: the cosine similarity of the query with the
    first item of that id. *)
Definition rel (i : string) : float :=
  match find_item items i with
  | Some it => cos queryVec (vec it)
  | None => 0%float
  end.

(** The vector of an id: that of the first item with the id. *)
Definition vec_of (i : string) : list float :=
  match find_item items i with
  | Some it => vec it
  | None => []
  end.

(** The largest similarity of an id to the ids picked before, and 0 if
    none of them is positive. *)
Definition similarity_to (pre : list string) (j : string) : float :=
  foldl (fun m p => Math_max m (cos (vec_of j) (vec_of p))) 0%float pre.

(** The MMR score of the id [j] once the ids [pre] are picked. *)
Definition mmr_score (pre : list string) (j : string) : float :=
  (lambda * rel j - (1 - lambda) * similarity_to pre j)%float.

(** An item that [items.find] returns for its own id. *)
Definition first_of_id (it : MMRItem) : Prop := find_item items (id it) = Some it.


Lemma find_item_Some (i : string) (it : MMRItem) :
  find_item items i = Some it -> it ∈ items /\ id it = i.
Proof.
  unfold find_item. intros H. apply find_some in H as [H1 H2].
  split; [by apply list_elem_of_In|]. by apply String.eqb_eq.
Qed.

Lemma find_item_elem (i : string) :
  i ∈ map id items -> exists it, find_item items i = Some it.
Proof.
  intros H. apply list_elem_of_fmap in H as (it & -> & Hit).
  destruct (find_item items (id it)) as [x|] eqn:E; [by exists x|].
  unfold find_item in E. apply list_elem_of_In in Hit.
  pose proof (find_none _ _ E _ Hit) as Hn. simpl in Hn.
  by rewrite String.eqb_refl in Hn.
Qed.

Lemma first_of_id_elem (s : MMRItem) : first_of_id s -> s ∈ items.
Proof. intros H. by apply find_item_Some in H as [? _]. Qed.

Lemma max_similarity_fold (v : list float) (ws : list (list float)) (m : float) :
  Forall (fun w => length w = length v) ws ->
  max_similarity v ws m = Ok (foldl (fun m w => Math_max m (cos v w)) m ws).
Proof.
  revert m. induction ws as [|w ws IH]; intros m H; simpl; [done|].
  inversion H; subst. rewrite cos_ok by done. simpl. by apply IH.
Qed.

Lemma fold_first_of_id (v : list float) (selected : list MMRItem) (m : float) :
  Forall first_of_id selected ->
  foldl (fun m w => Math_max m (cos v w)) m (map vec selected) =
  foldl (fun m p => Math_max m (cos v (vec_of p))) m (map id selected).
Proof.
  revert m. induction selected as [|s sel IH]; intros m H; simpl; [done|].
  inversion H as [|? ? Hs Hsel]; subst. rewrite <- IH by done.
  unfold vec_of. unfold first_of_id in Hs. by rewrite Hs.
Qed.

Lemma calculateDiversity_eq (i : string) (selected : list MMRItem) :
  dims_ok -> Forall first_of_id selected -> i ∈ map id items ->
  calculateDiversity i selected items = Ok (similarity_to (map id selected) i).
Proof.
  intros Hd Hs Hi. unfold calculateDiversity, similarity_to.
  destruct selected as [|s0 sel] eqn:Es; [done|]. rewrite <- Es in *. clear Es.
  unfold vec_of at 1.
  destruct (find_item_elem i Hi) as [c E]. rewrite E.
  rewrite max_similarity_fold; [by rewrite fold_first_of_id|].
  apply find_item_Some in E as [Hc _].
  unfold dims_ok in Hd. rewrite Forall_forall in Hd.
  apply Forall_fmap. eapply Forall_impl; [exact Hs|]. intros s Hin. simpl.
  apply first_of_id_elem in Hin. by rewrite (Hd s Hin), (Hd c Hc).
Qed.

(** With vectors of the query's dimension the scan of the code is the scan
    by the MMR score. *)
Lemma scan_marginal (selected : list MMRItem) (remaining : list string)
    (bestId : string) (bestScore : float) :
  dims_ok -> Forall first_of_id selected ->
  (forall i, i ∈ remaining -> i ∈ map id items) ->
  scan items queryVec lambda selected remaining bestId bestScore
    = Ok (Greedy.scan (mmr_score (map id selected)) remaining bestId bestScore).
Proof.
  intros Hd Hs. revert bestId bestScore.
  induction remaining as [|i rest IH]; intros bestId bestScore Hrem; simpl; [done|].
  assert (Hi : i ∈ map id items) by apply Hrem, list_elem_of_here.
  assert (Hrest : forall j, j ∈ rest -> j ∈ map id items)
    by (intros j Hj; by apply Hrem, list_elem_of_further).
  destruct (find_item_elem i Hi) as [it Hit]. rewrite Hit.
  assert (Hit' : it ∈ items) by (by apply find_item_Some in Hit as [? _]).
  unfold calculateRelevance at 1. rewrite cos_ok.
  2:{ unfold dims_ok in Hd. rewrite Forall_forall in Hd. symmetry. by apply Hd. }
  simpl. rewrite (calculateDiversity_eq i selected Hd Hs Hi). simpl.
  assert (Hscore : mmr_score (map id selected) i =
                   (lambda * cos queryVec (vec it)
                    - (1 - lambda) * similarity_to (map id selected) i)%float).
  { unfold mmr_score, rel. by rewrite Hit. }
  rewrite Hscore.
  destruct (_ <? _)%float; by apply IH.
Qed.

(** The loop of the code returns the items of the ids that [picks] returns. *)
Lemma select_loop_marginal (fuel : nat) (k : Z) (selected : list MMRItem)
    (remaining : list string) :
  dims_ok -> Forall first_of_id selected ->
  (forall i, i ∈ remaining -> i ∈ map id items) ->
  exists out,
    select_loop fuel items queryVec lambda k selected remaining = Ok out /\
    map id out = Greedy.picks mmr_score fuel k (map id selected) remaining.
Proof.
  intros Hd. revert selected remaining.
  induction fuel as [|fuel IH]; intros selected remaining Hs Hrem; simpl.
  - by exists selected.
  - rewrite length_map.
    destruct ((Z.of_nat (length selected) <? k) && (0 <? length remaining)%nat);
      [|by exists selected].
    rewrite (scan_marginal selected remaining EmptyString _ Hd Hs Hrem). simpl.
    destruct (scan_first (mmr_score (map id selected)) remaining EmptyString
                PrimFloat.neg_infinity) as [[-> _] | (l1 & l2 & Hr & _)].
    { rewrite origin_guard. by exists selected. }
    destruct (Greedy.scan _ remaining EmptyString _) as [b s']. simpl in Hr.
    destruct (negb (b =? "")%string && (PrimFloat.neg_infinity <? s')%float);
      [|by exists selected].
    assert (Hb : b ∈ remaining).
    { rewrite Hr, elem_of_app, elem_of_cons. auto. }
    destruct (find_item_elem b) as [it Hit]; [by apply Hrem|].
    rewrite Hit.
    assert (Hid : id it = b) by (by apply find_item_Some in Hit as [_ ?]).
    destruct (IH (selected ++ [it]) (set_delete remaining b)) as (out & Hout & Hids).
    + apply Forall_app. split; [done|]. constructor; [|done].
      unfold first_of_id. by rewrite Hid.
    + intros i Hi. apply set_delete_elem in Hi as [Hi _]. by apply Hrem.
    + exists out. split; [done|]. rewrite Hids, map_app. simpl. by rewrite Hid.
Qed.

(** Below the shortcut, [mmr] returns what [picks] returns for the MMR
    score. *)
Lemma mmr_picks (k : Z) :
  dims_ok -> 0 < k < Z.of_nat (length items) ->
  mmr items queryVec lambda k
  = Ok (Greedy.picks mmr_score (length (to_set (map id items))) k []
          (to_set (map id items))).
Proof.
  intros Hd Hk. unfold mmr.
  destruct items as [|it0 its] eqn:Eit; [simpl in Hk; lia|]. rewrite <- Eit in *.
  destruct (Z.leb_spec k 0); [lia|].
  destruct (Z.leb_spec (Z.of_nat (length items)) k); [lia|].
  set (remaining := to_set (map id items)).
  destruct (select_loop_marginal (length remaining) k [] remaining Hd)
    as (out & -> & Hids).
  { constructor. }
  { intros i Hi. apply to_set_elem. exact Hi. }
  simpl. by rewrite Hids.
Qed.

(** The ids [mmr] returns below the shortcut: distinct ids of the items,
    each the first of the best when it was taken. *)
Lemma mmr_first_best (k : Z) :
  dims_ok -> 0 < k < Z.of_nat (length items) ->
  exists out,
    mmr items queryVec lambda k = Ok out /\
    NoDup out /\
    (forall i, i ∈ out -> i ∈ map id items) /\
    first_best mmr_score (map id items) out /\
    (EmptyString ∉ map id items ->
     length out = Nat.min (Z.to_nat k) (length (to_set (map id items))) \/
     forall j, j ∈ map id items -> j ∉ out ->
               (PrimFloat.neg_infinity <? mmr_score out j)%float = false).
Proof.
  intros Hd Hk. rewrite (mmr_picks k Hd Hk). eexists. split; [done|].
  destruct (picks_first_best mmr_score (length (to_set (map id items))) k
              (map id items)) as (H1 & H2 & H3).
  split; [done|]. split; [done|]. split; [done|].
  intros Hne.
  destruct (picks_length mmr_score (length (to_set (map id items))) k []
              (to_set (map id items))) as [Hl | Hstop].
  - apply to_set_NoDup.
  - by rewrite to_set_elem.
  - done.
  - left. rewrite Hl. simpl. f_equal. lia.
  - right. intros j Hj. apply Hstop. by apply to_set_elem.
Qed.







End Rerank.

(** *** selector.js *)
Section Select.
Import Selector.
Variable config : MMRConfig.
Variable queryEmbedding : list float.
Variable candidates : list MMRItem.
Variable embeddings : gmap string (list float).

(** Every stored embedding has the dimension of the query embedding. *)
Definition embeddings_ok : Prop :=
  forall i v, embeddings !! i = Some v -> length v = length queryEmbedding.


(** What the first loop of [select] leaves in [scores]. *)
Definition relevances (scores : gmap string float) : Prop :=
  forall i, i ∈ map id candidates ->
    match embeddings !! i with
    | Some v => scores !! i = Some (cos queryEmbedding v)
    | None => scores !! i = None
    end.

(** The relevance the scan reads for an id: 0 without an embedding, and 0
    for a relevance that is [NaN]. *)
Definition sel_rel (i : string) : float :=
  match embeddings !! i with
  | Some v => or_zero (cos queryEmbedding v)
  | None => 0%float
  end.

(** The largest similarity of an id to the ids picked before that have an
    embedding, and 0 if none is positive or the id has no embedding. *)
Definition sel_similarity_to (pre : list string) (j : string) : float :=
  match embeddings !! j with
  | Some v =>
      foldl (fun m p => match embeddings !! p with
                        | Some w => Math_max m (cos v w)
                        | None => m
                        end) 0%float pre
  | None => 0%float
  end.

Definition sel_score (pre : list string) (j : string) : float :=
  (lambda config * sel_rel j - (1 - lambda config) * sel_similarity_to pre j)%float.

(** A candidate that [candidates.find] returns for its own id. *)
Definition first_candidate (c : MMRItem) : Prop :=
  find_candidate candidates (id c) = Some c.

Lemma initial_scores_ok (cs : list MMRItem) (scores : gmap string float) :
  embeddings_ok ->
  exists scores',
    initial_scores queryEmbedding cs embeddings scores = Ok scores' /\
    forall i,
      match embeddings !! i with
      | Some v => i ∈ map id cs -> scores' !! i = Some (cos queryEmbedding v)
      | None => scores' !! i = scores !! i
      end /\
      (i ∉ map id cs -> scores' !! i = scores !! i).
Proof.
  intros Hd. revert scores. induction cs as [|c cs IH]; intros scores; simpl.
  - exists scores. split; [done|]. intros i. split; [|done].
    destruct (embeddings !! i); [|done]. intros H. inversion H.
  - destruct (embeddings !! id c) as [e|] eqn:Ee.
    + unfold MMR.calculateRelevance at 1. rewrite cos_ok.
      2:{ symmetry. by eapply Hd. }
      simpl.
      destruct (IH (<[id c := cos queryEmbedding e]> scores)) as (scores' & -> & Hs).
      exists scores'. split; [done|]. intros i. destruct (Hs i) as [H1 H2].
      split.
      * destruct (embeddings !! i) as [v|] eqn:Ev.
        -- intros Hi. destruct (decide (i ∈ map id cs)) as [Hin | Hnin]; [by apply H1|].
           apply elem_of_cons in Hi as [-> | Hi]; [|done].
           rewrite Ee in Ev. injection Ev as <-.
           rewrite (H2 Hnin). apply lookup_insert_eq.
        -- rewrite H1. apply lookup_insert_ne. intros <-. congruence.
      * intros Hi. rewrite not_elem_of_cons in Hi. destruct Hi as [Hne Hi].
        rewrite (H2 Hi). by apply lookup_insert_ne.
    + destruct (IH scores) as (scores' & -> & Hs).
      exists scores'. split; [done|]. intros i. destruct (Hs i) as [H1 H2].
      split.
      * destruct (embeddings !! i) as [v|] eqn:Ev; [|done].
        intros Hi. apply H1. apply elem_of_cons in Hi as [Hi | Hi]; [|done].
        subst i. rewrite Ee in Ev. discriminate.
      * intros Hi. rewrite not_elem_of_cons in Hi. apply H2. tauto.
Qed.

Lemma relevances_score_of (scores : gmap string float) (i : string) :
  relevances scores -> i ∈ map id candidates -> score_of scores i = sel_rel i.
Proof.
  intros Hrel Hi. specialize (Hrel i Hi). unfold score_of, sel_rel.
  destruct (embeddings !! i); by rewrite Hrel.
Qed.

Lemma sel_max_similarity_fold (v : list float) (selected : list MMRItem) (m : float) :
  embeddings_ok -> length v = length queryEmbedding ->
  max_similarity v selected embeddings m =
  Ok (foldl (fun m p => match embeddings !! p with
                        | Some w => Math_max m (cos v w)
                        | None => m
                        end) m (map id selected)).
Proof.
  intros Hd Hv. revert m. induction selected as [|s sel IH]; intros m; simpl; [done|].
  destruct (embeddings !! id s) as [e|] eqn:Ee; [|apply IH].
  rewrite cos_ok; [simpl; apply IH|]. rewrite Hv. symmetry. by eapply Hd.
Qed.

Lemma sel_calculateDiversity_eq (i : string) (selected : list MMRItem) :
  embeddings_ok ->
  calculateDiversity i selected embeddings
    = Ok (sel_similarity_to (map id selected) i).
Proof.
  intros Hd. unfold calculateDiversity, sel_similarity_to.
  destruct selected as [|s0 sel] eqn:Es.
  - simpl. by destruct (embeddings !! i).
  - rewrite <- Es. clear Es. destruct (embeddings !! i) as [e|] eqn:Ee; [|done].
    apply sel_max_similarity_fold; [done|]. by eapply Hd.
Qed.

Lemma sel_scan_marginal (scores : gmap string float) (selected : list MMRItem)
    (remaining : list string) (bestId : string) (bestScore : float) :
  embeddings_ok ->
  (forall i, i ∈ remaining -> score_of scores i = sel_rel i) ->
  scan config scores embeddings selected remaining bestId bestScore
    = Ok (Greedy.scan (sel_score (map id selected)) remaining bestId bestScore).
Proof.
  intros Hd. revert bestId bestScore.
  induction remaining as [|i rest IH]; intros bestId bestScore Hrel; simpl; [done|].
  assert (Hrest : forall j, j ∈ rest -> score_of scores j = sel_rel j)
    by (intros j Hj; by apply Hrel, list_elem_of_further).
  rewrite (sel_calculateDiversity_eq i selected Hd). simpl.
  assert (Hscore : sel_score (map id selected) i =
                   (lambda config * score_of scores i
                    - (1 - lambda config) * sel_similarity_to (map id selected) i)%float).
  { unfold sel_score. by rewrite (Hrel i (list_elem_of_here _ _)). }
  rewrite Hscore.
  destruct (_ <? _)%float; by apply IH.
Qed.

Lemma find_candidate_elem (i : string) :
  i ∈ map id candidates ->
  exists c, find_candidate candidates i = Some c /\ id c = i.
Proof.
  intros H. apply list_elem_of_fmap in H as (c & -> & Hc).
  destruct (find_candidate candidates (id c)) as [x|] eqn:E.
  - exists x. split; [done|]. unfold find_candidate in E.
    apply find_some in E as [_ E]. by apply String.eqb_eq.
  - unfold find_candidate in E. apply list_elem_of_In in Hc.
    pose proof (find_none _ _ E _ Hc) as Hn. simpl in Hn.
    by rewrite String.eqb_refl in Hn.
Qed.

Lemma sel_loop_marginal (fuel : nat) (scores : gmap string float)
    (selected : list MMRItem) (remaining : list string) :
  embeddings_ok ->
  (forall i, i ∈ remaining -> i ∈ map id candidates) ->
  (forall i, i ∈ remaining -> score_of scores i = sel_rel i) ->
  Forall first_candidate selected ->
  exists out,
    select_loop config fuel candidates scores embeddings selected remaining = Ok out /\
    Forall first_candidate out /\
    map id out
    = Greedy.picks sel_score fuel (maxResults config) (map id selected) remaining.
Proof.
  intros Hd. revert selected remaining.
  induction fuel as [|fuel IH]; intros selected remaining Hrem Hrel Hs; simpl.
  - by exists selected.
  - rewrite length_map.
    destruct ((Z.of_nat (length selected) <? maxResults config)
              && (0 <? length remaining)%nat); [|by exists selected].
    rewrite (sel_scan_marginal scores selected remaining EmptyString _ Hd Hrel). simpl.
    destruct (scan_first (sel_score (map id selected)) remaining EmptyString
                PrimFloat.neg_infinity) as [[-> _] | (l1 & l2 & Hr & _)].
    { rewrite origin_guard. by exists selected. }
    destruct (Greedy.scan _ remaining EmptyString _) as [b s']. simpl in Hr.
    destruct (negb (b =? "")%string && (PrimFloat.neg_infinity <? s')%float);
      [|by exists selected].
    assert (Hb : b ∈ remaining).
    { rewrite Hr, elem_of_app, elem_of_cons. auto. }
    destruct (find_candidate_elem b) as (c & Hc & Hid); [by apply Hrem|].
    rewrite Hc.
    destruct (IH (selected ++ [c]) (MMR.set_delete remaining b))
      as (out & Hout & Hfirst & Hids).
    + intros i Hi. apply set_delete_elem in Hi as [Hi _]. by apply Hrem.
    + intros i Hi. apply set_delete_elem in Hi as [Hi _]. by apply Hrel.
    + apply Forall_app. split; [done|]. constructor; [|done].
      unfold first_candidate. by rewrite Hid.
    + exists out. split; [done|]. split; [done|].
      rewrite Hids, map_app. simpl. by rewrite Hid.
Qed.

(** [select] returns the candidates of the ids that [picks] returns for the
    selector's score, and the relevances beside them. *)
Lemma select_picks :
  embeddings_ok ->
  exists selected scores,
    select config queryEmbedding candidates embeddings = Ok (selected, scores) /\
    relevances scores /\
    Forall first_candidate selected /\
    map id selected
    = Greedy.picks sel_score (length (MMR.to_set (map id candidates)))
        (maxResults config) [] (MMR.to_set (map id candidates)).
Proof.
  intros Hd. unfold select.
  destruct candidates as [|c0 cs] eqn:Ec.
  - exists [], ∅. split; [done|].
    split; [intros i Hi; rewrite Ec in Hi; by apply not_elem_of_nil in Hi|].
    split; [constructor|done].
  - rewrite <- Ec in *.
    destruct (initial_scores_ok candidates ∅ Hd) as (scores & -> & Hsc). simpl.
    assert (Hrel : relevances scores).
    { intros i Hi. destruct (Hsc i) as [H1 _].
      destruct (embeddings !! i); [by apply H1|]. by rewrite H1. }
    set (remaining := MMR.to_set (map id candidates)).
    destruct (sel_loop_marginal (length remaining) scores [] remaining Hd)
      as (out & -> & Hfirst & Hids).
    { intros i Hi. apply to_set_elem. exact Hi. }
    { intros i Hi. apply relevances_score_of; [done|]. by apply to_set_elem. }
    { constructor. }
    simpl in *. by exists out, scores.
Qed.

(** The items [select] returns: candidates, each the first with its id, no
    id twice, each the first of the best when it was taken. *)
Lemma select_first_best :
  embeddings_ok ->
  exists selected scores,
    select config queryEmbedding candidates embeddings = Ok (selected, scores) /\
    relevances scores /\
    Forall first_candidate selected /\
    NoDup (map id selected) /\
    (forall i, i ∈ map id selected -> i ∈ map id candidates) /\
    first_best sel_score (map id candidates) (map id selected) /\
    (EmptyString ∉ map id candidates ->
     length selected =
       Nat.min (Z.to_nat (maxResults config))
               (length (MMR.to_set (map id candidates))) \/
     forall j, j ∈ map id candidates -> j ∉ map id selected ->
               (PrimFloat.neg_infinity <? sel_score (map id selected) j)%float = false).
Proof.
  intros Hd.
  destruct (select_picks Hd) as (selected & scores & Hsel & Hrel & Hfirst & Hids).
  exists selected, scores. split; [done|]. split; [done|]. split; [done|].
  rewrite Hids.
  destruct (picks_first_best sel_score (length (MMR.to_set (map id candidates)))
              (maxResults config) (map id candidates)) as (H1 & H2 & H3).
  split; [done|]. split; [done|]. split; [done|].
  intros Hne. rewrite <- (length_map id selected), Hids.
  destruct (picks_length sel_score (length (MMR.to_set (map id candidates)))
              (maxResults config) [] (MMR.to_set (map id candidates)))
    as [Hl | Hstop].
  - apply to_set_NoDup.
  - by rewrite to_set_elem.
  - done.
  - left. rewrite Hl. simpl. f_equal. lia.
  - right. intros j Hj. apply Hstop. by apply to_set_elem.
Qed.






End Select.

(** *** The fuel of the two loops is enough, whatever the vectors *)
Lemma mmr_scan_origin (items : list MMR.MMRItem) (queryVec : list float)
    (lambda : float) (selected : list MMR.MMRItem) (remaining : list string)
    (bestId : string) (bestScore : float) (r : string * float) :
  MMR.scan items queryVec lambda selected remaining bestId bestScore = Ok r ->
  r = (bestId, bestScore) \/ r.1 ∈ remaining.
Proof.
  revert bestId bestScore.
  induction remaining as [|i rest IH]; intros bestId bestScore; simpl.
  - intros [= <-]. by left.
  - destruct (MMR.find_item items i) as [it|].
    + destruct (MMR.calculateRelevance queryVec (MMR.vec it)) as [rel0|]; simpl; [|done].
      destruct (MMR.calculateDiversity i selected items) as [d|]; simpl; [|done].
      destruct (_ <? _)%float; intros H; apply IH in H as [-> | H].
      * right. apply list_elem_of_here.
      * right. by apply list_elem_of_further.
      * by left.
      * right. by apply list_elem_of_further.
    + intros H. apply IH in H as [-> | H]; [by left|].
      right. by apply list_elem_of_further.
Qed.

(** A turn of the loop that goes on takes an id out of [remaining]: with as
    much fuel as there are ids, more fuel changes nothing. *)
Lemma mmr_select_loop_fuel (fuel : nat) (items : list MMR.MMRItem)
    (queryVec : list float) (lambda : float) (k : Z)
    (selected : list MMR.MMRItem) (remaining : list string) :
  NoDup remaining -> (forall i, i ∈ remaining -> i ∈ map MMR.id items) ->
  (length remaining <= fuel)%nat ->
  MMR.select_loop (S fuel) items queryVec lambda k selected remaining
  = MMR.select_loop fuel items queryVec lambda k selected remaining.
Proof.
  revert selected remaining.
  induction fuel as [|fuel IH]; intros selected remaining Hnd Hsub Hlen.
  - destruct remaining; [|simpl in Hlen; lia]. simpl.
    by rewrite andb_false_r.
  - set (n := S fuel) at 1. cbn [MMR.select_loop].
    destruct ((Z.of_nat (length selected) <? k) && (0 <? length remaining)%nat); [|done].
    destruct (MMR.scan items queryVec lambda selected remaining "" _)
      as [[b s]|e] eqn:Es; simpl; [|done].
    destruct (negb (b =? "")%string && (PrimFloat.neg_infinity <? s)%float) eqn:Eg;
      [|done].
    apply mmr_scan_origin in Es as [[= -> ->] | Hin];
      [by rewrite origin_guard in Eg|]. simpl in Hin.
    destruct (find_item_elem items b (Hsub b Hin)) as [it ->].
    subst n. apply IH.
    + by apply set_delete_NoDup.
    + intros i Hi. apply set_delete_elem in Hi as [Hi _]. by apply Hsub.
    + pose proof (set_delete_length remaining b Hnd Hin). lia.
Qed.

Lemma sel_scan_origin (config : Selector.MMRConfig) (scores : gmap string float)
    (embeddings : gmap string (list float)) (selected : list Selector.MMRItem)
    (remaining : list string) (bestId : string) (bestScore : float)
    (r : string * float) :
  Selector.scan config scores embeddings selected remaining bestId bestScore = Ok r ->
  r = (bestId, bestScore) \/ r.1 ∈ remaining.
Proof.
  revert bestId bestScore.
  induction remaining as [|i rest IH]; intros bestId bestScore; simpl.
  - intros [= <-]. by left.
  - destruct (Selector.calculateDiversity i selected embeddings) as [d|]; simpl; [|done].
    destruct (_ <? _)%float; intros H; apply IH in H as [-> | H].
    + right. apply list_elem_of_here.
    + right. by apply list_elem_of_further.
    + by left.
    + right. by apply list_elem_of_further.
Qed.

Lemma sel_select_loop_fuel (fuel : nat) (config : Selector.MMRConfig)
    (candidates : list Selector.MMRItem) (scores : gmap string float)
    (embeddings : gmap string (list float)) (selected : list Selector.MMRItem)
    (remaining : list string) :
  NoDup remaining -> (forall i, i ∈ remaining -> i ∈ map Selector.id candidates) ->
  (length remaining <= fuel)%nat ->
  Selector.select_loop config (S fuel) candidates scores embeddings selected remaining
  = Selector.select_loop config fuel candidates scores embeddings selected remaining.
Proof.
  revert selected remaining.
  induction fuel as [|fuel IH]; intros selected remaining Hnd Hsub Hlen.
  - destruct remaining; [|simpl in Hlen; lia]. simpl.
    by rewrite andb_false_r.
  - set (n := S fuel) at 1. cbn [Selector.select_loop].
    destruct ((Z.of_nat (length selected) <? Selector.maxResults config)
              && (0 <? length remaining)%nat); [|done].
    destruct (Selector.scan config scores embeddings selected remaining "" _)
      as [[b s]|e] eqn:Es; simpl; [|done].
    destruct (negb (b =? "")%string && (PrimFloat.neg_infinity <? s)%float) eqn:Eg;
      [|done].
    apply sel_scan_origin in Es as [[= -> ->] | Hin];
      [by rewrite origin_guard in Eg|]. simpl in Hin.
    destruct (find_candidate_elem candidates b (Hsub b Hin)) as (c & -> & _).
    subst n. apply IH.
    + by apply set_delete_NoDup.
    + intros i Hi. apply set_delete_elem in Hi as [Hi _]. by apply Hsub.
    + pose proof (set_delete_length remaining b Hnd Hin). lia.
Qed.


(** The items of the repository's test of the re-ranker. *)
Definition ex_items : list MMR.MMRItem :=
  [ {| MMR.id := "item1"; MMR.vec := [1; 0; 0]%float; MMR.baseScore := 9 # 10 |};
    {| MMR.id := "item2"; MMR.vec := [0; 1; 0]%float; MMR.baseScore := 8 # 10 |};
    {| MMR.id := "item3"; MMR.vec := [0; 0; 1]%float; MMR.baseScore := 7 # 10 |};
    {| MMR.id := "item4"; MMR.vec := [0.9; 0.1; 0]%float; MMR.baseScore := 6 # 10 |} ].

Definition ex_query : list float := [1; 0; 0]%float.




End MMRFacts.
(** ** The confidence of the pipeline *)
Module PipelineFacts.
Import JS RAG.

Section WithConfig.
Variable generateEmbedding : str -> list float.
Variable config : RAGConfig.

(** The selector returns candidates it was given, untouched. *)
Lemma select_loop_Forall (P : Selector.MMRItem -> Prop) (cfg : Selector.MMRConfig)
    (fuel : nat) (candidates : list Selector.MMRItem) (scores : gmap string float)
    (embeddings : gmap string (list float)) (selected : list Selector.MMRItem)
    (remaining : list string) (out : list Selector.MMRItem) :
  Forall P candidates -> Forall P selected ->
  Selector.select_loop cfg fuel candidates scores embeddings selected remaining
    = Ok out ->
  Forall P out.
Proof.
  intros Hc. revert selected remaining.
  induction fuel as [|fuel IH]; intros selected remaining Hs; simpl.
  - by intros [= <-].
  - destruct ((Z.of_nat (length selected) <? Selector.maxResults cfg)
              && (0 <? length remaining)%nat); [|by intros [= <-]].
    destruct (Selector.scan cfg scores embeddings selected remaining "" _)
      as [[b s]|e]; simpl; [|done].
    destruct (negb (b =? "")%string && (PrimFloat.neg_infinity <? s)%float);
      [|by intros [= <-]].
    destruct (Selector.find_candidate candidates b) as [c|] eqn:E; [|by apply IH].
    apply IH. apply Forall_app. split; [done|]. constructor; [|done].
    unfold Selector.find_candidate in E. apply find_some in E as [E _].
    rewrite Forall_forall in Hc. by apply Hc, list_elem_of_In.
Qed.

Lemma select_Forall (P : Selector.MMRItem -> Prop) (cfg : Selector.MMRConfig)
    (q : list float) (candidates : list Selector.MMRItem)
    (embeddings : gmap string (list float))
    (r : list Selector.MMRItem * gmap string float) :
  Forall P candidates ->
  Selector.select cfg q candidates embeddings = Ok r -> Forall P r.1.
Proof.
  intros Hc. unfold Selector.select. destruct candidates as [|c0 cs] eqn:Ec.
  - by intros [= <-].
  - rewrite <- Ec in *.
    destruct (Selector.initial_scores q candidates embeddings ∅) as [scores|e];
      simpl; [|done].
    destruct (Selector.select_loop cfg _ candidates scores embeddings [] _)
      as [out|e] eqn:E; simpl; [|done].
    intros [= <-]. simpl. eapply select_loop_Forall; [exact Hc| |exact E]. constructor.
Qed.

Lemma sum_scores_zero (sources : list Selector.MMRItem) :
  Forall (fun s => Selector.score s = 0%Q) sources -> (sum_scores sources == 0)%Q.
Proof.
  unfold sum_scores. intros H.
  assert (G : forall acc, (acc == 0)%Q ->
            (foldl (fun sum s => (sum + Selector.score s)%Q) acc sources == 0)%Q).
  { induction H as [|s l Hs Hl IH]; intros acc Hacc; simpl; [done|].
    apply IH. rewrite Hs, Hacc. reflexivity. }
  by apply G.
Qed.

Lemma calculateConfidence_zero (sources : list Selector.MMRItem) :
  Forall (fun s => Selector.score s = 0%Q) sources ->
  (calculateConfidence config sources == 0)%Q.
Proof.
  intros H. unfold calculateConfidence. destruct sources as [|s0 l] eqn:E; [done|].
  rewrite <- E in *. rewrite (sum_scores_zero _ H).
  unfold Qdiv. rewrite !Qmult_0_l. reflexivity.
Qed.

(** Whatever the query and the candidates, the confidence of a result is 0:
    the selected items still carry the [score: 0] they were given, and the
    relevances stay in the map the selector returns beside them. *)
Lemma query_confidence_zero (q : RAGQuery) (candidates : list Candidate) (r : RAGResult) :
  query generateEmbedding config q candidates = Ok r ->
  (confidence r == 0)%Q.
Proof.
  unfold query.
  destruct (Selector.select _ _ _ _) as [sel|e] eqn:E; simpl; [|done].
  intros [= <-]. simpl. apply calculateConfidence_zero.
  eapply select_Forall; [|exact E].
  apply Forall_fmap, Forall_forall. by intros c _.
Qed.

End WithConfig.

(** The confidence in the words of the spec: the mean relevance of the
    selected items times [min(selectedCount / maxCitations, 1)]. *)
Definition mean (l : list Q) : Q :=
  (foldr Qplus 0 l / inject_Z (Z.of_nat (length l)))%Q.

Definition spec_confidence (relevances : list Q) (maxCitations : Z) : Q :=
  match relevances with
  | [] => 0%Q
  | _ => (mean relevances
          * Qmin (inject_Z (Z.of_nat (length relevances)) / inject_Z maxCitations) 1)%Q
  end.

(** The rational a finite number is. *)
Definition rational (x : float) : Q :=
  match Prim2SF x with
  | S754_finite s m e =>
      (inject_Z (if s then Z.neg m else Z.pos m) * Qpower 2 e)%Q
  | _ => 0%Q
  end.

Definition default_config : RAGConfig :=
  {| topK := 10; mmrLambda := 0.7; minScore := 3 # 10; maxCitations := 5 |}.

Definition ex_candidate : Candidate :=
  {| id := "chunk-1"; text := lit "Rotate nonces for AES-GCM";
     embedding := [1; 0]%float;
     metadata := {| Selector.tags := Some [lit "crypto"];
                    Selector.occurredAt := Some 1700000000000;
                    Selector.importance := Some (1 # 2) |} |}.

Definition ex_query : RAGQuery := {| question := lit "nonces"; filters := None |}.

Definition ex_embed (_ : str) : list float := [1; 0]%float.

(** C6, at an input where the code and the claim part: one candidate whose
    embedding is the query's.  The selector selects it and records relevance
    1 for it; the spec's confidence is then [1 * min(1/5, 1) = 1/5]; the
    pipeline answers 0. *)
Theorem confidence_ignores_relevance :
  exists r selected scores,
    query ex_embed default_config ex_query [ex_candidate] = Ok r /\
    Selector.select (selector_config default_config)
      (ex_embed (question ex_query)) [to_mmr ex_candidate]
      (embeddings_of [ex_candidate]) = Ok (selected, scores) /\
    map Selector.id selected = ["chunk-1"%string] /\
    Selector.score_of scores "chunk-1" = 1%float /\
    (rational (Selector.score_of scores "chunk-1") == 1)%Q /\
    (spec_confidence [rational (Selector.score_of scores "chunk-1")]
                     (maxCitations default_config)
       == 1 # 5)%Q /\
    (confidence r == 0)%Q.
Proof.
  destruct (query ex_embed default_config ex_query [ex_candidate])
    as [r|e] eqn:E; [|vm_compute in E; discriminate].
  destruct (Selector.select (selector_config default_config)
              (ex_embed (question ex_query)) [to_mmr ex_candidate]
              (embeddings_of [ex_candidate])) as [[selected scores]|e] eqn:Es;
    [|vm_compute in Es; discriminate].
  exists r, selected, scores. split; [done|]. split; [done|].
  vm_compute in Es. injection Es as <- <-.
  split; [reflexivity|]. split; [reflexivity|]. split; [reflexivity|].
  split; [reflexivity|].
  eapply query_confidence_zero. exact E.
Qed.

End PipelineFacts.

(** ** The crypto envelope *)
Module CryptoFacts.
Import JS Crypto.

(** *** Bit flips *)
Lemma flip_in_byte_neq (b : Byte.byte) (j : nat) :
  (j < 8)%nat -> flip_in_byte b j <> b.
Proof.
  intros Hj. unfold flip_in_byte.
  assert (Hm : (N.shiftl 1 (N.of_nat j) <> 0)%N).
  { rewrite N.shiftl_1_l. apply N.pow_nonzero. lia. }
  destruct (Byte.of_N _) as [x|] eqn:E.
  - intros ->. apply Byte.to_of_N in E. apply Hm.
    pose proof (f_equal (N.lxor (Byte.to_N b)) E) as E'.
    rewrite N.lxor_nilpotent, <- N.lxor_assoc, N.lxor_nilpotent, N.lxor_0_l in E'.
    done.
  - exfalso. revert E. destruct b;
      do 8 (destruct j as [|j]; [vm_compute; discriminate|]); lia.
Qed.

Lemma flip_bit_length (i : nat) (bs : bytes) : length (flip_bit i bs) = length bs.
Proof.
  revert i. induction bs as [|b r IH]; intros i; simpl; [done|].
  destruct (i <? 8)%nat; simpl; [done|]. by rewrite IH.
Qed.

Lemma flip_bit_neq (i : nat) (bs : bytes) :
  (i < 8 * length bs)%nat -> flip_bit i bs <> bs.
Proof.
  revert i. induction bs as [|b r IH]; intros i Hi; cbn [length] in Hi; [lia|].
  cbn [flip_bit]. destruct (Nat.ltb_spec i 8).
  - intros [= Hb]. by apply (flip_in_byte_neq b i).
  - intros [= Hr]. apply (IH (i - 8)%nat); [lia|done].
Qed.

Lemma flip_bit_app_l (i : nat) (a b : bytes) :
  (i < 8 * length a)%nat -> flip_bit i (a ++ b) = flip_bit i a ++ b.
Proof.
  revert i. induction a as [|x a IH]; intros i Hi; cbn [length] in Hi; [lia|].
  cbn [app flip_bit]. destruct (Nat.ltb_spec i 8); [done|].
  cbn [app]. f_equal. apply IH. lia.
Qed.

Lemma flip_bit_app_r (i : nat) (a b : bytes) :
  (8 * length a <= i)%nat -> flip_bit i (a ++ b) = a ++ flip_bit (i - 8 * length a) b.
Proof.
  revert i. induction a as [|x a IH]; intros i Hi; cbn [length] in *.
  - cbn [app]. f_equal. lia.
  - cbn [app flip_bit]. destruct (Nat.ltb_spec i 8); [lia|]. f_equal.
    rewrite IH; [|lia]. f_equal. f_equal. lia.
Qed.

(** *** The small instance keeps the contract *)
Lemma toy_decrypt_encrypt (key iv p c : bytes) :
  toy_encrypt key iv p = Some c -> toy_decrypt key iv c = Some p.
Proof.
  intros [= <-]. unfold toy_decrypt.
  assert (Hn : (length (p ++ p) / 2 = length p)%nat).
  { rewrite length_app. replace (length p + length p)%nat with (length p * 2)%nat by lia.
    by rewrite Nat.div_mul. }
  rewrite Hn, take_app_length. by rewrite bool_decide_eq_true_2.
Qed.

Lemma toy_decrypt_tampered (key iv p c : bytes) (i : nat) :
  toy_encrypt key iv p = Some c -> (i < 8 * length c)%nat ->
  toy_decrypt key iv (flip_bit i c) = None.
Proof.
  intros [= <-] Hi. unfold toy_decrypt. rewrite flip_bit_length.
  assert (Hn : (length (p ++ p) / 2 = length p)%nat).
  { rewrite length_app. replace (length p + length p)%nat with (length p * 2)%nat by lia.
    by rewrite Nat.div_mul. }
  rewrite Hn. rewrite length_app in Hi.
  rewrite bool_decide_eq_false_2; [done|].
  destruct (Nat.lt_ge_cases i (8 * length p)) as [Hlt | Hge].
  - rewrite flip_bit_app_l by done.
    assert (Ht : take (length p) (flip_bit i p ++ p) = flip_bit i p).
    { rewrite <- (flip_bit_length i p). apply take_app_length. }
    rewrite Ht. intros Heq. apply app_inv_head in Heq. symmetry in Heq.
    by apply (flip_bit_neq i p).
  - rewrite flip_bit_app_r by done. rewrite take_app_length.
    intros Heq. apply app_inv_head in Heq.
    apply (flip_bit_neq (i - 8 * length p) p); [lia|done].
Qed.

#[local] Program Instance toy_aes_gcm : AesGcm := {|
  CryptoKey := bytes;
  subtle_importKey := toy_importKey;
  subtle_encrypt := toy_encrypt;
  subtle_decrypt := toy_decrypt
|}.
Next Obligation.
  intros k Hk. unfold toy_importKey. rewrite Hk. by eexists.
Qed.
Next Obligation. intros. by eexists. Qed.
Next Obligation. apply toy_decrypt_encrypt. Qed.
Next Obligation. apply toy_decrypt_tampered. Qed.

Section Envelope.
Context `{AesGcm}.

Lemma importKey_Ok (keyMaterial : bytes) (key : CryptoKey) :
  importKey keyMaterial = Ok key <-> subtle_importKey keyMaterial = Some key.
Proof.
  unfold importKey. destruct (subtle_importKey keyMaterial); split; congruence.
Qed.

(** What a successful [wrapDEK] tells: the key was importable and the wrapped
    bytes are the encryption of the DEK under the nonce handed back. *)
Lemma wrapDEK_Ok (kekKey dekPlain nonce : bytes) (w : WrapResult) :
  wrapDEK kekKey dekPlain nonce = Ok w ->
  length dekPlain = 32%nat /\ wrap_nonce w = nonce /\
  exists key, subtle_importKey kekKey = Some key /\
              subtle_encrypt key nonce dekPlain = Some (wrappedDEK w).
Proof.
  unfold wrapDEK. destruct (Nat.eqb_spec (length dekPlain) 32); simpl; [|done].
  unfold importKey. destruct (subtle_importKey kekKey) as [key|]; simpl; [|done].
  destruct (subtle_encrypt key nonce dekPlain) as [c|] eqn:E; [|done].
  intros [= <-]. simpl. eauto.
Qed.

Lemma seal_Ok (dek plaintext nonce0 : bytes) (blob : EncryptResult) :
  seal dek plaintext nonce0 = Ok blob ->
  nonce blob = nonce0 /\
  exists key, subtle_importKey dek = Some key /\
              subtle_encrypt key nonce0 plaintext = Some (cipher blob).
Proof.
  unfold seal, importKey. destruct (subtle_importKey dek) as [key|]; simpl; [|done].
  destruct (subtle_encrypt key nonce0 plaintext) as [c|] eqn:E; [|done].
  intros [= <-]. simpl. eauto.
Qed.

(** C1: unwrapping what [wrapDEK] returned, under the same KEK and with the
    nonce it returned, gives the DEK back; and for a 32-byte KEK, a 32-byte
    DEK and a 12-byte nonce [wrapDEK] does return. *)
Theorem unwrap_wrap (kekKey dekPlain nonce : bytes) :
  (forall w, wrapDEK kekKey dekPlain nonce = Ok w ->
             unwrapDEK kekKey (wrappedDEK w) (wrap_nonce w) = Ok dekPlain) /\
  (length kekKey = 32%nat -> length dekPlain = 32%nat -> length nonce = 12%nat ->
   exists w, wrapDEK kekKey dekPlain nonce = Ok w).
Proof.
  split.
  - intros w Hw. apply wrapDEK_Ok in Hw as (_ & -> & key & Hk & He).
    unfold unwrapDEK, importKey. rewrite Hk. simpl.
    by rewrite (decrypt_encrypt _ _ _ _ He).
  - intros Hk Hd Hn. unfold wrapDEK, importKey. rewrite Hd. simpl.
    destruct (importKey_256 kekKey Hk) as [key ->]. simpl.
    destruct (encrypt_96 key nonce dekPlain Hn) as [c ->]. eauto.
Qed.

(** C2: with one bit of the wrapped DEK flipped, [unwrapDEK] throws its
    "DEK unwrapping failed" error; with one bit of a sealed ciphertext
    flipped, [open] throws its "Decryption failed" error.  Neither returns
    any bytes. *)
Theorem tampering_rejected (key0 plain nonce0 : bytes) (i : nat) :
  (forall w, wrapDEK key0 plain nonce0 = Ok w ->
             (i < 8 * length (wrappedDEK w))%nat ->
             unwrapDEK key0 (flip_bit i (wrappedDEK w)) (wrap_nonce w)
               = Throw DEKUnwrappingFailed) /\
  (forall blob, seal key0 plain nonce0 = Ok blob ->
                (i < 8 * length (cipher blob))%nat ->
                open key0 (flip_bit i (cipher blob)) (Crypto.nonce blob)
                  = Throw DecryptionFailed).
Proof.
  split.
  - intros w Hw Hi. apply wrapDEK_Ok in Hw as (_ & -> & key & Hk & He).
    unfold unwrapDEK, importKey. rewrite Hk. simpl.
    by rewrite (decrypt_tampered _ _ _ _ _ He Hi).
  - intros blob Hb Hi. apply seal_Ok in Hb as (-> & key & Hk & He).
    unfold open, importKey. rewrite Hk. simpl.
    by rewrite (decrypt_tampered _ _ _ _ _ He Hi).
Qed.

End Envelope.

Definition ex_key : bytes := repeat Byte.x2a 32.
Definition ex_dek : bytes := repeat Byte.x11 32.
Definition ex_nonce : bytes := repeat Byte.x07 12.
Definition ex_wrapped : WrapResult :=
  {| wrappedDEK := ex_dek ++ ex_dek; wrap_nonce := ex_nonce |}.

Lemma unwrap_wrap_witness :
  wrapDEK ex_key ex_dek ex_nonce = Ok ex_wrapped /\
  unwrapDEK ex_key (wrappedDEK ex_wrapped) (wrap_nonce ex_wrapped) = Ok ex_dek.
Proof.
  assert (Hw : wrapDEK ex_key ex_dek ex_nonce = Ok ex_wrapped) by reflexivity.
  split; [exact Hw|].
  exact (proj1 (unwrap_wrap ex_key ex_dek ex_nonce) ex_wrapped Hw).
Defined.

Lemma tampering_rejected_witness :
  wrapDEK ex_key ex_dek ex_nonce = Ok ex_wrapped /\
  (0 < 8 * length (wrappedDEK ex_wrapped))%nat /\
  unwrapDEK ex_key (flip_bit 0 (wrappedDEK ex_wrapped)) (wrap_nonce ex_wrapped)
    = Throw DEKUnwrappingFailed.
Proof.
  assert (Hw : wrapDEK ex_key ex_dek ex_nonce = Ok ex_wrapped) by reflexivity.
  assert (Hi : (0 < 8 * length (wrappedDEK ex_wrapped))%nat) by (simpl; lia).
  split; [exact Hw|]. split; [exact Hi|].
  exact (proj1 (tampering_rejected ex_key ex_dek ex_nonce 0) ex_wrapped Hw Hi).
Defined.

(** *** Passphrase verification *)
Lemma byte_to_N_inj (a b : Byte.byte) : Byte.to_N a = Byte.to_N b -> a = b.
Proof.
  intros Hab. pose proof (Byte.of_to_N a) as Ha. pose proof (Byte.of_to_N b) as Hb.
  rewrite Hab in Ha. congruence.
Qed.

Lemma accumulate_zero (l : list (Byte.byte * Byte.byte)) (acc : N) :
  foldl (fun acc xy => N.lor acc (N.lxor (Byte.to_N xy.1) (Byte.to_N xy.2))) acc l = 0%N
  <-> acc = 0%N /\ Forall (fun xy => xy.1 = xy.2) l.
Proof.
  revert acc. induction l as [|[x y] l IH]; intros acc; simpl.
  - split; [by intros ->|by intros [-> _]].
  - rewrite IH, N.lor_eq_0_iff, N.lxor_eq_0_iff, Forall_cons. simpl. split.
    + intros [[-> Hxy] Hl]. apply byte_to_N_inj in Hxy. done.
    + intros [-> [-> Hl]]. done.
Qed.

(** The reading-every-byte comparison decides equality of arrays of the same
    length. *)
Lemma constant_time_eq_spec (a b : bytes) :
  length a = length b -> constant_time_eq a b = bool_decide (a = b).
Proof.
  intros Hlen. unfold constant_time_eq.
  destruct (bool_decide_reflect (a = b)) as [-> | Hne].
  - apply N.eqb_eq, accumulate_zero. split; [done|].
    clear Hlen. induction b as [|x b IH]; simpl; [constructor|]. by constructor.
  - apply N.eqb_neq. rewrite accumulate_zero. intros [_ Hall]. apply Hne.
    clear Hne. revert b Hlen Hall. induction a as [|x a IH]; intros [|y b] Hlen Hall;
      simpl in *; try done.
    inversion Hall; subst. simpl in *. f_equal; [done|]. apply IH; [lia|done].
Qed.

(** A runtime provides [timingSafeEqual] when the method is there and
    decides equality of arrays of the same length. *)
Definition provides_timingSafeEqual (P : KdfPlatform) : Prop :=
  exists equal, timingSafeEqual P = Some equal /\
    forall a b, length a = length b -> equal a b = bool_decide (a = b).

(** Were the method there, [verifyPassphrase] would return [true] exactly
    when the key derived from the passphrase and the salt is the expected
    key. *)
Lemma verifyPassphrase_with_method (P : KdfPlatform) (passphrase : str)
    (kdfSalt expectedKey : bytes) :
  provides_timingSafeEqual P ->
  verifyPassphrase P passphrase kdfSalt expectedKey
    = bool_decide (derived_key P passphrase kdfSalt = Some expectedKey).
Proof.
  intros (equal & He & Hspec). unfold verifyPassphrase, derived_key.
  destruct (importKey_pbkdf2 P (encode P passphrase)) as [km|]; cbn [mbind option_bind];
    [|symmetry; by apply bool_decide_eq_false_2].
  destruct (deriveBits_pbkdf2_sha256 P km kdfSalt 100000 256) as [d|];
    [|symmetry; by apply bool_decide_eq_false_2].
  rewrite He. destruct (Nat.eqb_spec (length d) (length expectedKey)) as [Hl | Hl];
    cbn [negb].
  - rewrite (Hspec _ _ Hl). apply bool_decide_ext. split; congruence.
  - symmetry. apply bool_decide_eq_false_2. intros [= ->]. done.
Qed.

(** Where the runtime has no such method, the call throws, the [catch]
    answers, and every passphrase is refused. *)
Lemma verifyPassphrase_without_method (P : KdfPlatform) (passphrase : str)
    (kdfSalt expectedKey : bytes) :
  timingSafeEqual P = None ->
  verifyPassphrase P passphrase kdfSalt expectedKey = false.
Proof.
  intros Hn. unfold verifyPassphrase. rewrite Hn.
  destruct (importKey_pbkdf2 P _); [|done].
  destruct (deriveBits_pbkdf2_sha256 P _ _ _ _); [|done].
  by destruct (negb _).
Qed.

(** C9: [crypto.subtle] as the WebCrypto standard has it offers no
    [timingSafeEqual].  On such a runtime [verifyPassphrase] returns [false]
    for every passphrase, salt and expected key: the call throws into the
    [catch].  It does so for the key derived from that very passphrase and
    salt, where the claim asks for [true]. *)
Theorem verifyPassphrase_refuses_derived_key (P : KdfPlatform) (passphrase : str)
    (kdfSalt expectedKey : bytes) :
  timingSafeEqual P = None ->
  verifyPassphrase P passphrase kdfSalt expectedKey = false /\
  (derived_key P passphrase kdfSalt = Some expectedKey ->
   verifyPassphrase P passphrase kdfSalt expectedKey
   <> bool_decide (derived_key P passphrase kdfSalt = Some expectedKey)).
Proof.
  intros Hn. rewrite (verifyPassphrase_without_method P _ _ _ Hn).
  split; [done|]. intros Hd. by rewrite bool_decide_eq_true_2.
Qed.

(** A runtime to run the code on: [crypto.subtle] without [timingSafeEqual];
    the "derivation" pads passphrase and salt to 32 bytes. *)
Definition webcrypto_platform : KdfPlatform :=
  {| KeyMaterial := bytes;
     encode := map byte_of_ascii;
     importKey_pbkdf2 := Some;
     deriveBits_pbkdf2_sha256 := fun km salt _ bits =>
       Some (take (Z.to_nat (bits / 8)) (km ++ salt ++ repeat Byte.x00 32));
     timingSafeEqual := None |}.

(** The passphrase and salt of the repository's test 'verifies correct
    passphrase', and the key derived from them. *)
Definition ex_passphrase : str := lit "test-passphrase-123".
Definition ex_salt : bytes := repeat Byte.x42 32.
Definition ex_derived : bytes := map byte_of_ascii ex_passphrase ++ repeat Byte.x42 13.

Lemma verifyPassphrase_refuses_derived_key_witness :
  timingSafeEqual webcrypto_platform = None /\
  derived_key webcrypto_platform ex_passphrase ex_salt = Some ex_derived /\
  verifyPassphrase webcrypto_platform ex_passphrase ex_salt ex_derived = false.
Proof.
  assert (Hn : timingSafeEqual webcrypto_platform = None) by reflexivity.
  split; [exact Hn|]. split; [reflexivity|].
  exact (proj1 (verifyPassphrase_refuses_derived_key webcrypto_platform
                  ex_passphrase ex_salt ex_derived Hn)).
Defined.

End CryptoFacts.

(** ** The embedding worker's queue *)
Module WorkerFacts.
Import JS Worker.

Section Lifecycle.
Variable EmbeddingResult : Type.
Variable processJob : EmbeddingJob -> option EmbeddingResult.
Variable latency : list EmbeddingJob -> Z.
Variable config : WorkerConfig.

Hypothesis batch_pos : 1 <= batchSize config.
Hypothesis delay_nonneg : 0 <= retryDelay config.
Hypothesis latency_nonneg : forall batch, 0 <= latency batch.

(** The job as [addJob] enters it, after [r] failures. *)
Definition attempt (job : EmbeddingJob) (jobId : string) (r : Z) : EmbeddingJob :=
  {| id := jobId; entryId := entryId job; content := content job;
     occurredAt := occurredAt job; priority := priority job; retries := r |}.

(** The clock when the attempt numbered [r + k] settles, the attempt
    numbered [r] settling at [t]: each failure in between waits
    [retryDelay * 2 ^ (retries - 1)] and then for the next attempt. *)
Fixpoint settles_at (job : EmbeddingJob) (jobId : string) (k : nat) (r t : Z) : Z :=
  match k with
  | O => t
  | S k' =>
      settles_at job jobId k' (r + 1)
        (t + retryDelay config * 2 ^ (r + 1 - 1) + latency [attempt job jobId (r + 1)])
  end.

(** The worker while the lone attempt numbered [r] is in flight. *)
Definition in_flight (job : EmbeddingJob) (jobId : string) (r t n0 : Z)
    (log : list (Event EmbeddingResult)) : Worker EmbeddingResult :=
  {| queue := []; isProcessing := true;
     agenda := [(t, Settled [attempt job jobId r])];
     now := n0; emitted := log |}.

Definition at_rest (t : Z) (log : list (Event EmbeddingResult))
    : Worker EmbeddingResult :=
  {| queue := []; isProcessing := false; agenda := []; now := t; emitted := log |}.

Lemma bump_attempt (job : EmbeddingJob) (jobId : string) (r : Z) :
  bump (attempt job jobId r) = attempt job jobId (r + 1).
Proof. reflexivity. Qed.

Lemma take_batch_one (j : EmbeddingJob) :
  take (Z.to_nat (batchSize config)) [j] = [j] /\
  drop (Z.to_nat (batchSize config)) [j] = [].
Proof using batch_pos.
  destruct (Z.to_nat (batchSize config)) as [|n] eqn:E; [lia|].
  simpl. by rewrite take_nil, drop_nil.
Qed.

(** A failure below the limit: two turns of the loop later the next attempt
    is in flight, after the back-off delay. *)
Lemma retry_turns (job : EmbeddingJob) (jobId : string) (r t n0 : Z)
    (log : list (Event EmbeddingResult)) (n : nat) :
  0 <= r -> n0 <= t ->
  processJob (attempt job jobId r) = None ->
  r + 1 < maxRetries config ->
  run EmbeddingResult processJob latency config (S (S n)) (in_flight job jobId r t n0 log)
  = run EmbeddingResult processJob latency config n
      (in_flight job jobId (r + 1)
         (t + retryDelay config * 2 ^ (r + 1 - 1) + latency [attempt job jobId (r + 1)])
         (t + retryDelay config * 2 ^ (r + 1 - 1)) log).
Proof using batch_pos delay_nonneg.
  intros Hr Ht Hfail Hlt.
  assert (Hd : 0 <= retryDelay config * 2 ^ (r + 1 - 1)).
  { apply Z.mul_nonneg_nonneg; [done|]. apply Z.pow_nonneg. lia. }
  change (run EmbeddingResult processJob latency config (S (S n))
            (in_flight job jobId r t n0 log))
    with (run EmbeddingResult processJob latency config (S n)
            (settle EmbeddingResult processJob config [attempt job jobId r]
               {| queue := []; isProcessing := true; agenda := [];
                  now := Z.max n0 t; emitted := log |})).
  unfold settle, handle_results. rewrite Hfail.
  unfold handleJobFailure. rewrite bump_attempt.
  change (retries (attempt job jobId (r + 1))) with (r + 1).
  destruct (Z.ltb_spec (r + 1) (maxRetries config)); [|lia].
  unfold setTimeout. cbn [queue isProcessing agenda now emitted schedule].
  rewrite bool_decide_eq_true_2 by done.
  cbn [run turn agenda fire queue isProcessing now emitted app].
  unfold processQueue. cbn [isProcessing queue orb now agenda emitted].
  rewrite bool_decide_eq_false_2 by done.
  destruct (take_batch_one (attempt job jobId (r + 1))) as [-> ->].
  cbn [schedule]. unfold in_flight.
  replace (Z.max (Z.max n0 t) (Z.max n0 t + retryDelay config * 2 ^ (r + 1 - 1)))
    with (t + retryDelay config * 2 ^ (r + 1 - 1)) by lia.
  done.
Qed.

(** The attempt that succeeds: one turn and the worker is at rest, the
    success emitted. *)
Lemma success_turn (job : EmbeddingJob) (jobId : string) (r t n0 : Z)
    (log : list (Event EmbeddingResult)) (result : EmbeddingResult) (n : nat) :
  n0 <= t ->
  processJob (attempt job jobId r) = Some result ->
  run EmbeddingResult processJob latency config (S n) (in_flight job jobId r t n0 log)
  = at_rest t (log ++ [jobSuccess EmbeddingResult (attempt job jobId r) result]).
Proof.
  intros Ht Hok.
  change (run EmbeddingResult processJob latency config (S n)
            (in_flight job jobId r t n0 log))
    with (run EmbeddingResult processJob latency config n
            (settle EmbeddingResult processJob config [attempt job jobId r]
               {| queue := []; isProcessing := true; agenda := [];
                  now := Z.max n0 t; emitted := log |})).
  unfold settle, handle_results. rewrite Hok.
  unfold handleJobSuccess, emit. cbn [queue isProcessing agenda now emitted].
  rewrite bool_decide_eq_true_2 by done. unfold at_rest.
  replace (Z.max n0 t) with t by lia. by destruct n.
Qed.

(** The failure that exhausts the retries: one turn and the worker is at
    rest, the failure emitted, nothing scheduled. *)
Lemma last_failure_turn (job : EmbeddingJob) (jobId : string) (r t n0 : Z)
    (log : list (Event EmbeddingResult)) (n : nat) :
  n0 <= t ->
  processJob (attempt job jobId r) = None ->
  maxRetries config <= r + 1 ->
  run EmbeddingResult processJob latency config (S n) (in_flight job jobId r t n0 log)
  = at_rest t (log ++ [jobFailed EmbeddingResult (attempt job jobId (r + 1))]).
Proof.
  intros Ht Hfail Hmax.
  change (run EmbeddingResult processJob latency config (S n)
            (in_flight job jobId r t n0 log))
    with (run EmbeddingResult processJob latency config n
            (settle EmbeddingResult processJob config [attempt job jobId r]
               {| queue := []; isProcessing := true; agenda := [];
                  now := Z.max n0 t; emitted := log |})).
  unfold settle, handle_results. rewrite Hfail.
  unfold handleJobFailure. rewrite bump_attempt.
  change (retries (attempt job jobId (r + 1))) with (r + 1).
  destruct (Z.ltb_spec (r + 1) (maxRetries config)); [lia|].
  unfold emit. cbn [queue isProcessing agenda now emitted].
  rewrite bool_decide_eq_true_2 by done. unfold at_rest.
  replace (Z.max n0 t) with t by lia. by destruct n.
Qed.

Lemma settles_at_ge (job : EmbeddingJob) (jobId : string) (k : nat) (r t : Z) :
  0 <= r -> t <= settles_at job jobId k r t.
Proof using delay_nonneg latency_nonneg.
  revert r t. induction k as [|k IH]; intros r t Hr; simpl; [lia|].
  etrans; [|apply IH; lia].
  assert (0 <= retryDelay config * 2 ^ (r + 1 - 1)).
  { apply Z.mul_nonneg_nonneg; [done|]. apply Z.pow_nonneg. lia. }
  pose proof (latency_nonneg [attempt job jobId (r + 1)]). lia.
Qed.

(** [k] failures, all below the limit, then a success. *)
Lemma fails_then_succeeds (job : EmbeddingJob) (jobId : string) (k : nat)
    (r t n0 : Z) (log : list (Event EmbeddingResult)) (result : EmbeddingResult)
    (n : nat) :
  0 <= r -> n0 <= t ->
  (forall i, r <= i < r + Z.of_nat k -> processJob (attempt job jobId i) = None) ->
  processJob (attempt job jobId (r + Z.of_nat k)) = Some result ->
  r + Z.of_nat k < maxRetries config ->
  (2 * k + 1 <= n)%nat ->
  run EmbeddingResult processJob latency config n (in_flight job jobId r t n0 log)
  = at_rest (settles_at job jobId k r t)
      (log ++ [jobSuccess EmbeddingResult (attempt job jobId (r + Z.of_nat k)) result]).
Proof using batch_pos delay_nonneg latency_nonneg.
  revert r t n0 n. induction k as [|k IH]; intros r t n0 n Hr Ht Hfail Hok Hlt Hn.
  - rewrite Z.add_0_r in *. destruct n as [|n]; [lia|]. by apply success_turn.
  - destruct n as [|[|n]]; [lia|lia|].
    rewrite retry_turns; [|done|done|apply Hfail; lia|lia].
    replace (r + Z.of_nat (S k)) with (r + 1 + Z.of_nat k) in * by lia.
    cbn [settles_at]. apply IH; [lia| | |done|done|lia].
    + pose proof (latency_nonneg [attempt job jobId (r + 1)]). lia.
    + intros i Hi. apply Hfail. lia.
Qed.

(** [k + 1] failures, the last of which exhausts the retries. *)
Lemma fails_for_good (job : EmbeddingJob) (jobId : string) (k : nat)
    (r t n0 : Z) (log : list (Event EmbeddingResult)) (n : nat) :
  0 <= r -> n0 <= t ->
  (forall i, r <= i <= r + Z.of_nat k -> processJob (attempt job jobId i) = None) ->
  r + Z.of_nat k + 1 = maxRetries config ->
  (2 * k + 1 <= n)%nat ->
  run EmbeddingResult processJob latency config n (in_flight job jobId r t n0 log)
  = at_rest (settles_at job jobId k r t)
      (log ++ [jobFailed EmbeddingResult (attempt job jobId (maxRetries config))]).
Proof using batch_pos delay_nonneg latency_nonneg.
  revert r t n0 n. induction k as [|k IH]; intros r t n0 n Hr Ht Hfail Hmax Hn.
  - rewrite Z.add_0_r in *. destruct n as [|n]; [lia|].
    rewrite <- Hmax. apply last_failure_turn; [done|apply Hfail; lia|lia].
  - destruct n as [|[|n]]; [lia|lia|].
    rewrite retry_turns; [|done|done|apply Hfail; lia|lia].
    cbn [settles_at]. apply IH; [lia| | |lia|lia].
    + pose proof (latency_nonneg [attempt job jobId (r + 1)]). lia.
    + intros i Hi. apply Hfail. lia.
Qed.

(** A job added to a worker at rest goes in flight at once. *)
Lemma addJob_at_rest (job : EmbeddingJob) (jobId : string) (t : Z)
    (log : list (Event EmbeddingResult)) :
  addJob EmbeddingResult latency config job jobId (at_rest t log)
  = in_flight job jobId 0 (t + latency [attempt job jobId 0]) t log.
Proof using batch_pos.
  unfold addJob, at_rest. cbn [queue isProcessing agenda now emitted app sort_desc_by foldr insert_desc_by].
  unfold processQueue. cbn [queue isProcessing agenda now emitted orb].
  rewrite bool_decide_eq_false_2 by done.
  destruct (take_batch_one (attempt job jobId 0)) as [H1 H2].
  unfold attempt in *. rewrite H1, H2. reflexivity.
Qed.

(** With batches that all take [L], the waits add up to
    [retryDelay * (2 ^ k - 1)]. *)
Lemma settles_at_const (job : EmbeddingJob) (jobId : string) (L : Z) (k : nat) (r t : Z) :
  0 <= r -> (forall batch, latency batch = L) ->
  settles_at job jobId k r t
  = t + Z.of_nat k * L + retryDelay config * 2 ^ r * (2 ^ Z.of_nat k - 1).
Proof.
  intros Hr HL. revert r t Hr. induction k as [|k IH]; intros r t Hr; cbn [settles_at].
  - simpl. lia.
  - rewrite IH by lia. rewrite HL.
    replace (r + 1 - 1) with r by lia.
    replace (Z.of_nat (S k)) with (Z.of_nat k + 1) by lia.
    rewrite !Z.pow_add_r by lia. lia.
Qed.

End Lifecycle.
(** *** Any number of jobs: the queue drains and every job meets its fate *)
Section Drain.
Variable EmbeddingResult : Type.
Variable processJob : EmbeddingJob -> option EmbeddingResult.
Variable latency : list EmbeddingJob -> Z.
Variable config : WorkerConfig.
Hypothesis batch_pos : 1 <= batchSize config.

Local Abbreviation run := (run EmbeddingResult processJob latency config).
Local Abbreviation turn := (turn EmbeddingResult processJob latency config).
Local Abbreviation processQueue := (processQueue EmbeddingResult latency config).
Local Abbreviation handle_results := (handle_results EmbeddingResult processJob config).
Local Abbreviation settle := (settle EmbeddingResult processJob config).
Local Abbreviation outcome := (outcome EmbeddingResult processJob config).
Local Abbreviation jobs := (jobs EmbeddingResult).
Local Abbreviation well_formed := (well_formed EmbeddingResult).

Lemma schedule_perm (t : Z) (c : Callback) (ag : list (Z * Callback)) :
  schedule t c ag ≡ₚ (t, c) :: ag.
Proof.
  induction ag as [|[t' c'] ag IH]; simpl; [done|].
  destruct (t' <=? t); [|done]. rewrite IH. apply perm_swap.
Qed.

(** **** The loop stops *)

(** The attempts a job may still make, and what the worker still has to do,
    counted so that every turn of the loop lowers it. *)
Definition attempts_left (j : EmbeddingJob) : nat :=
  Nat.max 1 (Z.to_nat (maxRetries config - retries j)).

Definition cost (cb : Callback) : nat :=
  match cb with
  | Requeue j => (3 * attempts_left j + 3)%nat
  | Continue => 1%nat
  | Settled batch => (2 + sum_list_with (fun j => 3 * attempts_left j)%nat batch)%nat
  end.

Definition potential (w : Worker EmbeddingResult) : nat :=
  (sum_list_with (fun j => 3 * attempts_left j + 2)%nat (queue _ w)
   + sum_list_with (fun e => cost e.2) (agenda _ w))%nat.

Lemma sum_queue_cost (l : list EmbeddingJob) :
  sum_list_with (fun j => 3 * attempts_left j + 2)%nat l
  = (sum_list_with (fun j => 3 * attempts_left j)%nat l + 2 * length l)%nat.
Proof.
  induction l as [|j l IH]; cbn [sum_list_with length]; [done|]. rewrite IH. lia.
Qed.

Lemma potential_processQueue (w : Worker EmbeddingResult) :
  (potential (processQueue w) <= potential w)%nat.
Proof using batch_pos.
  unfold Worker.processQueue.
  destruct (isProcessing _ w || bool_decide (queue _ w = [])) eqn:E; [done|].
  apply orb_false_iff in E as [_ E]. apply bool_decide_eq_false in E.
  unfold potential. cbn [queue agenda].
  rewrite (schedule_perm _ _ (agenda _ w)). cbn [sum_list_with cost snd].
  set (n := Z.to_nat (batchSize config)).
  rewrite <- (take_drop n (queue _ w)) at 3.
  rewrite sum_list_with_app, (sum_queue_cost (take n (queue _ w))).
  assert (1 <= length (take n (queue _ w)))%nat.
  { rewrite length_take. destruct (queue _ w); [done|]. simpl. lia. }
  lia.
Qed.

Lemma handleJobFailure_potential (j : EmbeddingJob) (w : Worker EmbeddingResult) :
  (potential (handleJobFailure EmbeddingResult config j w)
   <= potential w + 3 * attempts_left j)%nat.
Proof.
  unfold handleJobFailure.
  destruct (Z.ltb_spec (retries (bump j)) (maxRetries config)) as [Hlt | Hge].
  - unfold potential, setTimeout. cbn [queue agenda].
    rewrite schedule_perm. cbn [sum_list_with cost snd].
    unfold attempts_left. simpl in *. lia.
  - unfold potential, emit. cbn [queue agenda]. lia.
Qed.

Lemma potential_handle_results (batch : list EmbeddingJob) (w : Worker EmbeddingResult) :
  (potential (handle_results batch w)
   <= potential w + sum_list_with (fun j => 3 * attempts_left j)%nat batch)%nat.
Proof.
  revert w. induction batch as [|j batch IH]; intros w;
    cbn [Worker.handle_results sum_list_with]; [lia|].
  etrans; [apply IH|].
  destruct (processJob j) as [r|].
  - unfold handleJobSuccess, emit, potential. cbn [queue agenda]. lia.
  - pose proof (handleJobFailure_potential j w). lia.
Qed.

Lemma potential_settle (batch : list EmbeddingJob) (w : Worker EmbeddingResult) :
  (potential (settle batch w)
   <= potential w + sum_list_with (fun j => 3 * attempts_left j)%nat batch + 1)%nat.
Proof.
  unfold Worker.settle. pose proof (potential_handle_results batch w) as H.
  set (w' := handle_results batch w) in *.
  cbn [queue]. destruct (bool_decide (queue _ w' = [])).
  - unfold potential in *. cbn [queue agenda]. lia.
  - unfold potential, setTimeout in *. cbn [queue agenda now].
    rewrite schedule_perm. cbn [sum_list_with cost snd]. lia.
Qed.

(** Every turn lowers the potential. *)
Lemma potential_turn (w w' : Worker EmbeddingResult) :
  turn w = Some w' -> (potential w' < potential w)%nat.
Proof using batch_pos.
  unfold Worker.turn. destruct (agenda _ w) as [|[due cb] rest] eqn:Eag; [done|].
  intros [= <-].
  assert (Hw : potential w
               = (sum_list_with (fun j => 3 * attempts_left j + 2)%nat (queue _ w)
                  + (cost cb + sum_list_with (fun e => cost e.2) rest))%nat).
  { unfold potential. by rewrite Eag. }
  destruct cb as [j| |batch]; cbn [fire].
  - eapply Nat.le_lt_trans; [apply potential_processQueue|].
    rewrite Hw. unfold potential. cbn [queue agenda cost].
    rewrite sum_list_with_app. simpl. lia.
  - eapply Nat.le_lt_trans; [apply potential_processQueue|].
    rewrite Hw. unfold potential. cbn [queue agenda cost]. lia.
  - eapply Nat.le_lt_trans; [apply potential_settle|].
    rewrite Hw. unfold potential. cbn [queue agenda cost]. lia.
Qed.

Lemma cost_pos (cb : Callback) : (1 <= cost cb)%nat.
Proof. destruct cb; simpl; lia. Qed.

(** After as many turns as the potential, nothing is left to fire. *)
Lemma run_empties_agenda (n : nat) (w : Worker EmbeddingResult) :
  (potential w <= n)%nat -> agenda _ (run n w) = [].
Proof using batch_pos.
  revert w. induction n as [|n IH]; intros w Hn.
  - simpl. destruct (agenda _ w) as [|[t cb] rest] eqn:E; [done|].
    unfold potential in Hn. rewrite E in Hn. simpl in Hn.
    pose proof (cost_pos cb). lia.
  - cbn [Worker.run]. destruct (turn w) as [w'|] eqn:E.
    + apply IH. apply potential_turn in E. lia.
    + unfold Worker.turn in E. by destruct (agenda _ w) as [|[??] ?].
Qed.

(** Once nothing is left to fire, further turns change nothing. *)
Lemma run_stable (n n' : nat) (w : Worker EmbeddingResult) :
  agenda _ (run n w) = [] -> (n <= n')%nat -> run n' w = run n w.
Proof.
  revert n' w. induction n as [|n IH]; intros n' w Hag Hn.
  - simpl in *. destruct n'; [done|]. cbn [Worker.run]. unfold Worker.turn. by rewrite Hag.
  - destruct n' as [|n']; [lia|]. cbn [Worker.run] in *.
    destruct (turn w) as [w'|]; [|done]. apply IH; [done|lia].
Qed.

(** **** The invariant *)
Lemma handle_results_queue (batch : list EmbeddingJob) (w : Worker EmbeddingResult) :
  queue _ (handle_results batch w) = queue _ w.
Proof.
  revert w. induction batch as [|j batch IH]; intros w; simpl; [done|].
  rewrite IH. destruct (processJob j); [done|].
  unfold handleJobFailure. by destruct (_ <? _).
Qed.

Lemma well_formed_processQueue (w : Worker EmbeddingResult) :
  (isProcessing _ w = true -> exists t batch, (t, Settled batch) ∈ agenda _ w) ->
  well_formed (processQueue w).
Proof.
  intros H. unfold Worker.processQueue.
  destruct (isProcessing _ w) eqn:Ep; simpl.
  - split; [intros _; by apply H|]. by rewrite Ep.
  - destruct (bool_decide_reflect (queue _ w = [])) as [Hq | Hq].
    + split; [by rewrite Ep|]. intros _ Hne. done.
    + split; cbn [isProcessing agenda]; [|done]. intros _.
      eexists _, _. rewrite schedule_perm. apply list_elem_of_here.
Qed.

Lemma well_formed_settle (batch : list EmbeddingJob) (w : Worker EmbeddingResult) :
  well_formed (settle batch w).
Proof.
  unfold Worker.settle. cbn [queue].
  destruct (bool_decide_reflect (queue _ (handle_results batch w) = [])) as [Hq | Hq].
  - split; cbn [isProcessing queue]; [done|]. intros _ Hne. done.
  - split; cbn [setTimeout isProcessing queue agenda now]; [done|]. intros _ _.
    eexists. rewrite schedule_perm. apply list_elem_of_here.
Qed.

Lemma well_formed_turn (w w' : Worker EmbeddingResult) :
  well_formed w -> turn w = Some w' -> well_formed w'.
Proof.
  intros [H1 H2]. unfold Worker.turn.
  destruct (agenda _ w) as [|[due cb] rest] eqn:Eag; [done|]. intros [= <-].
  destruct cb as [j| |batch]; cbn [fire].
  - apply well_formed_processQueue. cbn [isProcessing agenda]. intros Hp.
    destruct (H1 Hp) as (t & b & Hin). exists t, b.
    apply elem_of_cons in Hin as [[= _ ?] | Hin]; done.
  - apply well_formed_processQueue. cbn [isProcessing agenda]. intros Hp.
    destruct (H1 Hp) as (t & b & Hin). exists t, b.
    apply elem_of_cons in Hin as [[= _ ?] | Hin]; done.
  - apply well_formed_settle.
Qed.

Lemma well_formed_addJob (job : EmbeddingJob) (jobId : string)
    (w : Worker EmbeddingResult) :
  well_formed w -> well_formed (addJob EmbeddingResult latency config job jobId w).
Proof.
  intros [H1 H2]. unfold addJob. cbn [isProcessing].
  destruct (isProcessing _ w) eqn:Ep.
  - split; cbn [isProcessing agenda]; [intros _; by apply H1|done].
  - apply well_formed_processQueue. cbn [isProcessing]. done.
Qed.

Lemma reachable_well_formed (w : Worker EmbeddingResult) :
  reachable EmbeddingResult processJob latency config w -> well_formed w.
Proof.
  induction 1 as [|w job jobId _ IH|w _ IH|w w' _ IH Ht].
  - split; [done|]. intros _ Hq. done.
  - by apply well_formed_addJob.
  - destruct IH as [H1 H2]. split; [exact H1|]. intros _ Hq. done.
  - by eapply well_formed_turn.
Qed.

(** **** The ledger: what was emitted, and what the jobs held will emit *)
Lemma outcome_unfold (j : EmbeddingJob) :
  outcome j = match processJob j with
              | Some result => jobSuccess _ j result
              | None => if retries (bump j) <? maxRetries config
                        then outcome (bump j)
                        else jobFailed _ (bump j)
              end.
Proof.
  unfold Worker.outcome.
  destruct (Z.to_nat (maxRetries config - retries j)) as [|n] eqn:E; cbn [fate].
  - destruct (processJob j); [done|].
    destruct (Z.ltb_spec (retries (bump j)) (maxRetries config)); [|done].
    simpl in *. lia.
  - destruct (processJob j); [done|].
    destruct (Z.ltb_spec (retries (bump j)) (maxRetries config)); [|done].
    f_equal. simpl. lia.
Qed.

Definition ledger (w : Worker EmbeddingResult) : list (Event EmbeddingResult) :=
  emitted _ w ++ map outcome (jobs w).

Lemma jobs_processQueue (w : Worker EmbeddingResult) :
  jobs (processQueue w) ≡ₚ jobs w /\ emitted _ (processQueue w) = emitted _ w.
Proof.
  unfold Worker.processQueue.
  destruct (isProcessing _ w || bool_decide (queue _ w = [])); [done|].
  split; [|done]. unfold Worker.jobs. cbn [queue agenda].
  rewrite schedule_perm. cbn [flat_map jobs_of snd].
  rewrite <- (take_drop (Z.to_nat (batchSize config)) (queue _ w)) at 3.
  rewrite (Permutation_app_comm (take _ _) (drop _ _)).
  by rewrite <- !app_assoc.
Qed.

Lemma ledger_handle_results (batch : list EmbeddingJob) (w : Worker EmbeddingResult) :
  ledger (handle_results batch w) ≡ₚ ledger w ++ map outcome batch.
Proof.
  revert w. induction batch as [|j batch IH]; intros w; simpl.
  - by rewrite app_nil_r.
  - rewrite IH, (outcome_unfold j). destruct (processJob j) as [r|].
    + unfold ledger, handleJobSuccess, emit, Worker.jobs. cbn [emitted queue agenda].
      rewrite <- !app_assoc. apply Permutation_app_head. simpl.
      apply Permutation_middle.
    + unfold handleJobFailure.
      destruct (retries (bump j) <? maxRetries config).
      * unfold ledger, setTimeout, Worker.jobs. cbn [emitted queue agenda].
        rewrite schedule_perm. cbn [flat_map jobs_of snd app].
        rewrite <- !app_assoc. apply Permutation_app_head.
        rewrite !map_app. simpl. rewrite <- !app_assoc.
        apply Permutation_app_head. apply Permutation_middle.
      * unfold ledger, emit, Worker.jobs. cbn [emitted queue agenda].
        rewrite <- !app_assoc. apply Permutation_app_head. simpl.
        apply Permutation_middle.
Qed.

Lemma ledger_settle (batch : list EmbeddingJob) (w : Worker EmbeddingResult) :
  ledger (settle batch w) ≡ₚ ledger w ++ map outcome batch.
Proof.
  rewrite <- ledger_handle_results. unfold Worker.settle. cbn [queue].
  destruct (bool_decide (queue _ (handle_results batch w) = [])).
  - done.
  - unfold ledger, setTimeout, Worker.jobs. cbn [emitted queue agenda now].
    by rewrite schedule_perm.
Qed.

(** A turn moves events from what the jobs will emit to what was emitted,
    and nothing else. *)
Lemma ledger_turn (w w' : Worker EmbeddingResult) :
  turn w = Some w' -> ledger w' ≡ₚ ledger w.
Proof.
  unfold Worker.turn. destruct (agenda _ w) as [|[due cb] rest] eqn:Eag; [done|].
  intros [= <-].
  assert (Hw : ledger w = emitted _ w
                 ++ map outcome (queue _ w ++ jobs_of cb ++ flat_map (fun e => jobs_of e.2) rest)).
  { unfold ledger, Worker.jobs. by rewrite Eag. }
  rewrite Hw. destruct cb as [j| |batch]; cbn [fire jobs_of].
  - match goal with |- ledger (processQueue ?x) ≡ₚ _ =>
      destruct (jobs_processQueue x) as [Hj He]; unfold ledger; rewrite He, Hj end.
    unfold Worker.jobs. cbn [queue agenda emitted]. by rewrite <- !app_assoc.
  - match goal with |- ledger (processQueue ?x) ≡ₚ _ =>
      destruct (jobs_processQueue x) as [Hj He]; unfold ledger; rewrite He, Hj end.
    done.
  - rewrite ledger_settle. unfold ledger, Worker.jobs. cbn [queue agenda emitted].
    rewrite !map_app, <- !app_assoc. apply Permutation_app_head, Permutation_app_head.
    apply Permutation_app_comm.
Qed.

Lemma run_keeps (n : nat) (w : Worker EmbeddingResult) :
  well_formed w -> well_formed (run n w) /\ ledger (run n w) ≡ₚ ledger w.
Proof.
  revert w. induction n as [|n IH]; intros w Hw; cbn [Worker.run]; [done|].
  destruct (turn w) as [w'|] eqn:E; [|done].
  destruct (IH w' (well_formed_turn _ _ Hw E)) as [H1 H2].
  split; [done|]. by rewrite H2, (ledger_turn _ _ E).
Qed.

(** The queue drains: from any state the worker can be in, the loop comes to
    rest, and what it has emitted by then is what it had emitted before
    together with the fate of every job it held, each once. *)
Lemma queue_drains (w : Worker EmbeddingResult) (n : nat) :
  well_formed w -> (potential w <= n)%nat ->
  idle _ (run n w) /\
  emitted _ (run n w) ≡ₚ emitted _ w ++ map outcome (jobs w) /\
  forall n', (n <= n')%nat -> run n' w = run n w.
Proof using batch_pos.
  intros Hw Hn. pose proof (run_empties_agenda n w Hn) as Hag.
  destruct (run_keeps n w Hw) as [[H1 H2] Hl].
  assert (Hp : isProcessing _ (run n w) = false).
  { destruct (isProcessing _ (run n w)) eqn:E; [|done].
    destruct (H1 eq_refl) as (t & b & Hin). rewrite Hag in Hin. by apply not_elem_of_nil in Hin. }
  assert (Hq : queue _ (run n w) = []).
  { destruct (queue _ (run n w)) as [|j q] eqn:E; [done|].
    destruct (H2 Hp) as [t Hin]; [done|].
    rewrite Hag in Hin. by apply not_elem_of_nil in Hin. }
  split; [done|]. split.
  - transitivity (ledger (run n w)); [|exact Hl].
    unfold ledger, Worker.jobs. rewrite Hq, Hag. simpl. by rewrite app_nil_r.
  - intros n' Hn'. by apply run_stable.
Qed.

(** Adding a job adds it to the jobs held, as [addJob] enters it. *)
Lemma addJob_jobs (job : EmbeddingJob) (jobId : string) (w : Worker EmbeddingResult) :
  jobs (addJob EmbeddingResult latency config job jobId w)
    ≡ₚ attempt job jobId 0 :: jobs w /\
  emitted _ (addJob EmbeddingResult latency config job jobId w) = emitted _ w.
Proof.
  unfold addJob. cbn [isProcessing].
  set (w1 := {| queue := sort_desc_by _ _; isProcessing := isProcessing _ w;
                agenda := agenda _ w; now := now _ w; emitted := emitted _ w |}).
  assert (H1 : jobs w1 ≡ₚ attempt job jobId 0 :: jobs w).
  { unfold Worker.jobs, w1. cbn [queue agenda].
    rewrite SortFacts.sort_desc_by_perm. rewrite <- app_assoc. simpl.
    symmetry. apply Permutation_middle. }
  destruct (isProcessing _ w); [done|].
  destruct (jobs_processQueue w1) as [-> ->]. done.
Qed.

(** The fate of a job that fails [k] times, all below the limit, and then
    succeeds; and of a job whose failures reach the limit. *)
Lemma outcome_succeeds (job : EmbeddingJob) (jobId : string) (k : nat) (r : Z)
    (result : EmbeddingResult) :
  (forall i, r <= i < r + Z.of_nat k -> processJob (attempt job jobId i) = None) ->
  processJob (attempt job jobId (r + Z.of_nat k)) = Some result ->
  r + Z.of_nat k < maxRetries config ->
  outcome (attempt job jobId r)
  = jobSuccess _ (attempt job jobId (r + Z.of_nat k)) result.
Proof.
  revert r. induction k as [|k IH]; intros r Hfail Hok Hlt; rewrite outcome_unfold.
  - rewrite Z.add_0_r in *. by rewrite Hok.
  - rewrite Hfail by lia. rewrite bump_attempt. cbn [retries attempt].
    destruct (Z.ltb_spec (r + 1) (maxRetries config)); [|lia].
    replace (r + Z.of_nat (S k)) with (r + 1 + Z.of_nat k) in * by lia.
    apply IH; [|done|done]. intros i Hi. apply Hfail. lia.
Qed.

Lemma outcome_fails (job : EmbeddingJob) (jobId : string) (k : nat) (r : Z) :
  (forall i, r <= i <= r + Z.of_nat k -> processJob (attempt job jobId i) = None) ->
  r + Z.of_nat k + 1 = maxRetries config ->
  outcome (attempt job jobId r) = jobFailed _ (attempt job jobId (maxRetries config)).
Proof.
  revert r. induction k as [|k IH]; intros r Hfail Hmax; rewrite outcome_unfold.
  - rewrite Hfail by lia. rewrite bump_attempt. cbn [retries attempt].
    destruct (Z.ltb_spec (r + 1) (maxRetries config)); [lia|].
    f_equal. f_equal. lia.
  - rewrite Hfail by lia. rewrite bump_attempt. cbn [retries attempt].
    destruct (Z.ltb_spec (r + 1) (maxRetries config)); [|lia].
    apply IH; [|lia]. intros i Hi. apply Hfail. lia.
Qed.

End Drain.

(** C4: a job added to the worker, in any state the worker can be in.  The
    event loop comes to rest (nothing queued, in flight or scheduled, and
    further turns change nothing), and by then it has emitted, besides what
    it had emitted before and the fates of the jobs it already held, the fate
    of the new job, once: [jobSuccess] if its first [maxRetries - 1] attempts
    fail and the next one succeeds, [jobFailed] if its first [maxRetries]
    attempts fail; after that the job is nowhere in the worker, so it is
    never re-enqueued.  In every state, a failure below the limit schedules
    the re-enqueue [retryDelay * 2 ^ (retries - 1)] ahead, [retries] counting
    this failure, and a failure at the limit schedules nothing.  For a job
    added to a worker at rest the emitted list and the clock are exact: with
    batches that all take [L], the last attempt settles
    [maxRetries * L + retryDelay * (2 ^ (maxRetries - 1) - 1)] after the job
    was added. *)
Theorem job_lifecycle (EmbeddingResult : Type)
    (processJob : EmbeddingJob -> option EmbeddingResult)
    (latency : list EmbeddingJob -> Z) (config : WorkerConfig)
    (job : EmbeddingJob) (jobId : string) :
  1 <= batchSize config -> 0 <= retryDelay config ->
  (forall batch, 0 <= latency batch) -> 1 <= maxRetries config ->
  let m := maxRetries config in
  let k := Z.to_nat (m - 1) in
  let first := attempt job jobId 0 in
  let succeeds_on_last result :=
    (forall i, 0 <= i < m - 1 -> processJob (attempt job jobId i) = None) /\
    processJob (attempt job jobId (m - 1)) = Some result in
  let always_fails :=
    forall i, 0 <= i < m -> processJob (attempt job jobId i) = None in
  (* in any reachable state *)
  (forall w, reachable EmbeddingResult processJob latency config w ->
     let w0 := addJob EmbeddingResult latency config job jobId w in
     exists N, forall n, (N <= n)%nat ->
       let w' := run EmbeddingResult processJob latency config n w0 in
       idle EmbeddingResult w' /\
       jobs EmbeddingResult w' = [] /\
       emitted EmbeddingResult w'
         ≡ₚ emitted EmbeddingResult w
            ++ outcome EmbeddingResult processJob config first
               :: map (outcome EmbeddingResult processJob config)
                      (jobs EmbeddingResult w)) /\
  (forall result, succeeds_on_last result ->
     outcome EmbeddingResult processJob config first
     = jobSuccess EmbeddingResult (attempt job jobId (m - 1)) result) /\
  (always_fails ->
     outcome EmbeddingResult processJob config first
     = jobFailed EmbeddingResult (attempt job jobId m)) /\
  (forall (w : Worker EmbeddingResult) j,
     handleJobFailure EmbeddingResult config j w
     = if retries j + 1 <? m
       then setTimeout EmbeddingResult (Requeue (bump j))
              (retryDelay config * 2 ^ (retries (bump j) - 1)) w
       else emit EmbeddingResult (jobFailed EmbeddingResult (bump j)) w) /\
  (* from a worker at rest *)
  (forall t log,
     let w0 := addJob EmbeddingResult latency config job jobId
                 (at_rest EmbeddingResult t log) in
     let done_at :=
       settles_at latency config job jobId k 0 (t + latency [first]) in
     (forall result n, succeeds_on_last result -> (2 * k + 1 <= n)%nat ->
        run EmbeddingResult processJob latency config n w0
        = at_rest EmbeddingResult done_at
            (log ++ [jobSuccess EmbeddingResult (attempt job jobId (m - 1)) result])) /\
     (forall n, always_fails -> (2 * k + 1 <= n)%nat ->
        run EmbeddingResult processJob latency config n w0
        = at_rest EmbeddingResult done_at
            (log ++ [jobFailed EmbeddingResult (attempt job jobId m)])) /\
     (forall L, (forall batch, latency batch = L) ->
        done_at = t + m * L + retryDelay config * (2 ^ (m - 1) - 1))).
Proof.
  intros Hb Hd Hl Hm m k first succeeds_on_last always_fails.
  split; [|split; [|split; [|split]]].
  - intros w Hw w0.
    assert (Hwf : well_formed EmbeddingResult w0).
    { apply well_formed_addJob, (reachable_well_formed _ processJob latency config), Hw. }
    exists (potential EmbeddingResult config w0). intros n Hn w'.
    destruct (queue_drains EmbeddingResult processJob latency config Hb w0 n Hwf Hn)
      as (Hidle & Hem & _).
    destruct (addJob_jobs EmbeddingResult latency config job jobId w) as [Hj He].
    split; [exact Hidle|]. split.
    + destruct Hidle as (Hq & _ & Hag). unfold jobs, w'. by rewrite Hq, Hag.
    + unfold w'. rewrite Hem. subst w0. rewrite He, Hj. done.
  - intros result [Hfail Hok].
    replace (m - 1) with (0 + Z.of_nat k) by lia.
    apply outcome_succeeds; [|rewrite <- Hok; f_equal; f_equal; lia|lia].
    intros i Hi. apply Hfail. lia.
  - intros Hfail. apply (outcome_fails _ _ _ _ _ k); [|lia].
    intros i Hi. apply Hfail. lia.
  - intros w j. reflexivity.
  - intros t log w0 done_at.
    assert (Hw0 : w0 = in_flight EmbeddingResult job jobId 0
                         (t + latency [attempt job jobId 0]) t log).
    { by apply addJob_at_rest. }
    split; [|split].
    + intros result n [Hfail Hok] Hn. rewrite Hw0.
      replace (m - 1) with (0 + Z.of_nat k) by lia.
      apply fails_then_succeeds; try done.
      * pose proof (Hl [first]). lia.
      * intros i Hi. apply Hfail. lia.
      * rewrite <- Hok. f_equal. f_equal. lia.
      * lia.
    + intros n Hfail Hn. rewrite Hw0.
      apply fails_for_good; try done.
      * pose proof (Hl [first]). lia.
      * intros i Hi. apply Hfail. lia.
      * lia.
    + intros L HL. unfold done_at, first.
      rewrite (settles_at_const _ _ _ _ L) by (done || lia).
      rewrite HL. replace (Z.of_nat k) with (m - 1) by lia. rewrite Z.pow_0_r. lia.
Qed.

(** The lifecycle at the default configuration: three attempts at most, five
    seconds of base delay. *)
Definition default_config : WorkerConfig :=
  {| batchSize := 8; maxRetries := 3; retryDelay := 5000 |}.

Definition ex_job : EmbeddingJob :=
  {| id := ""; entryId := "entry-1"; content := lit "Rotate nonces for AES-GCM";
     occurredAt := 1700000000000; priority := 1; retries := 0 |}.

(** Two failures, then a success. *)
Definition ex_processJob (j : EmbeddingJob) : option Z :=
  if retries j <? 2 then None else Some 42.

Lemma job_lifecycle_witness :
  1 <= batchSize default_config /\ 0 <= retryDelay default_config /\
  (forall batch : list EmbeddingJob, 0 <= 7) /\ 1 <= maxRetries default_config /\
  run Z ex_processJob (fun _ => 7) default_config 5
    (addJob Z (fun _ => 7) default_config ex_job "job-1" (at_rest Z 0 []))
  = at_rest Z 15021 [jobSuccess Z (attempt ex_job "job-1" 2) 42].
Proof.
  assert (H1 : 1 <= batchSize default_config) by (simpl; lia).
  assert (H2 : 0 <= retryDelay default_config) by (simpl; lia).
  assert (H3 : forall batch : list EmbeddingJob, 0 <= 7) by (intros; lia).
  assert (H4 : 1 <= maxRetries default_config) by (simpl; lia).
  split; [exact H1|]. split; [exact H2|]. split; [exact H3|]. split; [exact H4|].
  refine (proj1 (proj2 (proj2 (proj2 (proj2
            (job_lifecycle Z ex_processJob (fun _ => 7) default_config
               ex_job "job-1" H1 H2 H3 H4)))) 0 []) 42 5%nat _ _).
  - split; [|reflexivity]. intros i Hi. simpl in Hi. unfold ex_processJob. simpl.
    destruct (Z.ltb_spec i 2); [done|lia].
  - simpl. lia.
Defined.

End WorkerFacts.

(** ** The chunker *)
Module ChunkerFacts.
Import JS JSFacts Chunker.

Definition nl : ascii := "010"%char.

(** The input of the repository's test "handles text with whitespace between
    sentences": [First.], three spaces, two line feeds, three spaces,
    [Second.] *)
Definition ex_spaced : str := lit "First.   " ++ [nl; nl] ++ lit "   Second.".

(** The input of the repository's test "splits on periods". *)
Definition ex_periods : str := lit "First sentence. Second sentence. Third sentence.".

(** C3, where chunker.ts parts from it: on the test input with white space
    between the sentences (target 30, overlap 10) the one chunk carries the
    text [First. Second.], rebuilt from the trimmed sentences, while the
    input between its offsets 0 and 14 is [First.] followed by white space;
    the validator refuses the chunk, the test expects it to pass. *)
Theorem ts_text_differs_from_slice :
  TS.chunkText ex_spaced 30 10
    = [{| start := 0; end_ := 14; text := lit "First. Second." |}] /\
  trim (slice ex_spaced 0 14) = lit "First." /\
  ~ Forall (offsets_match ex_spaced) (TS.chunkText ex_spaced 30 10) /\
  validateChunks (TS.chunkText ex_spaced 30 10) ex_spaced = false.
Proof.
  split; [reflexivity|]. split; [reflexivity|]. split; [|reflexivity].
  intros H. inversion H as [|c l Hc Hl]; subst. vm_compute in Hc. discriminate Hc.
Qed.

(** C10, where chunker.ts parts from it: seeding a chunk with the overlap
    puts its start at [sentence.start - overlap.length] and its end at the
    start plus the length of the rebuilt text.  On [A.B.C.] (target 1,
    overlap 80) the last chunk starts at -1 and ends at 7, past the 6
    characters of the input; on the input of the test "splits on periods"
    (target 10, overlap 3) the last chunk ends at 49, past the 48 characters
    of the input. *)
Theorem ts_offsets_out_of_bounds :
  TS.chunkText (lit "A.B.C.") 1 80
    = [{| start := 0; end_ := 2; text := lit "A." |};
       {| start := 0; end_ := 5; text := lit "A. B." |};
       {| start := -1; end_ := 7; text := lit "A. B. C." |}] /\
  len (lit "A.B.C.") = 6 /\
  ~ Forall (in_bounds (lit "A.B.C.")) (TS.chunkText (lit "A.B.C.") 1 80) /\
  last (TS.chunkText ex_periods 10 3)
    = Some {| start := 7; end_ := 49;
              text := lit "sentence. Second sentence. Third sentence." |} /\
  len ex_periods = 48 /\
  ~ Forall (in_bounds ex_periods) (TS.chunkText ex_periods 10 3).
Proof.
  split; [reflexivity|]. split; [reflexivity|]. split.
  - intros H. apply Forall_forall with (x := {| start := -1; end_ := 7; text := lit "A. B. C." |}) in H.
    + destruct H as [[H _] _]. simpl in H. lia.
    + vm_compute. do 2 apply list_elem_of_further. apply list_elem_of_here.
  - split; [reflexivity|]. split; [reflexivity|].
    intros H.
    apply Forall_forall with
      (x := {| start := 7; end_ := 49;
               text := lit "sentence. Second sentence. Third sentence." |}) in H.
    + destruct H as [_ H]. vm_compute in H. apply H. reflexivity.
    + vm_compute. do 2 apply list_elem_of_further. apply list_elem_of_here.
Qed.

(** *** chunker.js keeps the text of a chunk equal to its slice *)
Lemma push_slice_match (input : str) (chunks : list Chunk) (a b : Z) :
  Forall (offsets_match input) chunks ->
  Forall (offsets_match input) (JSV.push_slice input chunks a b).
Proof.
  intros H. unfold JSV.push_slice.
  destruct (0 <? len (trim (slice input a b))); [|done].
  apply Forall_app. split; [done|]. by repeat constructor.
Qed.

Lemma word_step_match (input haystack : str) (base target : Z)
    (st : list Chunk * Z * Z) (word : str) :
  Forall (offsets_match input) st.1.1 ->
  Forall (offsets_match input) (JSV.word_step input haystack base target st word).1.1.
Proof.
  destruct st as [[chunks ws] we]. simpl. intros H.
  destruct (_ && _); simpl; [by apply push_slice_match|done].
Qed.

Lemma split_words_match (input haystack : str) (base target : Z)
    (chunks : list Chunk) (words : list str) :
  Forall (offsets_match input) chunks ->
  Forall (offsets_match input) (JSV.split_words input haystack base target chunks words).
Proof.
  intros H. unfold JSV.split_words.
  assert (G : forall st, Forall (offsets_match input) st.1.1 ->
            Forall (offsets_match input)
              (foldl (JSV.word_step input haystack base target) st words).1.1).
  { induction words as [|w ws IH]; intros st Hst; simpl; [done|].
    apply IH. by apply word_step_match. }
  specialize (G (chunks, base, base) H).
  destruct (foldl _ _ _) as [[cs ws] we]. simpl in G.
  destruct (ws <? we); [by apply push_slice_match|done].
Qed.

Lemma step_match (input : str) (target overlap : Z)
    (st : list Chunk * Z * Z * Z) (sentence : Sentence) :
  Forall (offsets_match input) st.1.1.1 ->
  Forall (offsets_match input) (JSV.step input target overlap st sentence).1.1.1.
Proof.
  destruct st as [[[chunks cs] ce] ct]. simpl. intros H.
  destruct (target <? _); simpl.
  - apply split_words_match. destruct (cs <? ce); [by apply push_slice_match|done].
  - destruct (_ && _); simpl; [by apply push_slice_match|done].
Qed.

(** Every chunk of chunker.js is the trimmed slice of the input between its
    offsets: the property C3 asks for holds of this variant. *)
Lemma js_text_is_slice (input : str) (target overlap : Z) :
  Forall (offsets_match input) (JSV.chunkText input target overlap).
Proof.
  unfold JSV.chunkText. destruct (len (trim input) =? 0); [constructor|].
  destruct (splitIntoSentences input) as [|s0 ss]; [constructor|].
  assert (G : forall sentences st, Forall (offsets_match input) st.1.1.1 ->
            Forall (offsets_match input)
              (foldl (JSV.step input target overlap) st sentences).1.1.1).
  { induction sentences as [|s l IH]; intros st Hst; simpl; [done|].
    apply IH. by apply step_match. }
  specialize (G (s0 :: ss) ([], 0, 0, 0) (Forall_nil_2 _)).
  destruct (foldl _ _ _) as [[[chunks cs] ce] ct]. simpl in G.
  match goal with
  | |- Forall _ (match ?c with [] => _ | _ :: _ => _ end) =>
      assert (Hc : Forall (offsets_match input) c);
        [|destruct c; [apply split_words_match; constructor|done]]
  end.
  destruct (reaches_min target ct || _); [by apply push_slice_match|done].
Qed.

(** *** The sentences *)
Lemma span_le (p : ascii -> bool) (s : str) : (span p s <= length s)%nat.
Proof. induction s as [|c r IH]; simpl; [lia|]. destruct (p c); simpl; lia. Qed.

Lemma span_stop (p : ascii -> bool) (s : str) :
  (span (fun c => negb (p c)) s < length s)%nat ->
  (1 <= span p (drop (span (fun c => negb (p c)) s) s))%nat.
Proof.
  induction s as [|c r IH]; simpl; [lia|].
  destruct (p c) eqn:E; simpl.
  - intros _. rewrite E. lia.
  - intros H. apply IH. lia.
Qed.

(** A match starts at or after the position searched from, is not empty,
    and ends within the text. *)
Lemma exec_range (t : str) (from index match_end : nat) :
  exec t from = Some (index, match_end) ->
  (from <= index < match_end)%nat /\ (match_end <= length t)%nat.
Proof.
  unfold exec. destruct (Nat.ltb_spec (span (fun c => negb (is_terminator c)) (drop from t))
                                      (length (drop from t))) as [Hlt | Hge]; [|done].
  intros [= <- <-].
  set (k := span (fun c => negb (is_terminator c)) (drop from t)) in *.
  pose proof (span_stop is_terminator (drop from t) Hlt) as H1. fold k in H1.
  rewrite drop_drop in H1.
  pose proof (span_le is_terminator (drop (from + k) t)) as H2.
  pose proof (span_le is_ws (drop (from + k + span is_terminator (drop (from + k) t)) t)) as H3.
  rewrite length_drop in *. lia.
Qed.

(** The loop has fuel to spare: it is the absence of a match that ends it. *)
Lemma sentences_loop_fuel (fuel : nat) (t : str) (lastIndex : nat)
    (sentences : list Sentence) :
  (length t - lastIndex < fuel)%nat -> (lastIndex <= length t)%nat ->
  sentences_loop (S fuel) t lastIndex sentences
  = sentences_loop fuel t lastIndex sentences.
Proof.
  revert lastIndex sentences. induction fuel as [|fuel IH]; intros li ss Hf Hl; [lia|].
  cbn [sentences_loop]. destruct (exec t li) as [[index e]|] eqn:E; [|done].
  apply exec_range in E as [H1 H2].
  apply IH; lia.
Qed.

Lemma sentences_loop_enough (n : nat) (t : str) :
  (S (length t) <= n)%nat ->
  sentences_loop n t 0 [] = sentences_loop (S (length t)) t 0 [].
Proof.
  induction 1 as [|n Hn IH]; [done|].
  rewrite sentences_loop_fuel; [exact IH|lia|lia].
Qed.

Definition sentence_ok (input : str) (s : Sentence) : Prop :=
  0 <= s_start s /\ s_start s + len (s_text s) <= s_end s /\ s_end s <= len input.

Definition ends_before (a b : Sentence) : Prop := s_end a <= s_end b.

Lemma sentences_loop_ok (fuel : nat) (t : str) (lastIndex : nat)
    (sentences : list Sentence) :
  (lastIndex <= length t)%nat ->
  Forall (sentence_ok t) sentences ->
  Forall (fun s => s_end s <= Z.of_nat lastIndex) sentences ->
  StronglySorted ends_before sentences ->
  let r := sentences_loop fuel t lastIndex sentences in
  Forall (sentence_ok t) r.1 /\
  Forall (fun s => s_end s <= Z.of_nat r.2) r.1 /\
  StronglySorted ends_before r.1 /\ (r.2 <= length t)%nat.
Proof.
  revert lastIndex sentences.
  induction fuel as [|fuel IH]; intros li ss Hl Hok Hend Hs; cbn [sentences_loop].
  - done.
  - destruct (exec t li) as [[index e]|] eqn:E; [|done].
    apply exec_range in E as [H1 H2].
    set (new := {| s_text := trim (slice t (Z.of_nat li) (Z.of_nat e));
                   s_start := Z.of_nat li; s_end := Z.of_nat e |}).
    assert (Hnew : sentence_ok t new).
    { unfold sentence_ok, new, len. simpl.
      pose proof (trim_len (slice t (Z.of_nat li) (Z.of_nat e))).
      pose proof (slice_len_diff t (Z.of_nat li) (Z.of_nat e)).
      unfold len in *. lia. }
    assert (Hend' : Forall (fun s => s_end s <= Z.of_nat e) ss).
    { eapply Forall_impl; [exact Hend|]. simpl. intros. lia. }
    destruct (0 <? len (trim (slice t (Z.of_nat li) (Z.of_nat e)))).
    + apply IH; [lia| | |].
      * apply Forall_app. split; [done|]. by constructor.
      * apply Forall_app. split; [done|]. constructor; [simpl; lia|done].
      * apply SortFacts.StronglySorted_snoc; [done|].
        eapply Forall_impl; [exact Hend|]. unfold ends_before. simpl. intros. lia.
    + apply IH; [lia|done|done|done].
Qed.

(** The sentences lie within the input, each text no longer than its span,
    and they come in the order of their ends. *)
Lemma splitIntoSentences_ok (t : str) :
  Forall (sentence_ok t) (splitIntoSentences t) /\
  StronglySorted ends_before (splitIntoSentences t).
Proof.
  unfold splitIntoSentences.
  pose proof (sentences_loop_ok (S (length t)) t 0 [] ltac:(lia)
                (Forall_nil_2 _) (Forall_nil_2 _) (SSorted_nil _)) as (H1 & H2 & H3 & H4).
  destruct (sentences_loop (S (length t)) t 0 []) as [ss li]. simpl in *.
  set (rest := {| s_text := trim (slice_from t (Z.of_nat li));
                  s_start := Z.of_nat li; s_end := len t |}).
  assert (Hrest : sentence_ok t rest).
  { unfold sentence_ok, rest. simpl. unfold slice_from.
    pose proof (trim_len (slice t (Z.of_nat li) (len t))).
    pose proof (slice_len_diff t (Z.of_nat li) (len t)). unfold len in *. lia. }
  assert (Hall : Forall (sentence_ok t)
                   (if Z.of_nat li <? len t
                    then if 0 <? len (trim (slice_from t (Z.of_nat li)))
                         then ss ++ [rest] else ss
                    else ss) /\
                 StronglySorted ends_before
                   (if Z.of_nat li <? len t
                    then if 0 <? len (trim (slice_from t (Z.of_nat li)))
                         then ss ++ [rest] else ss
                    else ss)).
  { destruct (Z.of_nat li <? len t); [|done].
    destruct (0 <? len (trim (slice_from t (Z.of_nat li)))); [|done]. split.
    - apply Forall_app. split; [done|]. by constructor.
    - apply SortFacts.StronglySorted_snoc; [done|].
      eapply Forall_impl; [exact H2|]. unfold ends_before, rest, len. simpl. intros. lia. }
  destruct Hall as [Ha Hb].
  destruct (if Z.of_nat li <? len t then _ else _) as [|s0 l]; [|done].
  destruct (0 <? len (trim t)); [|split; constructor].
  split.
  - constructor; [|constructor]. unfold sentence_ok. simpl.
    pose proof (trim_len t). pose proof (len_nonneg t). lia.
  - repeat constructor.
Qed.

(** *** chunker.js keeps the offsets within the input *)
Lemma push_slice_bounds (input : str) (chunks : list Chunk) (a b : Z) :
  0 <= a <= b -> b <= len input ->
  Forall (in_bounds input) chunks ->
  Forall (in_bounds input) (JSV.push_slice input chunks a b).
Proof.
  intros Hab Hb H. unfold JSV.push_slice.
  destruct (0 <? len (trim (slice input a b))); [|done].
  apply Forall_app. split; [done|]. constructor; [|constructor].
  unfold in_bounds. simpl. lia.
Qed.

Section Words.
Variable input haystack : str.
Variable base target : Z.
Hypothesis base_nonneg : 0 <= base.
Hypothesis haystack_fits : base + len haystack <= len input.

(** The invariant of a word loop: the chunks pushed so far are within
    bounds, the window lies within the searched string, and the words still
    to come occur, in order, after the end of the window. *)
Definition word_inv (st : list Chunk * Z * Z) (words : list str) : Prop :=
  Forall (in_bounds input) st.1.1 /\
  base <= st.1.2 <= st.2 /\ st.2 <= base + len haystack /\
  occurs_in_order words (drop (Z.to_nat (st.2 - base)) haystack).

Lemma word_step_inv (st : list Chunk * Z * Z) (word : str) (words : list str) :
  word_inv st (word :: words) ->
  word_inv (JSV.word_step input haystack base target st word) words.
Proof using base_nonneg haystack_fits.
  destruct st as [[chunks ws] we]. unfold word_inv. simpl.
  intros (Hc & Hw & He & a & b & Hdrop & Hocc).
  set (from := we - base) in *.
  assert (Hfrom : 0 <= from <= len haystack) by lia.
  assert (Hhay : haystack = (take (Z.to_nat from) haystack ++ a) ++ word ++ b).
  { rewrite <- app_assoc, <- Hdrop. by rewrite take_drop. }
  assert (Hpre : len (take (Z.to_nat from) haystack ++ a) = from + len a).
  { rewrite len_app. unfold len in *. rewrite length_take. lia. }
  set (pre := take (Z.to_nat from) haystack ++ a) in *. clearbody pre.
  destruct (indexOf_found haystack word pre b from Hhay) as [Hi1 Hi2].
  { rewrite Hpre. pose proof (len_nonneg a). lia. }
  set (i := indexOf haystack word from) in *.
  assert (Hrest : occurs_in_order words (drop (Z.to_nat (base + i + len word - base)) haystack)).
  { rewrite Hhay, app_assoc, drop_app_le.
    - by apply occurs_prepend.
    - rewrite length_app. unfold len in *. lia. }
  pose proof (len_nonneg word).
  destruct ((target <? estimateTokens (slice input ws (base + i + len word)))
            && (ws <? we)); simpl.
  - split; [apply push_slice_bounds; [lia|lia|done]|].
    split; [lia|]. split; [lia|done].
  - split; [done|]. split; [lia|]. split; [lia|done].
Qed.

Lemma split_words_bounds (chunks : list Chunk) (words : list str) :
  Forall (in_bounds input) chunks ->
  occurs_in_order words haystack ->
  Forall (in_bounds input) (JSV.split_words input haystack base target chunks words).
Proof using base_nonneg haystack_fits.
  intros Hc Hocc. unfold JSV.split_words.
  assert (G : forall words' st, word_inv st words' ->
            word_inv (foldl (JSV.word_step input haystack base target) st words') []).
  { intros words'. induction words' as [|w ws IH]; intros st Hst; simpl; [done|].
    apply IH. by apply word_step_inv. }
  specialize (G words (chunks, base, base)).
  destruct G as (H1 & H2 & H3 & _).
  { unfold word_inv. simpl. pose proof (len_nonneg haystack).
    split; [done|]. split; [lia|]. split; [lia|].
    by rewrite Z.sub_diag. }
  destruct (foldl _ _ _) as [[cs ws] we]. simpl in *.
  destruct (ws <? we); [|done]. apply push_slice_bounds; [lia|lia|done].
Qed.

End Words.

(** The invariant of the loop over the sentences: the chunks pushed so far
    and the current window are within bounds, and the window ends no later
    than any sentence still to come. *)
Definition step_inv (input : str) (st : list Chunk * Z * Z * Z)
    (sentences : list Sentence) : Prop :=
  Forall (in_bounds input) st.1.1.1 /\
  0 <= st.1.1.2 <= st.1.2 /\ st.1.2 <= len input /\
  Forall (fun s => st.1.2 <= s_end s) sentences.

Lemma step_bounds (input : str) (target overlap : Z)
    (st : list Chunk * Z * Z * Z) (sentence : Sentence) (sentences : list Sentence) :
  sentence_ok input sentence ->
  Forall (ends_before sentence) sentences ->
  step_inv input st (sentence :: sentences) ->
  step_inv input (JSV.step input target overlap st sentence) sentences.
Proof.
  destruct st as [[[chunks cs] ce] ct]. unfold step_inv. simpl.
  intros (Hs1 & Hs2 & Hs3) Hafter (Hc & Hw & He & Hnext).
  inversion Hnext as [|? ? Hce Hrest]; subst.
  destruct (target <? estimateTokens (s_text sentence)); simpl.
  - split.
    + apply split_words_bounds; [done|lia| |apply split_ws_occurs].
      destruct (cs <? ce); [|done]. apply push_slice_bounds; [lia|lia|done].
    + pose proof (len_nonneg input). split; [lia|]. split; [lia|].
      eapply Forall_impl; [exact Hrest|]. simpl. intros. lia.
  - assert (Hafter' : Forall (fun s => s_end sentence <= s_end s) sentences).
    { eapply Forall_impl; [exact Hafter|]. by unfold ends_before. }
    destruct ((target <? estimateTokens (slice input cs (s_end sentence)))
              && reaches_min target ct); simpl.
    + pose proof (len_nonneg (createOverlap (trim (slice input cs ce)) overlap)).
      split; [apply push_slice_bounds; [lia|lia|done]|].
      split; [lia|]. split; [lia|done].
    + split; [done|]. split; [lia|]. split; [lia|done].
Qed.

(** Every chunk of chunker.js has [0 <= start <= end <= input.length]: the
    property C10 asks for holds of this variant, which clamps the start of
    an overlap-seeded chunk at 0 and ends chunks at sentence or word ends. *)
Lemma js_offsets_in_bounds (input : str) (target overlap : Z) :
  Forall (in_bounds input) (JSV.chunkText input target overlap).
Proof.
  unfold JSV.chunkText. destruct (len (trim input) =? 0); [constructor|].
  destruct (splitIntoSentences_ok input) as [Hok Hsorted].
  destruct (splitIntoSentences input) as [|s0 ss]; [constructor|].
  assert (G : forall sentences st,
            Forall (sentence_ok input) sentences ->
            StronglySorted ends_before sentences ->
            step_inv input st sentences ->
            step_inv input (foldl (JSV.step input target overlap) st sentences) []).
  { induction sentences as [|s l IH]; intros st Ho Hs Hst; simpl; [done|].
    inversion Ho; subst. inversion Hs; subst.
    apply IH; [done|done|]. by apply step_bounds. }
  specialize (G (s0 :: ss) ([], 0, 0, 0) Hok Hsorted).
  destruct G as (H1 & H2 & H3 & _).
  { unfold step_inv. simpl. pose proof (len_nonneg input).
    split; [constructor|]. split; [lia|]. split; [lia|].
    eapply Forall_impl; [exact Hok|]. intros s (Ha & Hb & Hc). simpl.
    pose proof (len_nonneg (s_text s)). lia. }
  destruct (foldl _ _ _) as [[[chunks cs] ce] ct]. simpl in *.
  match goal with
  | |- Forall _ (match ?c with [] => _ | _ :: _ => _ end) =>
      assert (Hc : Forall (in_bounds input) c)
  end.
  { destruct (reaches_min target ct || _); [|done].
    apply push_slice_bounds; [lia|lia|done]. }
  match goal with
  | |- Forall _ (match ?c with [] => _ | _ :: _ => _ end) => destruct c; [|done]
  end.
  apply split_words_bounds; [lia|simpl; lia|constructor|].
  destruct (trim_inside input) as (pre & post & Hin).
  rewrite Hin at 2. apply occurs_prepend, occurs_append, split_ws_occurs.
Qed.

End ChunkerFacts.

(** ** Truncation, and the budget on a context that is one string *)
Module BudgetTextFacts.
Import JS JSFacts Budget BudgetFacts.

(** *** Splitting and joining *)
Lemma slice_0_take (s : str) (b : Z) :
  slice s 0 b = take (Z.to_nat (rel_index (len s) b)) s.
Proof.
  unfold slice. pose proof (len_nonneg s).
  replace (rel_index (len s) 0) with 0 by (unfold rel_index; simpl; lia).
  simpl. by rewrite Z.sub_0_r.
Qed.

Lemma slice_0_prefix (s : str) (b : Z) : slice s 0 b `prefix_of` s.
Proof. rewrite slice_0_take. apply prefix_take. Qed.

Lemma is_prefix_true (p s : str) :
  is_prefix p s = true -> s = p ++ drop (length p) s.
Proof.
  revert s. induction p as [|a p IH]; intros [|b s] H; simpl in *; try done.
  apply andb_true_iff in H as [Hab H]. apply Ascii.eqb_eq in Hab as ->.
  f_equal. by apply IH.
Qed.

Lemma split_go_nonempty (sep : str) (skip : nat) (cur s : str) :
  split_go sep skip cur s <> [].
Proof.
  revert skip cur. induction s as [|c r IH]; intros skip cur; simpl; [done|].
  destruct skip; [|apply IH]. destruct (is_prefix sep (c :: r)); [done|apply IH].
Qed.

Lemma join_cons (sep x : str) (l : list str) :
  l <> [] -> join sep (x :: l) = x ++ sep ++ join sep l.
Proof. by destruct l. Qed.

(** Joining the pieces with the separator gives the string back. *)
Lemma join_split_go (sep : str) (skip : nat) (cur s : str) :
  sep <> [] -> join sep (split_go sep skip cur s) = cur ++ drop skip s.
Proof.
  intros Hsep. revert skip cur.
  induction s as [|c r IH]; intros skip cur.
  - simpl. by rewrite drop_nil, app_nil_r.
  - cbn [split_go]. destruct skip as [|k]; [|by rewrite IH].
    destruct (is_prefix sep (c :: r)) eqn:E.
    + rewrite join_cons by apply split_go_nonempty. rewrite IH. f_equal.
      apply is_prefix_true in E. destruct sep as [|d sep']; [done|].
      simpl in *. rewrite Nat.sub_0_r. symmetry. exact E.
    + rewrite IH. simpl. by rewrite <- app_assoc.
Qed.

Lemma join_split (s sep : str) : sep <> [] -> join sep (split s sep) = s.
Proof. intros H. unfold split. by rewrite join_split_go. Qed.

(** The first pieces of a list, joined, begin the whole list joined; so do
    they when a beginning of the next piece follows them. *)
Lemma join_take_prefix (sep : str) (l : list str) (j : nat) :
  join sep (take j l) `prefix_of` join sep l.
Proof.
  revert j. induction l as [|x l IH]; intros j.
  - rewrite take_nil. done.
  - destruct j as [|j]; [apply prefix_nil|]. cbn [take].
    destruct l as [|y l']; [by rewrite take_nil|].
    destruct j as [|j]; [simpl; by apply prefix_app_r|].
    rewrite !join_cons by done. do 2 apply prefix_app. apply (IH (S j)).
Qed.

Lemma join_take_snoc_prefix (sep : str) (l : list str) (j : nat) (b t : str) :
  l !! j = Some b -> t `prefix_of` b ->
  join sep (take j l ++ [t]) `prefix_of` join sep l.
Proof.
  revert j. induction l as [|x l IH]; intros j Hj Ht; [done|].
  destruct j as [|j].
  - simpl in Hj. injection Hj as ->. simpl.
    destruct l; [done|]. by apply prefix_app_r.
  - simpl in Hj. cbn [take app].
    assert (Hl : l <> []) by (intros ->; done).
    rewrite !join_cons; [|done|by destruct (take j l)].
    do 2 apply prefix_app. by apply IH.
Qed.

(** *** [truncateText] *)
Lemma truncateText_is_prefix (t : str) (m : Z) : truncateText t m `prefix_of` t.
Proof.
  unfold truncateText. destruct (len t <=? m * 4); [done|].
  destruct (_ <? _)%float; [apply slice_0_prefix|].
  destruct (_ <? _)%float; apply slice_0_prefix.
Qed.

Lemma prefix_len (a b : str) : a `prefix_of` b -> len a <= len b.
Proof. intros H. apply prefix_length in H. unfold len. lia. Qed.





(** *** [enforceTokenBudget] *)
Lemma pack_blocks_sum (blocks : list str) (rem : Z) (sel : list str) :
  0 <= rem -> sum_tokens (pack_blocks blocks rem sel) <= sum_tokens sel + rem.
Proof.
  revert rem sel. induction blocks as [|b rest IH]; intros rem sel Hrem; simpl.
  - lia.
  - destruct (Z.leb_spec (estimateTokens b) rem).
    + etrans; [apply IH; lia|]. rewrite sum_tokens_app. simpl. lia.
    + destruct (50 <? rem); [|lia].
      destruct (0 <? len (trim (truncateText b rem))); [|lia].
      rewrite sum_tokens_app. simpl.
      pose proof (truncateText_tokens b rem Hrem). lia.
Qed.

(** What the loop keeps: the first blocks, then at most one truncated
    block, a beginning of the block that follows them. *)
Lemma pack_blocks_shape (blocks : list str) (rem : Z) (sel : list str) :
  exists (j : nat) (tail : list str),
    pack_blocks blocks rem sel = sel ++ take j blocks ++ tail /\
    (tail = [] \/
     exists b t, blocks !! j = Some b /\ t `prefix_of` b /\ tail = [t]).
Proof.
  revert rem sel. induction blocks as [|b rest IH]; intros rem sel; simpl.
  - exists 0%nat, []. rewrite app_nil_r. auto.
  - destruct (estimateTokens b <=? rem).
    + destruct (IH (rem - estimateTokens b) (sel ++ [b])) as (j & tail & -> & Ht).
      exists (S j), tail. split; [by rewrite <- app_assoc|]. exact Ht.
    + destruct (50 <? rem).
      * destruct (0 <? len (trim (truncateText b rem))).
        -- exists 0%nat, [truncateText b rem]. split; [done|].
           right. exists b, (truncateText b rem).
           split; [done|]. split; [apply truncateText_is_prefix|done].
        -- exists 0%nat, []. rewrite app_nil_r. auto.
      * exists 0%nat, []. rewrite app_nil_r. auto.
Qed.

Lemma blank_line_nonempty : blank_line <> [].
Proof. done. Qed.

(** X2: the budget on a context in one string.  What comes back is always a
    beginning of the context.  A blank context, and one whose estimate fits
    the budget, come back as they are; otherwise the context is cut into its
    blocks at the blank lines, and what comes back is the first blocks, and
    possibly a truncated beginning of the next one, joined by blank lines
    again, the estimates of the kept pieces summing to at most
    [maxTokens]. *)
Theorem enforceTokenBudget_spec (snippets : str) (maxTokens : Z) :
  0 <= maxTokens ->
  let result := enforceTokenBudget snippets maxTokens in
  result `prefix_of` snippets /\
  (if (len (trim snippets) =? 0) || (estimateTokens snippets <=? maxTokens)
   then result = snippets
   else exists pieces,
          result = join blank_line pieces /\
          sum_tokens pieces <= maxTokens /\
          Forall (fun p => estimateTokens p <= maxTokens) pieces).
Proof.
  intros Hm result. unfold result, enforceTokenBudget.
  assert (Hblank : (len snippets =? 0) = true -> (len (trim snippets) =? 0) = true).
  { intros H. apply Z.eqb_eq in H. apply Z.eqb_eq.
    pose proof (trim_len snippets). pose proof (len_nonneg (trim snippets)). lia. }
  destruct (len (trim snippets) =? 0) eqn:Et.
  { rewrite orb_true_r. simpl. done. }
  destruct (len snippets =? 0) eqn:E0; [by specialize (Hblank eq_refl)|]. simpl.
  destruct (estimateTokens snippets <=? maxTokens) eqn:Ef; [done|].
  split.
  - destruct (pack_blocks_shape (split snippets blank_line) maxTokens [])
      as (j & tail & -> & Ht).
    rewrite app_nil_l.
    rewrite <- (join_split snippets blank_line blank_line_nonempty) at 2.
    destruct Ht as [-> | (b & t & Hb & Hpre & ->)].
    + rewrite app_nil_r. apply join_take_prefix.
    + by eapply join_take_snoc_prefix.
  - exists (pack_blocks (split snippets blank_line) maxTokens []).
    split; [done|].
    pose proof (pack_blocks_sum (split snippets blank_line) maxTokens [] Hm) as Hs.
    simpl in Hs. split; [lia|]. apply sum_tokens_Forall. lia.
Qed.

(** One block of 252 letters, a full stop and 200 more letters, at a budget
    of 90 tokens: the sentence end at index 252 exceeds [360 * 0.7], which is
    [251.99999999999997] in doubles, so the block is cut after the full
    stop. *)
Definition ex_context : str :=
  repeat "a"%char 252 ++ lit "." ++ repeat "b"%char 200.

Lemma enforceTokenBudget_spec_witness :
  0 <= 90 /\
  enforceTokenBudget ex_context 90 = repeat "a"%char 252 ++ lit "." /\
  enforceTokenBudget ex_context 90 `prefix_of` ex_context.
Proof.
  split; [lia|]. split; [vm_compute; reflexivity|].
  exact (proj1 (enforceTokenBudget_spec ex_context 90 ltac:(lia))).
Defined.

End BudgetTextFacts.

(** ** Sealing, and the derivation of the KEK *)
Module EnvelopeFacts.
Import JS Crypto CryptoFacts.

Section Sealing.
Context `{AesGcm}.
Variable encode : str -> bytes.
Variable decode : bytes -> str.

(** X3: what [seal] returned opens, under the same DEK and with the nonce
    it returned, to the plaintext; and so for a string through [sealString]
    and [openString], when the platform's decoder inverts its encoder on
    that string.  With a 32-byte DEK and a 12-byte nonce both seal. *)
Theorem open_seal (dek plaintext nonce0 : bytes) (text : str) :
  decode (encode text) = text ->
  (forall blob, seal dek plaintext nonce0 = Ok blob ->
                open dek (cipher blob) (nonce blob) = Ok plaintext) /\
  (forall blob, sealString encode dek text nonce0 = Ok blob ->
                openString decode dek (cipher blob) (nonce blob) = Ok text) /\
  (length dek = 32%nat -> length nonce0 = 12%nat ->
   (exists blob, seal dek plaintext nonce0 = Ok blob) /\
   (exists blob, sealString encode dek text nonce0 = Ok blob)).
Proof.
  intros Hcodec.
  assert (Hopen : forall p blob, seal dek p nonce0 = Ok blob ->
                    open dek (cipher blob) (nonce blob) = Ok p).
  { intros p blob Hb. apply seal_Ok in Hb as (-> & key & Hk & He).
    unfold open, importKey. rewrite Hk. simpl.
    by rewrite (decrypt_encrypt _ _ _ _ He). }
  assert (Hseal : forall p, length dek = 32%nat -> length nonce0 = 12%nat ->
                    exists blob, seal dek p nonce0 = Ok blob).
  { intros p Hd Hn. unfold seal, importKey.
    destruct (importKey_256 dek Hd) as [key ->]. simpl.
    destruct (encrypt_96 key nonce0 p Hn) as [c ->]. eauto. }
  split; [apply Hopen|]. split.
  - intros blob Hb. unfold sealString in Hb. unfold openString.
    rewrite (Hopen _ _ Hb). simpl. by rewrite Hcodec.
  - intros Hd Hn. split; [by apply Hseal|]. unfold sealString. by apply Hseal.
Qed.

End Sealing.

Definition ex_text : str := lit "Rotate nonces for AES-GCM".

Lemma open_seal_witness :
  map ascii_of_byte (map byte_of_ascii ex_text) = ex_text /\
  exists blob,
    @sealString toy_aes_gcm (map byte_of_ascii) ex_key ex_text ex_nonce = Ok blob /\
    @openString toy_aes_gcm (map ascii_of_byte) ex_key (cipher blob) (nonce blob)
      = Ok ex_text.
Proof.
  assert (Hc : map ascii_of_byte (map byte_of_ascii ex_text) = ex_text) by reflexivity.
  split; [exact Hc|].
  eexists. split; [reflexivity|].
  refine (proj1 (proj2 (@open_seal toy_aes_gcm (map byte_of_ascii) (map ascii_of_byte)
                          ex_key [] ex_nonce ex_text Hc)) _ _).
  reflexivity.
Defined.

(** *** [deriveKEK] *)

(** A platform whose [deriveBits] returns as many bytes as it is asked bits
    for, eight to a byte. *)
Definition derives_exact_length (P : KdfPlatform) : Prop :=
  forall km salt its bits out,
    deriveBits_pbkdf2_sha256 P km salt its bits = Some out ->
    Z.of_nat (length out) = bits / 8.

(** X5: [verifyPassphrase] always derives 32 bytes.  A KEK derived with
    another [hashLength] is therefore refused, with the right passphrase
    too: the lengths differ and the answer is [false]. *)
Theorem deriveKEK_other_length_refused (P : KdfPlatform) (passphrase : str)
    (config : KDFConfig) (salt : bytes) (n : Z) (r : KEKResult) :
  derives_exact_length P ->
  hashLength config = Some n -> n <> 32 ->
  deriveKEK P passphrase config salt = inr r ->
  verifyPassphrase P passphrase (kdfSalt r) (kekKey r) = false.
Proof.
  intros Hlen Hn Hne. unfold deriveKEK. rewrite Hn. simpl.
  destruct (len passphrase <? 8); [done|].
  destruct (importKey_pbkdf2 P (encode P passphrase)) as [km|] eqn:Ek; [|done].
  destruct (deriveBits_pbkdf2_sha256 P km salt _ (n * 8)) as [k|] eqn:Ed; [|done].
  intros [= <-]. simpl. unfold verifyPassphrase. rewrite Ek.
  destruct (deriveBits_pbkdf2_sha256 P km salt 100000 256) as [d|] eqn:Ed'; [|done].
  apply Hlen in Ed. apply Hlen in Ed'.
  rewrite Z.div_mul in Ed by lia. change (256 / 8) with 32 in Ed'.
  destruct (Nat.eqb_spec (length d) (length k)) as [He | He]; [lia|done].
Qed.

(** A runtime with exact lengths to run the code on. *)
Definition sized_platform : KdfPlatform :=
  {| KeyMaterial := bytes;
     encode := map byte_of_ascii;
     importKey_pbkdf2 := Some;
     deriveBits_pbkdf2_sha256 := fun km salt _ bits =>
       if bits <? 0 then None
       else let n := Z.to_nat (bits / 8) in
            Some (take n (km ++ salt ++ repeat Byte.x00 n));
     timingSafeEqual := Some constant_time_eq |}.

Lemma sized_platform_exact : derives_exact_length sized_platform.
Proof.
  intros km salt its bits out. simpl.
  destruct (Z.ltb_spec bits 0); [done|]. intros [= <-].
  rewrite length_take, !length_app, repeat_length.
  assert (0 <= bits / 8) by (apply Z.div_pos; lia). lia.
Qed.

Lemma deriveKEK_other_length_refused_witness :
  derives_exact_length sized_platform /\
  exists r,
    deriveKEK sized_platform (lit "test-passphrase-123")
      {| iterations := None; hashLength := Some 16 |} (repeat Byte.x42 32) = inr r /\
    verifyPassphrase sized_platform (lit "test-passphrase-123") (kdfSalt r) (kekKey r)
      = false.
Proof.
  split; [exact sized_platform_exact|].
  eexists. split; [reflexivity|].
  refine (deriveKEK_other_length_refused sized_platform (lit "test-passphrase-123")
            {| iterations := None; hashLength := Some 16 |} (repeat Byte.x42 32) 16 _
            sized_platform_exact eq_refl _ eq_refl).
  lia.
Defined.

End EnvelopeFacts.

(** ** The chunk processor *)
Module ProcessorFacts.
Import JS JSFacts Processor.

(** *** Tags *)
Lemma lower_char_idem (c : ascii) : lower_char (lower_char c) = lower_char c.
Proof. destruct c as [[] [] [] [] [] [] [] []]; reflexivity. Qed.

Lemma lower_char_sigil (c : ascii) : is_sigil c = true -> lower_char c = c.
Proof. destruct c as [[] [] [] [] [] [] [] []]; (reflexivity || discriminate). Qed.

Lemma lower_char_word (c : ascii) : is_word c = true -> is_word (lower_char c) = true.
Proof. destruct c as [[] [] [] [] [] [] [] []]; (reflexivity || discriminate). Qed.

Lemma toLowerCase_idem (s : str) : toLowerCase (toLowerCase s) = toLowerCase s.
Proof.
  unfold toLowerCase. rewrite map_map. apply map_ext. intros c. apply lower_char_idem.
Qed.

Lemma span_forallb (p : ascii -> bool) (s : str) :
  forallb p (take (Chunker.span p s) s) = true.
Proof.
  induction s as [|c r IH]; simpl; [done|].
  destruct (p c) eqn:E; simpl; [|done]. by rewrite E.
Qed.

(** A match: a sigil, then word characters, at least one. *)
Definition tag_shaped (m : str) : Prop :=
  exists c rest, m = c :: rest /\ is_sigil c = true /\ rest <> [] /\
                 forallb is_word rest = true.

Lemma match_tag_shaped (s : str) (n : nat) :
  match_tag s = Some n -> tag_shaped (take n s).
Proof.
  destruct s as [|c r]; simpl; [done|].
  destruct (is_sigil c) eqn:Es; simpl; [|done].
  destruct (Nat.ltb_spec 0 (Chunker.span is_word r)) as [Hpos | Hz]; [|done].
  intros [= <-]. exists c, (take (Chunker.span is_word r) r).
  split; [done|]. split; [done|]. split; [|apply span_forallb].
  destruct r as [|d r']; simpl in *; [lia|].
  destruct (is_word d); [done|lia].
Qed.

Lemma match_all_shaped (skip : nat) (s : str) : Forall tag_shaped (match_all skip s).
Proof.
  revert skip. induction s as [|c r IH]; intros skip; simpl; [constructor|].
  destruct skip as [|k]; [|apply IH].
  destruct (is_sigil c && (0 <? Chunker.span is_word r)%nat) eqn:E; [|apply IH].
  constructor; [|apply IH].
  apply (match_tag_shaped (c :: r)). simpl. by rewrite E.
Qed.

(** X6: every tag [extractTags] returns is in lower case (lowering it again
    changes nothing), and is a [#] or an [@] followed by at least one word
    character. *)
Theorem extractTags_lowercase (t : str) :
  Forall (fun tag => toLowerCase tag = tag /\ tag_shaped tag) (extractTags t).
Proof.
  unfold extractTags. apply Forall_fmap.
  eapply Forall_impl; [apply match_all_shaped|].
  intros m (c & rest & -> & Hc & Hne & Hw). split.
  - apply toLowerCase_idem.
  - exists c, (map lower_char rest).
    split; [unfold toLowerCase; simpl; by rewrite lower_char_sigil|].
    split; [done|]. split; [by destruct rest|].
    rewrite forallb_forall in *. intros x Hx.
    apply in_map_iff in Hx as (y & <- & Hy). by apply lower_char_word, Hw.
Qed.

(** *** Importance *)
Lemma Qmin_le_r (a b : Q) : (Qmin a b <= b)%Q.
Proof.
  unfold Qmin. destruct (Qle_bool a b) eqn:E; [by apply Qle_bool_iff|apply Qle_refl].
Qed.

Lemma Qmin_nonneg (a b : Q) : (0 <= a)%Q -> (0 <= b)%Q -> (0 <= Qmin a b)%Q.
Proof. intros Ha Hb. unfold Qmin. by destruct (Qle_bool a b). Qed.

Lemma count_nonneg (p : ascii -> bool) (t : str) : 0 <= count p t.
Proof. unfold count. lia. Qed.

Lemma Qdiv_nonneg (a b : Q) : (0 <= a)%Q -> (0 < b)%Q -> (0 <= a / b)%Q.
Proof.
  intros Ha Hb. unfold Qdiv. apply Qmult_le_0_compat; [done|].
  apply Qinv_le_0_compat. by apply Qlt_le_weak.
Qed.

Lemma Qplus_nonneg (a b : Q) : (0 <= a)%Q -> (0 <= b)%Q -> (0 <= a + b)%Q.
Proof.
  intros Ha Hb. change 0%Q with (0 + 0)%Q. by apply Qplus_le_compat.
Qed.

Lemma inject_Z_nonneg (z : Z) : 0 <= z -> (0 <= inject_Z z)%Q.
Proof. intros H. change 0%Q with (inject_Z 0). by rewrite <- Zle_Qle. Qed.

(** X7: the importance of a text that is not empty is a number between 0
    and 1; on the empty text it is not a number. *)
Theorem calculateImportance_range (t : str) :
  match calculateImportance t with
  | Some v => t <> [] /\ (0 <= v)%Q /\ (v <= 1)%Q
  | None => t = []
  end.
Proof.
  unfold calculateImportance.
  destruct (Z.eqb_spec (len t) 0) as [H0 | Hne].
  - destruct t; [done|]. unfold len in H0. simpl in H0. lia.
  - assert (Hpos : 0 < len t) by (pose proof (len_nonneg t); lia).
    split; [intros ->; by apply Hne|]. split; [|apply Qmin_le_r].
    apply Qmin_nonneg; [|done].
    assert (Hlen : (0 < inject_Z (len t))%Q).
    { change 0%Q with (inject_Z 0). by rewrite <- Zlt_Qlt. }
    repeat apply Qplus_nonneg; apply Qmult_le_0_compat; try done.
    + apply Qmin_nonneg; [|done]. apply Qdiv_nonneg; [|done].
      apply inject_Z_nonneg. lia.
    + apply Qdiv_nonneg; [|done]. apply inject_Z_nonneg, count_nonneg.
    + apply Qdiv_nonneg; [|done]. apply inject_Z_nonneg, count_nonneg.
    + apply Qdiv_nonneg; [|done]. apply inject_Z_nonneg, count_nonneg.
Qed.

(** *** Sentences *)
Lemma split_runs_nonempty (p : ascii -> bool) (cur : str) (in_sep : bool) (s : str) :
  split_runs p cur in_sep s <> [].
Proof.
  revert cur in_sep. induction s as [|c r IH]; intros cur in_sep; simpl; [done|].
  destruct (p c); [|apply IH]. destruct in_sep; [apply IH|done].
Qed.

(** The pieces, joined by one character each, are no longer than the text:
    every run between two pieces has at least one character. *)
Lemma split_runs_join_len (p : ascii -> bool) (sep cur : str) (in_sep : bool) (s : str) :
  len sep = 1 -> (in_sep = true -> cur = []) ->
  len (join sep (split_runs p cur in_sep s)) <= len cur + len s.
Proof.
  intros Hsep. revert cur in_sep.
  induction s as [|c r IH]; intros cur in_sep Hcur; simpl.
  - unfold len. simpl. lia.
  - assert (Hs : len (c :: r) = 1 + len r) by (unfold len; simpl; lia).
    rewrite Hs. destruct (p c).
    + destruct in_sep.
      * specialize (IH cur true Hcur). lia.
      * rewrite BudgetTextFacts.join_cons by apply split_runs_nonempty.
        rewrite !len_app, Hsep. specialize (IH [] true (fun _ => eq_refl)).
        change (len []) with 0 in IH. lia.
    + specialize (IH (cur ++ [c]) false ltac:(done)). rewrite len_app in IH.
      change (len [c]) with 1 in IH. lia.
Qed.

Definition sum_len (l : list str) : Z := foldr (fun t acc => len t + acc) 0 l.

Lemma filter_trim_sum (l : list str) :
  sum_len (List.filter (fun s => 0 <? len s) (map trim l)) <= sum_len l /\
  (length (List.filter (fun s => (0 <? len s)%Z) (map trim l)) <= length l)%nat.
Proof.
  induction l as [|x l [IH1 IH2]]; simpl; [done|].
  pose proof (trim_len x). pose proof (len_nonneg (trim x)).
  destruct (0 <? len (trim x)); simpl; lia.
Qed.

Lemma sentences_join_len (sep t : str) :
  len sep = 1 -> len (join sep (splitIntoSentences t)) <= len t.
Proof.
  intros Hsep. unfold splitIntoSentences.
  pose proof (split_runs_join_len Chunker.is_terminator sep [] false t Hsep ltac:(done)) as H.
  change (len []) with 0 in H.
  destruct (filter_trim_sum (split_runs Chunker.is_terminator [] false t)) as [H1 H2].
  rewrite BudgetFacts.join_len in H. rewrite BudgetFacts.join_len.
  unfold sum_len in H1. rewrite Hsep in *.
  set (a := foldr _ _ _) in *. set (b := foldr _ _ _) in *.
  set (n := length _) in *. set (m := length _) in *. lia.
Qed.

Lemma sentences_nonempty (t : str) :
  Forall (fun s => 0 < len s) (splitIntoSentences t).
Proof.
  unfold splitIntoSentences. apply Forall_forall. intros s Hs.
  apply list_elem_of_In, filter_In in Hs as [_ Hs]. by apply Z.ltb_lt.
Qed.

Lemma join_pos (sep : str) (l : list str) :
  l <> [] -> Forall (fun s => 0 < len s) l -> 0 < len (join sep l).
Proof.
  destruct l as [|x l]; [done|]. intros _ Hl.
  inversion Hl as [|? ? Hx Hl']; subst.
  destruct l as [|y l']; [done|].
  rewrite BudgetTextFacts.join_cons by done. rewrite len_app.
  pose proof (len_nonneg (sep ++ join sep (y :: l'))). lia.
Qed.

Lemma join_app_single (sep : str) (l : list str) (s : str) :
  l <> [] -> join sep (l ++ [s]) = join sep l ++ sep ++ s.
Proof.
  induction l as [|x l IH]; [done|]. intros _.
  destruct l as [|y l']; [done|].
  change ((x :: y :: l') ++ [s]) with (x :: ((y :: l') ++ [s])).
  rewrite BudgetTextFacts.join_cons by done. rewrite IH by done.
  rewrite (BudgetTextFacts.join_cons sep x (y :: l')) by done.
  by rewrite <- !app_assoc.
Qed.

Lemma join_snoc (sep : str) (l : list str) (s : str) :
  Forall (fun s => 0 < len s) l ->
  join sep (l ++ [s]) = join sep l ++ (if 0 <? len (join sep l) then sep else []) ++ s.
Proof.
  intros Hl. destruct l as [|x l]; [done|].
  rewrite join_app_single by done.
  pose proof (join_pos sep (x :: l) ltac:(done) Hl).
  destruct (Z.ltb_spec 0 (len (join sep (x :: l)))); [done|lia].
Qed.

(** *** The overlap *)
Lemma join_drop_suffix (sep : str) (l : list str) (j : nat) :
  join sep (drop j l) `suffix_of` join sep l.
Proof.
  revert j. induction l as [|x l IH]; intros j; [by rewrite drop_nil|].
  destruct j as [|j]; [done|]. cbn [drop].
  destruct l as [|y l']; [rewrite drop_nil; apply suffix_nil|].
  rewrite (BudgetTextFacts.join_cons sep x (y :: l')) by done.
  rewrite app_assoc. apply suffix_app_r, IH.
Qed.

(** X8: the overlap [getOverlap] takes from a chunk is an end of the
    chunk; and with an [overlapSize] from 0 to 5, for which the number of
    words to keep comes out as 0, it is the whole chunk. *)
Theorem getOverlap_suffix (config : ChunkConfig) (t : str) :
  getOverlap config t `suffix_of` t /\
  (if (0 <=? overlapSize config) && (overlapSize config <? 6)
   then getOverlap config t = t else True).
Proof.
  unfold getOverlap, array_slice_from.
  pose proof (BudgetTextFacts.join_split t (lit " ") ltac:(done)) as Hj.
  set (words := split t (lit " ")) in *. clearbody words.
  split.
  - rewrite <- Hj. apply join_drop_suffix.
  - destruct (Z.leb_spec 0 (overlapSize config)); [|done].
    destruct (Z.ltb_spec (overlapSize config) 6); [|done]. simpl.
    rewrite Z.div_small by lia. unfold rel_index. simpl.
    replace (Z.to_nat ((- 0) `min` Z.of_nat (length words))) with 0%nat by lia.
    exact Hj.
Qed.

(** *** [processText] *)
Section WithConfig.
Variable config : ChunkConfig.
Variable randomUUID : nat -> string.
Variable entryId : string.
Variable occurredAt : Z.

Local Abbreviation step := (step config randomUUID entryId occurredAt).

(** What holds of every chunk: its span is at least [minChunkSize] and at
    least the length of its text, it starts at 0 or later, and its tags and
    importance are those of its text. *)
Definition sized (c : TextChunk) : Prop :=
  minChunkSize config <= endOff c - startOff c /\
  len (text c) <= endOff c - startOff c /\
  0 <= startOff c /\
  tags c = extractTags (text c) /\
  importance c = calculateImportance (text c).

Lemma step_sized (st : list TextChunk * str * Z) (sentence : str) :
  Forall sized st.1.1 -> 0 <= st.2 ->
  Forall sized (step st sentence).1.1 /\ 0 <= (step st sentence).2.
Proof.
  destruct st as [[chunks cur] off]. simpl. intros Hc Hoff.
  destruct (maxChunkSize config <? _); simpl; [|done].
  destruct (Z.leb_spec (minChunkSize config) (len cur)); simpl; [|done].
  split.
  - apply Forall_app. split; [done|]. constructor; [|done].
    unfold sized. simpl. pose proof (trim_len cur). repeat split; (lia || done).
  - rewrite len_app. pose proof (len_nonneg sentence). lia.
Qed.

Lemma fold_sized (sentences : list str) (st : list TextChunk * str * Z) :
  Forall sized st.1.1 -> 0 <= st.2 ->
  Forall sized (foldl step st sentences).1.1 /\ 0 <= (foldl step st sentences).2.
Proof.
  revert st. induction sentences as [|s l IH]; intros st Hc Hoff; simpl; [done|].
  destruct (step_sized st s Hc Hoff). by apply IH.
Qed.

(** While the text read so far is shorter than [minChunkSize], nothing is
    pushed and the current chunk is the sentences joined by spaces. *)
Lemma fold_short (processed rest : list str) :
  Forall (fun s => 0 < len s) (processed ++ rest) ->
  len (join (lit " ") (processed ++ rest)) < minChunkSize config ->
  foldl step ([], join (lit " ") processed, 0) rest
  = ([], join (lit " ") (processed ++ rest), 0).
Proof.
  revert processed. induction rest as [|s rest IH]; intros processed Hne Hlen.
  - by rewrite app_nil_r.
  - cbn [foldl Processor.step].
    assert (Hpre : len (join (lit " ") processed)
                   <= len (join (lit " ") (processed ++ s :: rest))).
    { apply BudgetTextFacts.prefix_len.
      rewrite <- (take_app_length processed (s :: rest)) at 1.
      apply BudgetTextFacts.join_take_prefix. }
    destruct (Z.leb_spec (minChunkSize config) (len (join (lit " ") processed))); [lia|].
    rewrite andb_false_r.
    rewrite <- join_snoc.
    + replace (processed ++ s :: rest) with ((processed ++ [s]) ++ rest)
        by (by rewrite <- app_assoc).
      apply IH; by rewrite <- app_assoc.
    + by apply Forall_app in Hne as [? _].
Qed.

(** X9: every chunk [processText] returns spans at least [minChunkSize]
    characters, at least as many as its text has, starts at 0 or later, and
    carries the tags and the importance computed from its text; and a text
    shorter than [minChunkSize] gives no chunk at all. *)
Theorem processText_sizes (t : str) :
  Forall sized (processText config randomUUID t entryId occurredAt) /\
  (len t < minChunkSize config ->
   processText config randomUUID t entryId occurredAt = []).
Proof.
  unfold processText. split.
  - destruct (fold_sized (splitIntoSentences t) ([], [], 0)) as [H1 H2];
      [constructor|simpl; lia|].
    destruct (foldl step _ _) as [[chunks cur] off]. simpl in *.
    destruct (Z.leb_spec (minChunkSize config) (len cur)); [|done].
    apply Forall_app. split; [done|]. constructor; [|done].
    unfold sized. simpl. pose proof (trim_len cur). repeat split; (lia || done).
  - intros Hshort.
    pose proof (sentences_join_len (lit " ") t eq_refl) as Hj.
    pose proof (fold_short [] (splitIntoSentences t)) as Hf.
    change ([] ++ splitIntoSentences t) with (splitIntoSentences t) in Hf.
    change (join (lit " ") []) with ([] : str) in Hf.
    rewrite Hf; [|apply sentences_nonempty|lia].
    destruct (Z.leb_spec (minChunkSize config)
                (len (join (lit " ") (splitIntoSentences t)))); [lia|done].
Qed.

End WithConfig.
End ProcessorFacts.

(** ** The embedding generator, and [processJob] *)
Module GeneratorFacts.
Import JS Generator.

(** *** The hash *)
Lemma to_int32_range (z : Z) : - 2 ^ 31 <= to_int32 z < 2 ^ 31.
Proof.
  unfold to_int32. pose proof (Z.mod_pos_bound (z + 2 ^ 31) (2 ^ 32)). lia.
Qed.

Lemma to_int32_shift (z k : Z) : to_int32 (z + k * 2 ^ 32) = to_int32 z.
Proof.
  unfold to_int32. replace (z + k * 2 ^ 32 + 2 ^ 31) with (z + 2 ^ 31 + k * 2 ^ 32) by lia.
  by rewrite Z_mod_plus_full.
Qed.

Lemma to_int32_wraps (z : Z) : exists k, to_int32 z = z + k * 2 ^ 32.
Proof.
  exists (- ((z + 2 ^ 31) / 2 ^ 32)). unfold to_int32.
  pose proof (Z.div_mod (z + 2 ^ 31) (2 ^ 32)). lia.
Qed.

Lemma to_int32_id (z : Z) : - 2 ^ 31 <= z < 2 ^ 31 -> to_int32 z = z.
Proof. intros H. unfold to_int32. rewrite Z.mod_small; lia. Qed.

(** The polynomial the loop evaluates: every turn multiplies by 31 and adds
    the next code unit. *)
Definition poly31 (s : str) : Z := foldl (fun h c => 31 * h + charCode c) 0 s.

Lemma hash_step_poly (h : Z) (c : ascii) :
  hash_step (to_int32 h) c = to_int32 (31 * h + charCode c).
Proof.
  unfold hash_step. rewrite Z.land_diag, Z.shiftl_mul_pow2 by lia.
  rewrite (to_int32_id (to_int32 h)) by apply to_int32_range.
  destruct (to_int32_wraps h) as [k1 ->].
  destruct (to_int32_wraps ((h + k1 * 2 ^ 32) * 2 ^ 5)) as [k2 ->].
  replace ((h + k1 * 2 ^ 32) * 2 ^ 5 + k2 * 2 ^ 32 - (h + k1 * 2 ^ 32) + charCode c)
    with (31 * h + charCode c + (31 * k1 + k2) * 2 ^ 32) by lia.
  apply to_int32_shift.
Qed.

Lemma foldl_hash_step (s : str) (h : Z) :
  foldl hash_step (to_int32 h) s
  = to_int32 (foldl (fun h c => 31 * h + charCode c) h s).
Proof.
  revert h. induction s as [|c s IH]; intros h; simpl; [done|].
  by rewrite hash_step_poly, IH.
Qed.

(** X10: the hash is the base-31 polynomial of the code units, wrapped to a
    signed 32-bit integer, in absolute value; it lies between 0 and [2^31],
    both included. *)
Theorem simpleHash_poly31 (s : str) :
  simpleHash s = Z.abs (to_int32 (poly31 s)) /\ 0 <= simpleHash s <= 2 ^ 31.
Proof.
  assert (H : simpleHash s = Z.abs (to_int32 (poly31 s))).
  { unfold simpleHash, poly31. rewrite <- foldl_hash_step.
    by rewrite (to_int32_id 0) by lia. }
  split; [exact H|]. rewrite H. pose proof (to_int32_range (poly31 s)). lia.
Qed.

(** *** Batches *)
Lemma map_imap {A B C} (f : nat -> A -> B) (g : B -> C) (h : A -> C) (l : list A) :
  (forall k x, g (f k x) = h x) -> map g (imap f l) = map h l.
Proof.
  revert f. induction l as [|x l IH]; intros f Hf; simpl; [done|].
  rewrite Hf. f_equal. apply IH. intros k y. apply Hf.
Qed.

Section WithConfig.
Variable config : EmbeddingConfig.
Variable component : Z -> Q.
Variable randomUUID : nat -> string.
Variable now : nat -> Z.

Local Abbreviation generateEmbedding := (generateEmbedding config component).

(** The result pushed for the text at position [k]. *)
Definition result_at (k : nat) (t : str) : EmbeddingResult :=
  {| id := randomUUID k; vector := generateEmbedding t;
     res_model := model config; createdAt := now k |}.

Lemma push_batch_spec (batch : list str) (results : list EmbeddingResult) :
  push_batch config randomUUID now (map generateEmbedding batch) results
  = results ++ imap (fun k t => result_at (length results + k) t) batch.
Proof.
  unfold push_batch. revert results.
  induction batch as [|t batch IH]; intros results; simpl; [by rewrite app_nil_r|].
  rewrite IH, <- app_assoc. simpl. f_equal. f_equal.
  - unfold result_at. by rewrite Nat.add_0_r.
  - apply imap_ext. intros k x _. simpl. rewrite length_app. simpl.
    f_equal. lia.
Qed.

Lemma array_slice_take_drop {A} (l : list A) (n : nat) (b : Z) :
  (n <= length l)%nat -> 0 <= b ->
  array_slice l (Z.of_nat n) (Z.of_nat n + b)
  = take (Z.to_nat (Z.min b (Z.of_nat (length l) - Z.of_nat n))) (drop n l).
Proof.
  intros Hn Hb. unfold array_slice, rel_index.
  destruct (Z.ltb_spec (Z.of_nat n) 0); [lia|].
  destruct (Z.ltb_spec (Z.of_nat n + b) 0); [lia|].
  replace (Z.to_nat (Z.min (Z.of_nat n) (Z.of_nat (length l)))) with n by lia.
  f_equal. lia.
Qed.

Lemma batches_spec (fuel n : nat) (texts : list str) :
  1 <= batchSize config -> (n <= length texts)%nat ->
  (length texts - n <= fuel)%nat ->
  batches config component randomUUID now fuel texts (Z.of_nat n)
    (imap result_at (take n texts))
  = imap result_at texts.
Proof.
  intros Hb. revert n. induction fuel as [|fuel IH]; intros n Hn Hf; simpl.
  - by rewrite take_ge by lia.
  - destruct (Z.ltb_spec (Z.of_nat n) (Z.of_nat (length texts))) as [Hlt | Hge];
      [|by rewrite take_ge by lia].
    rewrite array_slice_take_drop by lia.
    set (m := Z.to_nat (Z.min (batchSize config) (Z.of_nat (length texts) - Z.of_nat n))).
    rewrite push_batch_spec, length_imap, length_take.
    replace (n `min` length texts)%nat with n by lia.
    assert (Happ : imap result_at (take n texts)
                   ++ imap (fun k t => result_at (n + k) t) (take m (drop n texts))
                   = imap result_at (take (n + m) texts)).
    { rewrite <- (take_take_drop texts n m), imap_app, length_take.
      replace (n `min` length texts)%nat with n by lia. done. }
    rewrite Happ.
    destruct (decide (n + m <= length texts)%nat) as [Hle | Hgt]; [|lia].
    replace (Z.of_nat n + batchSize config) with (Z.of_nat (n + m) + (batchSize config - Z.of_nat m))
      by lia.
    destruct (decide (Z.of_nat m = batchSize config)) as [Hm | Hm].
    + rewrite Hm, Z.sub_diag, Z.add_0_r. apply IH; lia.
    + (* the last batch: short of [batchSize], it reaches the end *)
      assert (Hend : (n + m = length texts)%nat) by lia.
      rewrite Hend, take_ge by lia.
      destruct fuel as [|fuel']; simpl; [done|].
      destruct (Z.ltb_spec (Z.of_nat (length texts) + (batchSize config - Z.of_nat m))
                           (Z.of_nat (length texts))); [lia|done].
Qed.

Lemma generateBatchEmbeddings_imap (texts : list str) :
  1 <= batchSize config ->
  forall fuel, (length texts <= fuel)%nat ->
    batches config component randomUUID now fuel texts 0 [] = imap result_at texts.
Proof.
  intros Hb fuel Hf. apply (batches_spec fuel 0 texts Hb); lia.
Qed.

(** X11: whatever the batch size, from 1 up, the results are one for each
    text and in the order of the texts: the result at position [k] carries
    the embedding of the text at position [k] (and the [k]-th identifier and
    clock reading drawn).  More fuel than [texts.length] changes nothing. *)
Theorem generateBatchEmbeddings_aligned (texts : list str) :
  1 <= batchSize config ->
  generateBatchEmbeddings config component randomUUID now texts = imap result_at texts /\
  map vector (generateBatchEmbeddings config component randomUUID now texts)
    = map generateEmbedding texts /\
  forall fuel, (length texts <= fuel)%nat ->
    batches config component randomUUID now fuel texts 0 []
    = generateBatchEmbeddings config component randomUUID now texts.
Proof.
  intros Hb. pose proof (generateBatchEmbeddings_imap texts Hb) as H.
  unfold generateBatchEmbeddings. rewrite (H (length texts)) by lia.
  split; [done|]. split.
  - by apply map_imap.
  - intros fuel Hf. by apply H.
Qed.

End WithConfig.

Definition ex_config : EmbeddingConfig :=
  {| model := lit "all-MiniLM-L6-v2"; dimensions := 3; batchSize := 2 |}.

Definition ex_texts : list str := [lit "one"; lit "two"; lit "three"].

Lemma generateBatchEmbeddings_aligned_witness :
  1 <= batchSize ex_config /\
  map vector (generateBatchEmbeddings ex_config inject_Z (fun _ => "id"%string)
                (fun k => Z.of_nat k) ex_texts)
  = map (generateEmbedding ex_config inject_Z) ex_texts.
Proof.
  assert (H : 1 <= batchSize ex_config) by (simpl; lia).
  split; [exact H|].
  exact (proj1 (proj2 (generateBatchEmbeddings_aligned ex_config inject_Z
                         (fun _ => "id"%string) (fun k => Z.of_nat k) ex_texts H))).
Defined.

(** *** [processJob] *)
Section WithServices.
Variable chunkConfig : Processor.ChunkConfig.
Variable embeddingConfig : EmbeddingConfig.
Variable component : Z -> Q.
Variable chunkUUID : nat -> string.
Variable resultUUID : nat -> string.
Variable now : nat -> Z.

(** A chunk with the embedding of its own text. *)
Definition embedded (chunk : Processor.TextChunk) : Embedding.EmbeddedChunk :=
  {| Embedding.id := Processor.id chunk;
     Embedding.text := Processor.text chunk;
     Embedding.embedding :=
       generateEmbedding embeddingConfig component (Processor.text chunk);
     Embedding.startOff := Processor.startOff chunk;
     Embedding.endOff := Processor.endOff chunk |}.

Lemma combine_chunks_spec (all chunks : list Processor.TextChunk) (index : nat) :
  drop index all = chunks ->
  Embedding.combine_chunks chunks index
    (imap (result_at embeddingConfig component resultUUID now) (map Processor.text all))
  = Some (map embedded chunks).
Proof.
  revert index. induction chunks as [|c rest IH]; intros index Hd; simpl; [done|].
  assert (Hc : all !! index = Some c).
  { pose proof (lookup_drop all index 0) as Hl.
    rewrite Hd, Nat.add_0_r in Hl. by rewrite <- Hl. }
  rewrite list_lookup_imap, list_lookup_fmap, Hc. simpl.
  rewrite IH; [done|].
  replace (S index) with (index + 1)%nat by lia.
  by rewrite <- drop_drop, Hd.
Qed.

(** X12: with a batch size of at least 1, [processJob] never rejects, and
    its result lists the chunks of [processText] in order, each with the
    embedding of its own text. *)
Theorem processJob_pairs (job : Worker.EmbeddingJob) :
  1 <= batchSize embeddingConfig ->
  Embedding.processJob chunkConfig embeddingConfig component chunkUUID resultUUID now job
  = Some {| Embedding.jobId := Worker.id job;
            Embedding.chunks :=
              map embedded
                (Processor.processText chunkConfig chunkUUID (Worker.content job)
                   (Worker.entryId job) (Worker.occurredAt job));
            Embedding.success := true |}.
Proof.
  intros Hb. unfold Embedding.processJob, generateBatchEmbeddings.
  rewrite generateBatchEmbeddings_imap by (done || lia).
  set (all := Processor.processText _ _ _ _ _).
  by rewrite (combine_chunks_spec all all 0 eq_refl).
Qed.

End WithServices.

Definition ex_chunk_config : Processor.ChunkConfig :=
  {| Processor.maxChunkSize := 40; Processor.overlapSize := 12;
     Processor.minChunkSize := 10 |}.

Definition ex_job : Worker.EmbeddingJob :=
  {| Worker.id := "job-1"; Worker.entryId := "entry-1";
     Worker.content := lit "Rotate the nonces. Wrap the key again! Keep #Crypto notes.";
     Worker.occurredAt := 1700000000000; Worker.priority := 1; Worker.retries := 0 |}.

Lemma processJob_pairs_witness :
  1 <= batchSize ex_config /\
  exists r,
    Embedding.processJob ex_chunk_config ex_config inject_Z (fun _ => "chunk"%string)
      (fun _ => "id"%string) (fun k => Z.of_nat k) ex_job = Some r /\
    length (Embedding.chunks r) = 2%nat.
Proof.
  assert (H : 1 <= batchSize ex_config) by (simpl; lia).
  split; [exact H|].
  eexists. split.
  - exact (processJob_pairs ex_chunk_config ex_config inject_Z (fun _ => "chunk"%string)
             (fun _ => "id"%string) (fun k => Z.of_nat k) ex_job H).
  - reflexivity.
Defined.

End GeneratorFacts.

(** ** The worker's queue: batches, priorities, and [clearQueue] *)
Module QueueFacts.
Import JS Worker WorkerFacts.

Section Queue.
Variable EmbeddingResult : Type.
Variable processJob : EmbeddingJob -> option EmbeddingResult.
Variable latency : list EmbeddingJob -> Z.
Variable config : WorkerConfig.
Hypothesis batch_pos : 1 <= batchSize config.

Local Abbreviation run := (run EmbeddingResult processJob latency config).
Local Abbreviation turn := (turn EmbeddingResult processJob latency config).
Local Abbreviation processQueue := (processQueue EmbeddingResult latency config).
Local Abbreviation handle_results := (handle_results EmbeddingResult processJob config).
Local Abbreviation settle := (settle EmbeddingResult processJob config).
Local Abbreviation outcome := (outcome EmbeddingResult processJob config).
Local Abbreviation reachable := (reachable EmbeddingResult processJob latency config).

(** *** One batch at a time *)

(** The batches whose settlement is awaited. *)
Definition batches_of (cb : Callback) : list (list EmbeddingJob) :=
  match cb with
  | Settled batch => [batch]
  | _ => []
  end.

Definition in_flight_batches (w : Worker EmbeddingResult) : list (list EmbeddingJob) :=
  flat_map (fun e => batches_of e.2) (agenda _ w).

Definition batch_ok (batch : list EmbeddingJob) : Prop :=
  (1 <= length batch)%nat /\ Z.of_nat (length batch) <= batchSize config.

Definition one_batch (w : Worker EmbeddingResult) : Prop :=
  length (in_flight_batches w) = (if isProcessing _ w then 1 else 0)%nat /\
  Forall batch_ok (in_flight_batches w).

Lemma one_batch_processQueue (w : Worker EmbeddingResult) :
  one_batch w -> one_batch (processQueue w).
Proof using batch_pos.
  intros [H1 H2]. unfold Worker.processQueue.
  destruct (isProcessing _ w) eqn:Ep; simpl; [by split; [rewrite Ep|]|].
  destruct (bool_decide_reflect (queue _ w = [])) as [Hq | Hq]; [by split; [rewrite Ep|]|].
  unfold one_batch, in_flight_batches in *. cbn [isProcessing agenda].
  rewrite schedule_perm. cbn [flat_map batches_of snd app length]. split; [lia|].
  constructor; [|done]. unfold batch_ok. rewrite length_take.
  destruct (queue _ w); [done|]. simpl. lia.
Qed.

Lemma handle_results_batches (batch : list EmbeddingJob) (w : Worker EmbeddingResult) :
  in_flight_batches (handle_results batch w) ≡ₚ in_flight_batches w /\
  isProcessing _ (handle_results batch w) = isProcessing _ w.
Proof.
  revert w. induction batch as [|j batch IH]; intros w; simpl; [done|].
  destruct (IH (match processJob j with
                | Some result => handleJobSuccess EmbeddingResult j result w
                | None => handleJobFailure EmbeddingResult config j w
                end)) as [-> ->].
  destruct (processJob j); [done|]. unfold handleJobFailure.
  destruct (_ <? _); [|done].
  unfold in_flight_batches, setTimeout. cbn [agenda isProcessing].
  by rewrite schedule_perm.
Qed.

Lemma one_batch_settle (batch : list EmbeddingJob) (w : Worker EmbeddingResult) :
  in_flight_batches w = [] -> one_batch (settle batch w).
Proof.
  intros Hw. destruct (handle_results_batches batch w) as [Hb _].
  rewrite Hw in Hb. apply Permutation_nil_r in Hb.
  unfold Worker.settle. cbn [queue].
  destruct (bool_decide (queue _ (handle_results batch w) = [])).
  - unfold one_batch, in_flight_batches in *. cbn [agenda isProcessing].
    by rewrite Hb.
  - unfold one_batch, in_flight_batches, setTimeout in *. cbn [agenda isProcessing now].
    rewrite schedule_perm. cbn [flat_map batches_of snd app]. by rewrite Hb.
Qed.

Lemma one_batch_turn (w w' : Worker EmbeddingResult) :
  one_batch w -> turn w = Some w' -> one_batch w'.
Proof using batch_pos.
  intros [H1 H2]. unfold Worker.turn.
  destruct (agenda _ w) as [|[due cb] rest] eqn:Eag; [done|]. intros [= <-].
  unfold in_flight_batches in H1, H2. rewrite Eag in H1, H2. cbn [flat_map snd] in H1, H2.
  destruct cb as [j| |batch]; cbn [fire batches_of app] in *.
  - apply one_batch_processQueue. by split.
  - apply one_batch_processQueue. by split.
  - apply one_batch_settle. unfold in_flight_batches. cbn [agenda].
    simpl in H1. destruct (isProcessing _ w); [|done].
    destruct (flat_map _ rest); [done|simpl in H1; lia].
Qed.

Lemma one_batch_addJob (job : EmbeddingJob) (jobId : string) (w : Worker EmbeddingResult) :
  one_batch w -> one_batch (addJob EmbeddingResult latency config job jobId w).
Proof using batch_pos.
  intros H. unfold addJob. cbn [isProcessing].
  destruct (isProcessing _ w) eqn:Ep.
  - unfold one_batch, in_flight_batches in *. cbn [agenda isProcessing]. by rewrite Ep in *.
  - apply one_batch_processQueue.
    unfold one_batch, in_flight_batches in *. cbn [agenda isProcessing]. by rewrite Ep in *.
Qed.

(** X13: in every state the worker can be in, a batch is awaited exactly
    while [isProcessing] is set, and never two at a time; a batch holds at
    least one job and at most [batchSize]. *)
Theorem one_batch_in_flight (w : Worker EmbeddingResult) :
  reachable w ->
  length (in_flight_batches w) = (if isProcessing _ w then 1 else 0)%nat /\
  Forall (fun batch => (1 <= length batch)%nat /\
                       Z.of_nat (length batch) <= batchSize config)
         (in_flight_batches w).
Proof using batch_pos.
  induction 1 as [|w job jobId _ IH|w _ IH|w w' _ IH Ht].
  - by split.
  - by apply one_batch_addJob.
  - exact IH.
  - by eapply one_batch_turn.
Qed.

(** *** Priorities *)
Definition by_priority (a b : EmbeddingJob) : Prop := priority b <= priority a.

Lemma StronglySorted_drop {A} (R : A -> A -> Prop) (n : nat) (l : list A) :
  StronglySorted R l -> StronglySorted R (drop n l).
Proof.
  revert n. induction l as [|x l IH]; intros n H; [by rewrite drop_nil|].
  destruct n as [|n]; [done|]. simpl. apply IH. by inversion H.
Qed.

Lemma StronglySorted_weaken {A} (R R' : A -> A -> Prop) (l : list A) :
  (forall a b, R a b -> R' a b) -> StronglySorted R l -> StronglySorted R' l.
Proof.
  intros HR. induction 1 as [|x l Hl IH Hx]; constructor; [done|].
  eapply Forall_impl; [exact Hx|]. intros b. apply HR.
Qed.

Lemma sort_by_priority (l : list EmbeddingJob) :
  StronglySorted by_priority (sort_desc_by (fun j => inject_Z (priority j)) l).
Proof.
  pose proof (SortFacts.sort_desc_by_sorted (fun j => inject_Z (priority j)) l) as H.
  eapply StronglySorted_weaken; [|exact H].
  intros a b Hab. unfold SortFacts.key_ge in Hab. unfold by_priority.
  by rewrite Zle_Qle.
Qed.

(** X14: after [addJob] the queue is in descending order of priority,
    whatever order it was in before; and the jobs the worker holds are the
    ones it held and the new one, entered with no retries. *)
Theorem addJob_orders_queue (job : EmbeddingJob) (jobId : string)
    (w : Worker EmbeddingResult) :
  let w' := addJob EmbeddingResult latency config job jobId w in
  StronglySorted by_priority (queue _ w') /\
  jobs _ w' ≡ₚ attempt job jobId 0 :: jobs _ w.
Proof.
  intros w'. split; [|apply addJob_jobs].
  unfold w', addJob. cbn [isProcessing].
  destruct (isProcessing _ w) eqn:Ep; cbn [queue]; [apply sort_by_priority|].
  unfold Worker.processQueue. cbn [isProcessing queue orb].
  destruct (bool_decide _); cbn [queue]; [apply sort_by_priority|].
  apply StronglySorted_drop, sort_by_priority.
Qed.

(** *** [clearQueue] *)

(** X15: [clearQueue] empties the queue and nothing else.  From any state
    the worker can be in, the loop then comes to rest, having emitted, beside
    what it had emitted before, the fate of every job that was in the batch
    in flight or waiting to be re-enqueued, each once, and nothing for the
    jobs that were queued. *)
Theorem clearQueue_spares_held (w : Worker EmbeddingResult) :
  reachable w ->
  exists N, forall n, (N <= n)%nat ->
    let w' := run n (clearQueue _ w) in
    idle _ w' /\
    emitted _ w'
      ≡ₚ emitted _ w ++ map outcome (flat_map (fun e => jobs_of e.2) (agenda _ w)).
Proof using batch_pos.
  intros Hw.
  assert (Hwf : well_formed _ (clearQueue _ w)).
  { apply (reachable_well_formed _ processJob latency config). by constructor. }
  exists (potential _ config (clearQueue _ w)). intros n Hn w'.
  destruct (queue_drains _ processJob latency config batch_pos _ n Hwf Hn)
    as (Hidle & Hem & _).
  split; [exact Hidle|]. unfold w'. rewrite Hem. done.
Qed.

End Queue.

(** A job in flight when the queue is cleared: the job that was added to an
    idle worker, at the default configuration. *)
Definition ex_busy : Worker Z :=
  addJob Z (fun _ => 7) default_config ex_job "job-1" (initial Z).

Lemma ex_busy_reachable : reachable Z ex_processJob (fun _ => 7) default_config ex_busy.
Proof. apply reach_addJob, reach_initial. Qed.

Lemma one_batch_in_flight_witness :
  1 <= batchSize default_config /\
  reachable Z ex_processJob (fun _ => 7) default_config ex_busy /\
  length (in_flight_batches Z ex_busy) = 1%nat.
Proof.
  assert (H1 : 1 <= batchSize default_config) by (simpl; lia).
  split; [exact H1|]. split; [exact ex_busy_reachable|].
  exact (proj1 (one_batch_in_flight Z ex_processJob (fun _ => 7) default_config H1
                  ex_busy ex_busy_reachable)).
Defined.

Lemma clearQueue_spares_held_witness :
  1 <= batchSize default_config /\
  reachable Z ex_processJob (fun _ => 7) default_config ex_busy /\
  exists N, forall n, (N <= n)%nat ->
    emitted Z (run Z ex_processJob (fun _ => 7) default_config n (clearQueue Z ex_busy))
      ≡ₚ [outcome Z ex_processJob default_config (attempt ex_job "job-1" 0)].
Proof.
  assert (H1 : 1 <= batchSize default_config) by (simpl; lia).
  split; [exact H1|]. split; [exact ex_busy_reachable|].
  destruct (clearQueue_spares_held Z ex_processJob (fun _ => 7) default_config H1
              ex_busy ex_busy_reachable) as [N HN].
  exists N. intros n Hn. exact (proj2 (HN n Hn)).
Defined.

End QueueFacts.

(** ** The chunker: sentences, overlap, and what both variants return *)
Module ChunkingFacts.
Import JS JSFacts Chunker ChunkerFacts.

(** *** Blank strings *)

(** A string has ink when one of its characters is not white space. *)
Definition has_ink (s : str) : bool := existsb (fun c => negb (is_ws c)) s.

Lemma has_ink_app (a b : str) : has_ink (a ++ b) = has_ink a || has_ink b.
Proof. apply existsb_app. Qed.

Lemma has_ink_reverse (s : str) : has_ink (reverse s) = has_ink s.
Proof.
  induction s as [|c r IH]; [done|].
  rewrite reverse_cons, has_ink_app, IH. simpl. rewrite orb_false_r. apply orb_comm.
Qed.

Lemma has_ink_trimStart (s : str) : has_ink (trimStart s) = has_ink s.
Proof.
  induction s as [|c r IH]; simpl; [done|].
  destruct (is_ws c) eqn:E; simpl; [|by rewrite E]. exact IH.
Qed.

Lemma trimStart_nil (s : str) : trimStart s = [] <-> has_ink s = false.
Proof.
  induction s as [|c r IH]; simpl; [done|].
  destruct (is_ws c); simpl; [exact IH|]. split; discriminate.
Qed.

Lemma has_ink_trim (s : str) : has_ink (trim s) = has_ink s.
Proof.
  unfold trim, trimEnd.
  by rewrite has_ink_reverse, has_ink_trimStart, has_ink_reverse, has_ink_trimStart.
Qed.

(** A string trims to something exactly when it has ink. *)
Lemma trim_ink (s : str) : 0 < len (trim s) <-> has_ink s = true.
Proof.
  rewrite <- has_ink_trim. split.
  - intros H. destruct (has_ink (trim s)) eqn:E; [done|].
    unfold trim, trimEnd in *.
    rewrite has_ink_reverse, has_ink_trimStart in E. apply trimStart_nil in E.
    rewrite E in H. unfold len in H. simpl in H. lia.
  - intros H. destruct (trim s); [discriminate H|]. unfold len. simpl. lia.
Qed.

Lemma trim_blank (s : str) : len (trim s) = 0 <-> has_ink s = false.
Proof.
  pose proof (trim_ink s) as H. pose proof (len_nonneg (trim s)).
  destruct (has_ink s); split; intros; try done.
  - assert (0 < len (trim s)) by (by apply H). lia.
  - destruct (Z.eq_dec (len (trim s)) 0); [done|].
    assert (0 < len (trim s)) by lia. apply H in H2. done.
Qed.

Lemma has_ink_slice (s : str) (a b : Z) :
  has_ink (slice s a b) = true -> has_ink s = true.
Proof.
  unfold slice. set (m := Z.to_nat (rel_index (len s) a)). set (n := Z.to_nat _).
  intros H.
  assert (Hd : has_ink (drop m s) = true).
  { rewrite <- (take_drop n (drop m s)), has_ink_app, H. done. }
  rewrite <- (take_drop m s), has_ink_app, Hd. apply orb_true_r.
Qed.

Lemma slice_all (s : str) : slice s 0 (len s) = s.
Proof.
  rewrite BudgetTextFacts.slice_0_take. unfold rel_index. pose proof (len_nonneg s).
  destruct (Z.ltb_spec (len s) 0); [lia|].
  rewrite Z.min_id. unfold len. rewrite Nat2Z.id. apply firstn_all.
Qed.

(** *** [splitIntoSentences] *)

(** A sentence is a span of the input with the trimmed text of that span,
    which is not empty. *)
Definition spans (input : str) (s : Sentence) : Prop :=
  0 <= s_start s /\ s_start s <= s_end s /\ s_end s <= len input /\
  s_text s = trim (slice input (s_start s) (s_end s)) /\
  0 < len (s_text s).

Definition precedes (a b : Sentence) : Prop := s_end a <= s_start b.

Lemma sentences_loop_spans (fuel : nat) (t : str) (lastIndex : nat)
    (sentences : list Sentence) :
  (lastIndex <= length t)%nat ->
  Forall (spans t) sentences ->
  Forall (fun s => s_end s <= Z.of_nat lastIndex) sentences ->
  StronglySorted precedes sentences ->
  let r := sentences_loop fuel t lastIndex sentences in
  Forall (spans t) r.1 /\
  Forall (fun s => s_end s <= Z.of_nat r.2) r.1 /\
  StronglySorted precedes r.1 /\ (r.2 <= length t)%nat.
Proof.
  revert lastIndex sentences.
  induction fuel as [|fuel IH]; intros li ss Hl Hok Hend Hs; cbn [sentences_loop].
  - done.
  - destruct (exec t li) as [[index e]|] eqn:E; [|done].
    apply exec_range in E as [H1 H2].
    assert (Hend' : Forall (fun s => s_end s <= Z.of_nat e) ss).
    { eapply Forall_impl; [exact Hend|]. simpl. intros. lia. }
    destruct (Z.ltb_spec 0 (len (trim (slice t (Z.of_nat li) (Z.of_nat e))))) as [Hpos | _].
    + apply IH; [lia| | |].
      * apply Forall_app. split; [done|]. constructor; [|done].
        unfold spans. simpl. unfold len in *. repeat split; (lia || done).
      * apply Forall_app. split; [done|]. constructor; [simpl; lia|done].
      * apply SortFacts.StronglySorted_snoc; [done|].
        eapply Forall_impl; [exact Hend|]. unfold precedes. simpl. intros. lia.
    + apply IH; [lia|done|done|done].
Qed.

Lemma sentences_spans (t : str) :
  Forall (spans t) (splitIntoSentences t) /\
  StronglySorted precedes (splitIntoSentences t) /\
  (splitIntoSentences t = [] <-> len (trim t) = 0).
Proof.
  unfold splitIntoSentences.
  pose proof (sentences_loop_spans (S (length t)) t 0 [] ltac:(lia)
                (Forall_nil_2 _) (Forall_nil_2 _) (SSorted_nil _)) as (H1 & H2 & H3 & H4).
  destruct (sentences_loop (S (length t)) t 0 []) as [ss li]. simpl in *.
  set (rest := {| s_text := trim (slice_from t (Z.of_nat li));
                  s_start := Z.of_nat li; s_end := len t |}).
  set (ss' := if Z.of_nat li <? len t
              then if 0 <? len (trim (slice_from t (Z.of_nat li)))
                   then ss ++ [rest] else ss
              else ss).
  assert (Hall : Forall (spans t) ss' /\ StronglySorted precedes ss').
  { unfold ss'. destruct (Z.ltb_spec (Z.of_nat li) (len t)); [|done].
    destruct (Z.ltb_spec 0 (len (trim (slice_from t (Z.of_nat li))))); [|done]. split.
    - apply Forall_app. split; [done|]. constructor; [|done].
      unfold spans, rest. simpl. unfold slice_from, len in *. repeat split; (lia || done).
    - apply SortFacts.StronglySorted_snoc; [done|].
      eapply Forall_impl; [exact H2|]. unfold precedes, rest. simpl. intros. lia. }
  destruct Hall as [Ha Hb].
  destruct ss' as [|s0 l] eqn:Ess.
  - destruct (Z.ltb_spec 0 (len (trim t))) as [Hpos | Hz].
    + split; [|split].
      * constructor; [|constructor]. unfold spans. simpl.
        pose proof (len_nonneg t). rewrite slice_all. repeat split; (lia || done).
      * repeat constructor.
      * split; [done|lia].
    + split; [constructor|]. split; [constructor|].
      pose proof (len_nonneg (trim t)). split; [lia|done].
  - split; [done|]. split; [done|]. split; [done|].
    intros Hblank. exfalso.
    inversion Ha as [|? ? (_ & _ & _ & Htext & Hpos) _]; subst.
    rewrite Htext in Hpos. apply trim_ink in Hpos.
    apply trim_blank in Hblank.
    apply has_ink_slice in Hpos. by rewrite Hpos in Hblank.
Qed.

(** X16: the sentences are spans of the input that follow one another
    without overlapping, each with the trimmed text of its span, none of
    them blank; and there is none exactly when the input is blank. *)
Theorem sentences_are_spans (t : str) :
  Forall (spans t) (splitIntoSentences t) /\
  StronglySorted precedes (splitIntoSentences t) /\
  (splitIntoSentences t = [] <-> len (trim t) = 0).
Proof. exact (sentences_spans t). Qed.

(** *** [createOverlap] *)

(** X17: the overlap is made of the last words of the chunk, joined by
    single spaces: as many as the ceiling of [0.8 * overlapTokens], or all
    of them if there are fewer; and with [overlapTokens = 0], of all the
    words of the chunk. *)
Theorem createOverlap_words (chunkText : str) (overlapTokens : Z) :
  0 <= overlapTokens ->
  let words := split_ws chunkText in
  let k := Nat.min (length words) (Z.to_nat ((4 * overlapTokens + 4) / 5)) in
  createOverlap chunkText overlapTokens
  = join (lit " ") (if (k =? 0)%nat then words else drop (length words - k) words).
Proof.
  intros Hn words k. unfold createOverlap, array_slice_from. fold words.
  assert (Hc : 0 <= (4 * overlapTokens + 4) / 5) by (apply Z.div_pos; lia).
  f_equal. unfold rel_index.
  destruct (Nat.eqb_spec k 0) as [Hk | Hk]; unfold k in *; clear k.
  - replace (Z.min (Z.of_nat (length words)) ((4 * overlapTokens + 4) / 5)) with 0 by lia.
    simpl. replace (Z.to_nat ((- 0) `min` Z.of_nat (length words))) with 0%nat by lia. done.
  - destruct (Z.ltb_spec (- Z.min (Z.of_nat (length words)) ((4 * overlapTokens + 4) / 5)) 0);
      [|lia].
    f_equal. lia.
Qed.

Lemma createOverlap_words_witness :
  0 <= 0 /\ createOverlap (lit "one  two three") 0 = lit "one two three".
Proof.
  split; [lia|].
  exact (createOverlap_words (lit "one  two three") 0 ltac:(lia)).
Defined.

(** *** chunker.js: the chunks *)

(** Whatever holds of every chunk [push_slice] adds holds of every chunk
    returned. *)
Lemma js_chunks_pushed (P : Chunk -> Prop) (input : str) (target overlap : Z) :
  (forall chunks a b, Forall P chunks -> Forall P (JSV.push_slice input chunks a b)) ->
  Forall P (JSV.chunkText input target overlap).
Proof.
  intros Hpush.
  assert (Hwords : forall haystack base chunks words, Forall P chunks ->
            Forall P (JSV.split_words input haystack base target chunks words)).
  { intros haystack base chunks words H. unfold JSV.split_words.
    assert (G : forall st, Forall P st.1.1 ->
              Forall P (foldl (JSV.word_step input haystack base target) st words).1.1).
    { induction words as [|w ws IH]; intros st Hst; simpl; [done|].
      apply IH. destruct st as [[cs a] b]. simpl in *.
      destruct (_ && _); simpl; [by apply Hpush|done]. }
    specialize (G (chunks, base, base) H).
    destruct (foldl _ _ _) as [[cs ws] we]. simpl in G.
    destruct (ws <? we); [by apply Hpush|done]. }
  unfold JSV.chunkText. destruct (len (trim input) =? 0); [constructor|].
  destruct (splitIntoSentences input) as [|s0 ss]; [constructor|].
  assert (G : forall sentences st, Forall P st.1.1.1 ->
            Forall P (foldl (JSV.step input target overlap) st sentences).1.1.1).
  { induction sentences as [|s l IH]; intros st Hst; simpl; [done|].
    apply IH. destruct st as [[[chunks cs] ce] ct]. simpl in *.
    destruct (target <? _); simpl.
    - apply Hwords. destruct (cs <? ce); [by apply Hpush|done].
    - destruct (_ && _); simpl; [by apply Hpush|done]. }
  specialize (G (s0 :: ss) ([], 0, 0, 0) (Forall_nil_2 _)).
  destruct (foldl _ _ _) as [[[chunks cs] ce] ct]. simpl in G.
  match goal with
  | |- Forall _ (match ?c with [] => _ | _ :: _ => _ end) =>
      assert (Hc : Forall P c);
        [|destruct c; [apply Hwords; constructor|done]]
  end.
  destruct (reaches_min target ct || _); [by apply Hpush|done].
Qed.

(** X18: every chunk of chunker.js lies within the input
    ([0 <= start <= end <= input.length]), carries the trimmed text of the
    input between its offsets, and is not blank. *)
Theorem js_chunks_valid (input : str) (target overlap : Z) :
  Forall (fun c => in_bounds input c /\ offsets_match input c /\ 0 < len (text c))
         (JSV.chunkText input target overlap).
Proof.
  apply Forall_and. split; [apply js_offsets_in_bounds|].
  apply Forall_and. split; [apply js_text_is_slice|].
  apply js_chunks_pushed. intros chunks a b H. unfold JSV.push_slice.
  destruct (Z.ltb_spec 0 (len (trim (slice input a b)))); [|done].
  apply Forall_app. split; [done|]. by repeat constructor.
Qed.

(** *** chunker.ts: a chunk for every input that is not blank *)
Lemma ts_step_ink (target overlap : Z) (st : list Chunk * str * Z * Z) (s : Sentence) :
  has_ink (s_text s) = true ->
  let st' := TS.step target overlap st s in
  st'.1.1.1 <> [] \/ has_ink st'.1.1.2 = true.
Proof.
  destruct st as [[[chunks cur] cs] ct]. simpl. intros Hs.
  destruct (_ && _); simpl.
  - left. by destruct chunks.
  - right. by rewrite !has_ink_app, Hs, !orb_true_r.
Qed.

(** X19: chunker.ts returns no chunk exactly when the input is blank. *)
Theorem ts_chunks_iff_ink (input : str) (target overlap : Z) :
  TS.chunkText input target overlap = [] <-> len (trim input) = 0.
Proof.
  unfold TS.chunkText. destruct (Z.eqb_spec (len (trim input)) 0) as [Hb | Hnb]; [done|].
  split; [|done]. intros Hnil. exfalso.
  destruct (sentences_spans input) as (Hspans & _ & Hiff).
  destruct (splitIntoSentences input) as [|s0 ss] eqn:Es; [by apply Hnb, Hiff|].
  destruct (exists_last (l := s0 :: ss) ltac:(done)) as (front & s & Hlast).
  rewrite Hlast in Hnil, Hspans. rewrite foldl_snoc in Hnil.
  assert (Hs : has_ink (s_text s) = true).
  { apply Forall_app in Hspans as [_ Hs]. inversion Hs as [|? ? (_ & _ & _ & Htext & Hpos) _]; subst.
    rewrite Htext, has_ink_trim. apply trim_ink. by rewrite <- Htext. }
  pose proof (ts_step_ink target overlap
                (foldl (TS.step target overlap) ([], [], 0, 0) front) s Hs) as Hink.
  destruct (TS.step target overlap _ s) as [[[chunks cur] cs] ct]. simpl in *.
  destruct (front ++ [s]) eqn:Ef; [by destruct front|].
  destruct Hink as [Hc | Hc].
  - destruct (reaches_min target ct || _); [by destruct chunks|done].
  - apply trim_ink in Hc. destruct chunks as [|c chunks]; [|by destruct (_ || _)].
    rewrite bool_decide_eq_true_2 in Hnil by done.
    destruct (Z.ltb_spec 0 (len (trim cur))); [|lia].
    rewrite orb_true_r in Hnil. done.
Qed.

(** *** chunker.js: a chunk for every input that is not blank *)

(** Where the scan stops, the pattern starts. *)
Lemma indexOf_go_match (pat s : str) (pos : Z) (k : nat) :
  is_prefix pat (drop k s) = true -> (k <= length s)%nat ->
  is_prefix pat (drop (Z.to_nat (indexOf_go pat s pos - pos)) s) = true.
Proof.
  revert pos k. induction s as [|c s IH]; intros pos k Hk Hlen; simpl in *.
  - assert (k = 0)%nat as -> by lia. simpl in Hk. rewrite Hk.
    by rewrite Z.sub_diag.
  - destruct (is_prefix pat (c :: s)) eqn:E.
    + by rewrite Z.sub_diag.
    + destruct k as [|k]; [simpl in Hk; congruence|]. simpl in Hk.
      specialize (IH (pos + 1) k Hk ltac:(lia)).
      pose proof (indexOf_go_found pat s (pos + 1) k Hk ltac:(lia)) as [[H1 _] _].
      replace (Z.to_nat (indexOf_go pat s (pos + 1) - pos))
        with (S (Z.to_nat (indexOf_go pat s (pos + 1) - (pos + 1)))) by lia.
      exact IH.
Qed.

Lemma indexOf_match (s pat a b : str) (from : Z) :
  s = a ++ pat ++ b -> 0 <= from <= len a ->
  is_prefix pat (drop (Z.to_nat (indexOf s pat from)) s) = true.
Proof.
  intros Hs Hfrom. unfold indexOf.
  assert (Hla : len a <= len s).
  { rewrite Hs, !len_app. pose proof (len_nonneg pat). pose proof (len_nonneg b). lia. }
  replace (Z.min (Z.max from 0) (len s)) with from by lia.
  set (n := Z.to_nat from).
  assert (Hn : (n <= length a)%nat) by (unfold len in *; lia).
  assert (Hk : is_prefix pat (drop (length a - n) (drop n s)) = true).
  { rewrite drop_drop. replace (n + (length a - n))%nat with (length a) by lia.
    rewrite Hs, drop_app_length. apply is_prefix_app. }
  assert (Hl : (length a - n <= length (drop n s))%nat).
  { rewrite length_drop, Hs, length_app. lia. }
  pose proof (indexOf_go_match pat (drop n s) from _ Hk Hl) as Hm.
  pose proof (indexOf_go_found pat (drop n s) from _ Hk Hl) as [[H1 _] _].
  rewrite drop_drop in Hm.
  replace (n + Z.to_nat (indexOf_go pat (drop n s) from - from))%nat
    with (Z.to_nat (indexOf_go pat (drop n s) from)) in Hm by lia.
  exact Hm.
Qed.

(** A window that ends where an occurrence of a word with ink ends, and
    starts at or before its start, has ink. *)
Lemma window_ink (input word : str) (a i : Z) :
  0 <= a <= i -> is_prefix word (drop (Z.to_nat i) input) = true ->
  has_ink word = true ->
  has_ink (slice input a (i + len word)) = true.
Proof.
  intros Ha Hp Hw.
  pose proof (is_prefix_length _ _ Hp) as Hl. rewrite length_drop in Hl.
  apply BudgetTextFacts.is_prefix_true in Hp.
  assert (Hne : (1 <= length word)%nat).
  { destruct word; [discriminate Hw|]. simpl. lia. }
  unfold slice, rel_index.
  destruct (Z.ltb_spec a 0); [lia|].
  destruct (Z.ltb_spec (i + len word) 0); [unfold len in *; lia|].
  assert (Hi : i + len word <= len input) by (unfold len in *; lia).
  replace (Z.min a (len input)) with a by (unfold len in *; lia).
  replace (Z.min (i + len word) (len input)) with (i + len word) by lia.
  assert (Hd : drop (Z.to_nat a) input
               = take (Z.to_nat (i - a)) (drop (Z.to_nat a) input)
                 ++ word ++ drop (length word) (drop (Z.to_nat i) input)).
  { rewrite <- Hp.
    replace (Z.to_nat i) with (Z.to_nat a + Z.to_nat (i - a))%nat by lia.
    rewrite <- drop_drop. by rewrite take_drop. }
  rewrite Hd.
  replace (Z.to_nat (i + len word - a))
    with (length (take (Z.to_nat (i - a)) (drop (Z.to_nat a) input)) + length word)%nat.
  - rewrite <- length_app, app_assoc, take_app_length.
    rewrite has_ink_app, Hw. apply orb_true_r.
  - rewrite length_take, length_drop. unfold len in *. lia.
Qed.

(** The last piece of a string that ends in ink has ink. *)
Lemma split_ws_go_last (cur : str) (in_sep : bool) (s : str) (c : ascii) :
  is_ws c = false ->
  exists w, last (split_ws_go cur in_sep (s ++ [c])) = Some w /\ has_ink w = true.
Proof.
  intros Hc. revert cur in_sep. induction s as [|x r IH]; intros cur in_sep.
  - simpl. rewrite Hc. simpl. exists (cur ++ [c]). split; [done|].
    rewrite has_ink_app. simpl. by rewrite Hc, orb_true_r.
  - cbn [app split_ws_go]. destruct (is_ws x); [|apply IH].
    destruct in_sep; [apply IH|].
    destruct (IH [] true) as (w & Hlast & Hw). exists w. split; [|done].
    destruct (split_ws_go [] true (r ++ [c])) eqn:E; [done|]. exact Hlast.
Qed.

Lemma trimStart_head (s : str) (c : ascii) (r : str) :
  trimStart s = c :: r -> is_ws c = false.
Proof.
  induction s as [|x s IH]; simpl; [done|].
  destruct (is_ws x) eqn:E; [exact IH|]. by intros [= <- _].
Qed.

Lemma trim_words_last (input : str) :
  0 < len (trim input) ->
  exists front w, split_ws (trim input) = front ++ [w] /\ has_ink w = true.
Proof.
  intros Hpos. unfold trim at 1, trimEnd in Hpos.
  destruct (trimStart (reverse (trimStart input))) as [|c r] eqn:E.
  { unfold len in Hpos. simpl in Hpos. lia. }
  pose proof (trimStart_head _ _ _ E) as Hc.
  assert (Ht : trim input = reverse r ++ [c]).
  { unfold trim, trimEnd. rewrite E. by rewrite reverse_cons. }
  rewrite Ht. destruct (split_ws_go_last [] false (reverse r) c Hc) as (w & Hlast & Hw).
  unfold split_ws. apply last_Some in Hlast as [front Hf].
  by exists front, w.
Qed.

Section Fallback.
Variable input : str.
Variable target : Z.

Lemma fallback_inv (front rest : list str) (st : list Chunk * Z * Z) :
  word_inv input input 0 st (front ++ rest) ->
  word_inv input input 0 (foldl (JSV.word_step input input 0 target) st front) rest.
Proof.
  revert st. induction front as [|w front IH]; intros st Hst; simpl; [done|].
  apply IH. apply word_step_inv; [done|lia|done].
Qed.

(** After a word with ink, the window is not empty and has ink. *)
Lemma word_step_ink (st : list Chunk * Z * Z) (word : str) :
  word_inv input input 0 st [word] -> has_ink word = true ->
  let st' := JSV.word_step input input 0 target st word in
  st'.1.2 < st'.2 /\ has_ink (slice input st'.1.2 st'.2) = true.
Proof.
  destruct st as [[chunks ws] we]. unfold word_inv. simpl.
  intros (_ & Hw & He & a & b & Hdrop & _) Hink.
  rewrite Z.sub_0_r in Hdrop.
  assert (Hin : input = (take (Z.to_nat we) input ++ a) ++ word ++ b).
  { rewrite <- app_assoc, <- Hdrop. by rewrite take_drop. }
  assert (Hpre : len (take (Z.to_nat we) input ++ a) = we + len a).
  { rewrite len_app. unfold len in *. rewrite length_take. lia. }
  pose proof (len_nonneg a).
  destruct (indexOf_found input word _ b (we - 0) Hin) as [Hi1 Hi2]; [lia|].
  pose proof (indexOf_match input word _ b (we - 0) Hin ltac:(lia)) as Hm.
  set (i := indexOf input word (we - 0)) in *.
  assert (Hlen : 0 < len word).
  { destruct word; [discriminate Hink|]. unfold len. simpl. lia. }
  destruct (_ && _); simpl.
  - split; [lia|]. apply window_ink; [lia|done|done].
  - split; [lia|]. apply window_ink; [lia|done|done].
Qed.

Lemma fallback_pushes :
  0 < len (trim input) ->
  JSV.split_words input input 0 target [] (split_ws (trim input)) <> [].
Proof.
  intros Hpos. destruct (trim_words_last input Hpos) as (front & w & Hwords & Hink).
  unfold JSV.split_words. rewrite Hwords, foldl_snoc.
  assert (H0 : word_inv input input 0 ([], 0, 0) (front ++ [w])).
  { unfold word_inv. simpl. pose proof (len_nonneg input).
    split; [constructor|]. split; [lia|]. split; [lia|].
    rewrite <- Hwords. destruct (trim_inside input) as (pre & post & Hin).
    rewrite Hin at 2. apply occurs_prepend, occurs_append, split_ws_occurs. }
  pose proof (word_step_ink _ w (fallback_inv front [w] _ H0) Hink) as [Hlt Hi].
  destruct (JSV.word_step input input 0 target _ w) as [[chunks ws] we]. simpl in *.
  destruct (Z.ltb_spec ws we); [|lia].
  unfold JSV.push_slice. apply trim_ink in Hi.
  destruct (Z.ltb_spec 0 (len (trim (slice input ws we)))); [|lia].
  by destruct chunks.
Qed.

End Fallback.

(** X20: chunker.js returns no chunk exactly when the input is blank: where
    the sentences leave none, splitting the input into words leaves one. *)
Theorem js_chunks_iff_ink (input : str) (target overlap : Z) :
  JSV.chunkText input target overlap = [] <-> len (trim input) = 0.
Proof.
  unfold JSV.chunkText. destruct (Z.eqb_spec (len (trim input)) 0) as [Hb | Hnb]; [done|].
  split; [|done]. intros Hnil. exfalso.
  assert (Hpos : 0 < len (trim input)) by (pose proof (len_nonneg (trim input)); lia).
  destruct (sentences_spans input) as (_ & _ & Hiff).
  destruct (splitIntoSentences input) as [|s0 ss] eqn:Es; [by apply Hnb, Hiff|].
  destruct (foldl _ _ _) as [[[chunks cs] ce] ct].
  destruct (if reaches_min target ct || _ then _ else _) as [|c l]; [|done].
  by apply (fallback_pushes input target Hpos).
Qed.

End ChunkingFacts.

(** ** The two selections at any [lambda] *)
Module MarginalFacts.
Import GreedyFacts MMRFacts.

(** *** mmr.ts *)
Section Rerank.
Import MMR.
Variable items : list MMRItem.
Variable queryVec : list float.
Variable lambda : float.

Local Abbreviation dims_ok := (MMRFacts.dims_ok items queryVec).
Local Abbreviation mmr_score := (MMRFacts.mmr_score items queryVec lambda).

(** X21: below the shortcut, and for vectors of the query's dimension,
    [mmr] picks greedily by marginal relevance at any [lambda], the score of
    an id being the number
    [lambda * relevance - (1 - lambda) * similarity to the ids picked before]
    as the code computes it.  The ids it returns are distinct ids of the
    items.  Each of them scored above [-Infinity] when it was picked, and
    every other id not picked yet scored strictly less, or [NaN], or the
    same and comes after it among the distinct ids of the items.  It returns [k] ids, or every
    distinct id if there are fewer, unless it stopped early, which it does
    only when no id that is left scores above [-Infinity]; this when no id
    is empty. *)
Theorem mmr_marginal_relevance (k : Z) :
  dims_ok -> 0 < k < Z.of_nat (length items) ->
  exists out,
    mmr items queryVec lambda k = Ok out /\
    NoDup out /\
    (forall i, i ∈ out -> i ∈ map id items) /\
    (forall pre b post, out = pre ++ b :: post ->
       (PrimFloat.neg_infinity <? mmr_score pre b)%float = true /\
       forall j, j ∈ map id items -> j ∉ pre -> j <> b ->
         (mmr_score pre j <? mmr_score pre b)%float = true \/
         PrimFloat.is_nan (mmr_score pre j) = true \/
         ((mmr_score pre j =? mmr_score pre b)%float = true /\
          Greedy.before (to_set (map id items)) b j)) /\
    (EmptyString ∉ map id items ->
     length out = Nat.min (Z.to_nat k) (length (to_set (map id items))) \/
     forall j, j ∈ map id items -> j ∉ out ->
               (PrimFloat.neg_infinity <? mmr_score out j)%float = false).
Proof. intros Hd Hk. by apply mmr_first_best. Qed.

(** An item whose vector has another dimension than the query's. *)
Definition misfit (it : MMRItem) : Prop := length (vec it) <> length queryVec.

Lemma scan_throws (remaining : list string) (bestId : string) (bestScore : float)
    (i : string) (it : MMRItem) :
  i ∈ remaining -> find_item items i = Some it -> misfit it ->
  scan items queryVec lambda [] remaining bestId bestScore
    = Throw VectorDimensionsMustMatch.
Proof.
  intros Hi Hit Hbad. revert bestId bestScore.
  induction remaining as [|i0 rest IH]; intros bestId bestScore; [inversion Hi|].
  simpl. destruct (decide (i0 = i)) as [-> | Hne].
  - rewrite Hit. unfold calculateRelevance. rewrite cosineSimilarity_throws; [done|].
    intros H. by apply Hbad.
  - assert (Hrest : i ∈ rest).
    { apply elem_of_cons in Hi as [-> | Hi]; [done|done]. }
    destruct (find_item items i0) as [it0|]; [|by apply IH].
    unfold calculateRelevance.
    destruct (decide (length queryVec = length (vec it0))) as [Hl | Hl].
    + rewrite cos_ok by done. simpl. destruct (_ <? _)%float; by apply IH.
    + by rewrite cosineSimilarity_throws.
Qed.

Lemma select_loop_throws (fuel : nat) (k : Z) (remaining : list string)
    (i : string) (it : MMRItem) :
  0 < k -> (1 <= fuel)%nat ->
  i ∈ remaining -> find_item items i = Some it -> misfit it ->
  select_loop fuel items queryVec lambda k [] remaining
    = Throw VectorDimensionsMustMatch.
Proof.
  intros Hk Hf Hi Hit Hbad. destruct fuel as [|fuel]; [lia|]. cbn [select_loop].
  destruct (Z.ltb_spec (Z.of_nat (@length MMRItem [])) k) as [_ | H']; [|simpl in H'; lia].
  destruct remaining as [|i0 rest] eqn:Er; [inversion Hi|]. rewrite <- Er in *.
  replace (0 <? length remaining)%nat with true by (by rewrite Er).
  cbn [andb]. by rewrite (scan_throws _ EmptyString _ i it Hi Hit Hbad).
Qed.

Lemma mmr_throws (k : Z) (it : MMRItem) :
  0 < k < Z.of_nat (length items) -> first_of_id items it -> misfit it ->
  mmr items queryVec lambda k = Throw VectorDimensionsMustMatch.
Proof.
  intros Hk Hit Hbad. unfold mmr.
  destruct items as [|it0 its] eqn:Eit; [simpl in Hk; lia|]. rewrite <- Eit in *.
  destruct (Z.leb_spec k 0); [lia|].
  destruct (Z.leb_spec (Z.of_nat (length items)) k); [lia|].
  assert (Hin : id it ∈ to_set (map id items)).
  { apply to_set_elem, list_elem_of_fmap. exists it. split; [done|].
    by apply (first_of_id_elem items). }
  rewrite (select_loop_throws _ k _ (id it) it); [done|lia| |done|done|done].
  destruct (to_set (map id items)); [inversion Hin|simpl; lia].
Qed.

Lemma NoDup_first_of_id (it : MMRItem) :
  NoDup (map id items) -> it ∈ items -> first_of_id items it.
Proof.
  unfold first_of_id, find_item. induction items as [|x l IH]; intros Hnd Hin.
  - inversion Hin.
  - simpl in *. apply NoDup_cons in Hnd as [Hx Hnd].
    apply elem_of_cons in Hin as [-> | Hin]; [by rewrite String.eqb_refl|].
    destruct (String.eqb_spec (id x) (id it)) as [E | _]; [|by apply IH].
    exfalso. apply Hx. rewrite E. apply list_elem_of_fmap. by exists it.
Qed.

(** X22: with distinct ids, [mmr] throws exactly when it is called below the
    shortcut and some item's vector has another dimension than the query's;
    with [k] at least the number of items the vectors are never looked at. *)
Theorem mmr_throws_iff (k : Z) :
  NoDup (map id items) ->
  mmr items queryVec lambda k = Throw VectorDimensionsMustMatch
  <-> 0 < k < Z.of_nat (length items) /\ Exists misfit items.
Proof.
  intros Hnd. split.
  - intros Hthrow.
    assert (Hk : 0 < k < Z.of_nat (length items)).
    { unfold mmr in Hthrow. destruct items as [|it0 its] eqn:Eit; [done|].
      rewrite <- Eit in *.
      destruct (Z.leb_spec k 0); [done|].
      destruct (Z.leb_spec (Z.of_nat (length items)) k); [done|lia]. }
    split; [done|].
    assert (Hdec : forall it, {misfit it} + {~ misfit it}).
    { intros it. unfold misfit.
      destruct (Nat.eq_dec (length (vec it)) (length queryVec)); [right|left]; tauto. }
    destruct (List.Exists_dec misfit items Hdec) as [H | H]; [done|].
    exfalso.
    assert (Hd : dims_ok).
    { unfold MMRFacts.dims_ok. apply Forall_forall. intros it Hit.
      destruct (decide (length (vec it) = length queryVec)) as [E | E]; [done|].
      exfalso. apply H. apply Exists_exists. by exists it. }
    by rewrite (mmr_picks items queryVec lambda k Hd Hk) in Hthrow.
  - intros [Hk Hbad]. apply Exists_exists in Hbad as (it & Hit & Hbad).
    by apply (mmr_throws k it Hk (NoDup_first_of_id it Hnd Hit)).
Qed.

End Rerank.

(** *** selector.js *)
Section Select.
Import Selector.
Variable config : MMRConfig.
Variable queryEmbedding : list float.
Variable candidates : list MMRItem.
Variable embeddings : gmap string (list float).

Local Abbreviation embeddings_ok := (MMRFacts.embeddings_ok queryEmbedding embeddings).
Local Abbreviation sel_score := (MMRFacts.sel_score config queryEmbedding embeddings).

(** X23: with embeddings of the query's dimension, [select] picks greedily
    by marginal relevance at any [lambda], the score of an id being the
    number
    [lambda * relevance - (1 - lambda) * similarity to the ids picked before]
    as the code computes it; a candidate without an embedding, or whose
    relevance is [NaN], has relevance 0.  The selected items are candidates,
    each the first with its id, no id twice.  Each of them scored above
    [-Infinity] when it was picked, and every other id not picked yet scored
    strictly less, or [NaN], or the same and comes after it among the
    distinct ids of the candidates.  There are [maxResults] of them, or one for every distinct
    id if there are fewer, unless the loop stopped early, which it does only
    when no id that is left scores above [-Infinity]; this when no id is
    empty. *)
Theorem select_marginal_relevance :
  embeddings_ok ->
  exists selected scores,
    select config queryEmbedding candidates embeddings = Ok (selected, scores) /\
    Forall (fun c => find_candidate candidates (id c) = Some c) selected /\
    NoDup (map id selected) /\
    (forall i, i ∈ map id selected -> i ∈ map id candidates) /\
    (forall pre b post, map id selected = pre ++ b :: post ->
       (PrimFloat.neg_infinity <? sel_score pre b)%float = true /\
       forall j, j ∈ map id candidates -> j ∉ pre -> j <> b ->
         (sel_score pre j <? sel_score pre b)%float = true \/
         PrimFloat.is_nan (sel_score pre j) = true \/
         ((sel_score pre j =? sel_score pre b)%float = true /\
          Greedy.before (MMR.to_set (map id candidates)) b j)) /\
    (EmptyString ∉ map id candidates ->
     length selected =
       Nat.min (Z.to_nat (maxResults config))
               (length (MMR.to_set (map id candidates))) \/
     forall j, j ∈ map id candidates -> j ∉ map id selected ->
               (PrimFloat.neg_infinity <? sel_score (map id selected) j)%float = false).
Proof.
  intros Hd.
  destruct (select_first_best config queryEmbedding candidates embeddings Hd)
    as (selected & scores & H1 & _ & H2 & H3 & H4 & H5 & H6).
  by exists selected, scores.
Qed.

Lemma initial_scores_throws (cs : list MMRItem) (scores : gmap string float)
    (c : MMRItem) (e : list float) :
  c ∈ cs -> embeddings !! id c = Some e -> length e <> length queryEmbedding ->
  initial_scores queryEmbedding cs embeddings scores
    = Throw VectorDimensionsMustMatch.
Proof.
  intros Hc He Hbad. revert scores.
  induction cs as [|c0 rest IH]; intros scores; [inversion Hc|]. simpl.
  destruct (decide (id c0 = id c)) as [E | Hne].
  - rewrite E, He. unfold MMR.calculateRelevance.
    rewrite cosineSimilarity_throws; [done|]. intros H. by apply Hbad.
  - assert (Hrest : c ∈ rest).
    { apply elem_of_cons in Hc as [-> | Hc]; [done|done]. }
    destruct (embeddings !! id c0) as [e0|]; [|by apply IH].
    unfold MMR.calculateRelevance.
    destruct (decide (length queryEmbedding = length e0)) as [Hl | Hl].
    + rewrite cos_ok by done. simpl. by apply IH.
    + by rewrite cosineSimilarity_throws.
Qed.

Lemma select_throws (c : MMRItem) (e : list float) :
  c ∈ candidates -> embeddings !! id c = Some e -> length e <> length queryEmbedding ->
  select config queryEmbedding candidates embeddings
    = Throw VectorDimensionsMustMatch.
Proof.
  intros Hc He Hbad. unfold select.
  destruct candidates as [|c0 cs] eqn:Ec; [inversion Hc|]. rewrite <- Ec in *.
  by rewrite (initial_scores_throws candidates ∅ c e Hc He Hbad).
Qed.

End Select.

Lemma mmr_marginal_relevance_witness :
  MMRFacts.dims_ok MMRFacts.ex_items MMRFacts.ex_query /\
  0 < 2 < Z.of_nat (length MMRFacts.ex_items) /\
  exists out,
    MMR.mmr MMRFacts.ex_items MMRFacts.ex_query 0.5 2 = Ok out /\
    NoDup out /\ (forall i, i ∈ out -> i ∈ map MMR.id MMRFacts.ex_items).
Proof.
  assert (H1 : MMRFacts.dims_ok MMRFacts.ex_items MMRFacts.ex_query)
    by (repeat constructor).
  assert (H2 : 0 < 2 < Z.of_nat (length MMRFacts.ex_items)) by (simpl; lia).
  split; [exact H1|]. split; [exact H2|].
  destruct (mmr_marginal_relevance MMRFacts.ex_items MMRFacts.ex_query
              0.5 2 H1 H2) as (out & Ho & Hn & Hs & _).
  exists out. split; [exact Ho|]. split; [exact Hn | exact Hs].
Defined.

Lemma ex_items_NoDup : NoDup (map MMR.id MMRFacts.ex_items).
Proof.
  simpl. repeat (constructor; [rewrite ?not_elem_of_cons; repeat split; try done;
                               apply not_elem_of_nil|]).
  constructor.
Qed.

Lemma mmr_throws_iff_witness :
  NoDup (map MMR.id MMRFacts.ex_items) /\
  MMR.mmr MMRFacts.ex_items [1; 0]%float 0.5 2
    = Throw VectorDimensionsMustMatch.
Proof.
  split; [exact ex_items_NoDup|].
  apply (proj2 (mmr_throws_iff MMRFacts.ex_items [1; 0]%float 0.5 2
                  ex_items_NoDup)).
  split; [simpl; lia|]. apply Exists_cons_hd. unfold misfit. simpl. lia.
Defined.

End MarginalFacts.
(** ** The pipeline's sources *)
Module QueryFacts.
Import JS RAG GreedyFacts MarginalFacts.

Section WithConfig.
Variable generateEmbedding : str -> list float.
Variable config : RAGConfig.

(** The source the result carries for a candidate. *)
Definition source_of (c : Candidate) : Source :=
  {| src_id := id c; src_text := text c; src_score := 0;
     src_startOff := 0; src_endOff := len (text c) |}.

Lemma embeddings_lookup (cs : list Candidate) (m : gmap string (list float))
    (i : string) (e : list float) :
  foldl (fun m c => <[id c := embedding c]> m) m cs !! i = Some e ->
  m !! i = Some e \/ exists c, c ∈ cs /\ id c = i /\ embedding c = e.
Proof.
  revert m. induction cs as [|c0 rest IH]; intros m; simpl; [by left|].
  intros H. apply IH in H as [H | (c & Hc & Hid & He)].
  - destruct (decide (id c0 = i)) as [E | Hne].
    + rewrite E, lookup_insert_eq in H. injection H as <-.
      right. exists c0. split; [apply list_elem_of_here|done].
    + rewrite lookup_insert_ne in H by done. by left.
  - right. exists c. split; [by apply list_elem_of_further|done].
Qed.

Lemma embeddings_lookup_notin (cs : list Candidate) (m : gmap string (list float))
    (i : string) :
  i ∉ map id cs -> foldl (fun m c => <[id c := embedding c]> m) m cs !! i = m !! i.
Proof.
  revert m. induction cs as [|c0 rest IH]; intros m Hi; simpl; [done|].
  simpl in Hi. apply not_elem_of_cons in Hi as [Hne Hi].
  rewrite IH by done. by apply lookup_insert_ne.
Qed.

Lemma embeddings_of_NoDup (cs : list Candidate) (c : Candidate) :
  NoDup (map id cs) -> c ∈ cs -> embeddings_of cs !! id c = Some (embedding c).
Proof.
  unfold embeddings_of. generalize (∅ : gmap string (list float)).
  induction cs as [|c0 rest IH]; intros m Hnd Hc; [inversion Hc|]. simpl in *.
  apply NoDup_cons in Hnd as [Hc0 Hnd].
  apply elem_of_cons in Hc as [-> | Hc]; [|by apply IH].
  rewrite embeddings_lookup_notin by done. apply lookup_insert_eq.
Qed.

Lemma embeddings_of_ok (q : list float) (cs : list Candidate) :
  Forall (fun c => length (embedding c) = length q) cs ->
  MMRFacts.embeddings_ok q (embeddings_of cs).
Proof.
  intros Hcs i v Hv. apply embeddings_lookup in Hv as [Hv | (c & Hc & _ & <-)].
  - by rewrite lookup_empty in Hv.
  - rewrite Forall_forall in Hcs. by apply Hcs.
Qed.

Lemma first_candidate_source (cs : list Candidate) (s : Selector.MMRItem) :
  Selector.find_candidate (map to_mmr cs) (Selector.id s) = Some s ->
  exists c, c ∈ cs /\ s = to_mmr c.
Proof.
  unfold Selector.find_candidate. intros H. apply find_some in H as [H _].
  apply list_elem_of_In, list_elem_of_fmap in H as (c & -> & Hc). by exists c.
Qed.

Lemma filterCandidates_elem (candidates : list Candidate) (filters : option Filters)
    (c : Candidate) :
  c ∈ filterCandidates candidates filters ->
  c ∈ candidates /\ forall f, filters = Some f -> keep f c = true.
Proof.
  unfold filterCandidates. destruct filters as [f|].
  - rewrite list_elem_of_In, filter_In, <- list_elem_of_In. intros [H1 H2].
    split; [done|]. by intros f' [= <-].
  - intros H. split; [done|]. by intros f' [=].
Qed.

(** The score the selector gives the id [j] of a candidate once the ids
    [pre] are selected. *)
Definition score_in (q : RAGQuery) (filtered : list Candidate)
    (pre : list string) (j : string) : float :=
  MMRFacts.sel_score (selector_config config) (generateEmbedding (question q))
    (embeddings_of filtered) pre j.

Lemma query_ok (q : RAGQuery) (candidates : list Candidate) :
  let filtered := filterCandidates candidates (filters q) in
  Forall (fun c => length (embedding c) = length (generateEmbedding (question q)))
         filtered ->
  exists selected scores,
    Selector.select (selector_config config) (generateEmbedding (question q))
      (map to_mmr filtered) (embeddings_of filtered) = Ok (selected, scores) /\
    query generateEmbedding config q candidates
      = Ok (generateAnswer config selected) /\
    Forall (fun s => exists c, c ∈ filtered /\ s = to_mmr c) selected /\
    NoDup (map Selector.id selected) /\
    (EmptyString ∉ map id filtered ->
     length selected = Nat.min (Z.to_nat (topK config))
                               (length (MMR.to_set (map id filtered))) \/
     forall j, j ∈ map id filtered -> j ∉ map Selector.id selected ->
       (PrimFloat.neg_infinity
        <? score_in q filtered (map Selector.id selected) j)%float = false).
Proof.
  intros filtered Hdims.
  destruct (MMRFacts.select_first_best (selector_config config)
              (generateEmbedding (question q))
              (map to_mmr filtered) (embeddings_of filtered)
              (embeddings_of_ok _ _ Hdims))
    as (selected & scores & Hsel & _ & Hfirst & Hnd & _ & _ & Hlen).
  exists selected, scores. split; [done|]. split; [|split; [|split]].
  - unfold query. fold filtered. by rewrite Hsel.
  - eapply Forall_impl; [exact Hfirst|]. intros s Hs.
    by apply first_candidate_source.
  - done.
  - intros Hne. rewrite <- list_fmap_compose in Hlen.
    apply Hlen. exact Hne.
Qed.

(** X24: when the embeddings of the candidates that pass the filters have
    the dimension of the query's embedding, [query] returns a result whose
    sources are candidates that pass the filters, each with its id and text,
    the score 0 and the offsets of its whole text; no id comes twice; there
    are [topK] of them, or one for each distinct id if there are fewer,
    unless the selector stopped early, which it does only when no id that
    is left scores above [-Infinity], this when no id is empty; and the
    citations are those of the first [maxCitations] sources, [maxCitations]
    being at least 1 as the constructor's schema has it.  Candidates the
    filters drop are not looked at. *)
Theorem query_sources (q : RAGQuery) (candidates : list Candidate) :
  let filtered := filterCandidates candidates (filters q) in
  1 <= maxCitations config ->
  Forall (fun c => length (embedding c) = length (generateEmbedding (question q)))
         filtered ->
  exists r,
    query generateEmbedding config q candidates = Ok r /\
    NoDup (map src_id (sources r)) /\
    Forall (fun s => exists c, c ∈ candidates /\
                               (forall f, filters q = Some f -> keep f c = true) /\
                               s = source_of c) (sources r) /\
    (EmptyString ∉ map id filtered ->
     length (sources r) = Nat.min (Z.to_nat (topK config))
                                  (length (MMR.to_set (map id filtered))) \/
     forall j, j ∈ map id filtered -> j ∉ map src_id (sources r) ->
       (PrimFloat.neg_infinity
        <? score_in q filtered (map src_id (sources r)) j)%float = false) /\
    map chunkId (citations r)
      = take (Z.to_nat (maxCitations config)) (map src_id (sources r)).
Proof.
  intros filtered _ Hdims.
  destruct (query_ok q candidates Hdims) as (selected & scores & _ & Hq & Hc & Hnd & Hlen).
  exists (generateAnswer config selected). split; [done|]. simpl.
  rewrite <- !list_fmap_compose. split; [done|]. split; [|split].
  - apply Forall_fmap. eapply Forall_impl; [exact Hc|].
    intros s (c & Hin & ->). simpl. exists c.
    apply filterCandidates_elem in Hin as [H1 H2]. done.
  - rewrite length_map. exact Hlen.
  - by rewrite <- fmap_take.
Qed.

(** X25: with distinct ids among the candidates that pass the filters,
    [query] throws exactly when the embedding of one of them has another
    dimension than the query's embedding. *)
Theorem query_throws_iff (q : RAGQuery) (candidates : list Candidate) :
  let filtered := filterCandidates candidates (filters q) in
  NoDup (map id filtered) ->
  query generateEmbedding config q candidates = Throw VectorDimensionsMustMatch
  <-> Exists (fun c => length (embedding c) <> length (generateEmbedding (question q)))
             filtered.
Proof.
  intros filtered Hnd. split.
  - intros Hthrow.
    set (bad := fun c : Candidate =>
                  length (embedding c) <> length (generateEmbedding (question q))).
    assert (Hdec : forall c, {bad c} + {~ bad c}).
    { intros c. unfold bad.
      destruct (Nat.eq_dec (length (embedding c))
                           (length (generateEmbedding (question q))));
        [right|left]; tauto. }
    destruct (List.Exists_dec bad filtered Hdec) as [H | H]; [done|]. exfalso.
    assert (Hd : Forall (fun c => length (embedding c)
                                  = length (generateEmbedding (question q))) filtered).
    { apply Forall_forall. intros c Hc.
      destruct (Nat.eq_dec (length (embedding c))
                           (length (generateEmbedding (question q)))) as [E | E]; [done|].
      exfalso. apply H. apply Exists_exists. by exists c. }
    destruct (query_ok q candidates Hd) as (selected & scores & _ & Hq & _).
    by rewrite Hq in Hthrow.
  - intros Hbad. apply Exists_exists in Hbad as (c & Hc & Hbad).
    unfold query. fold filtered.
    rewrite (select_throws (selector_config config) _ (map to_mmr filtered)
               (embeddings_of filtered) (to_mmr c) (embedding c)); [done| | |done].
    + apply list_elem_of_fmap. by exists c.
    + simpl. by apply embeddings_of_NoDup.
Qed.

End WithConfig.

(** A second candidate beside the one of the confidence example. *)
Definition ex_other : Candidate :=
  {| id := "chunk-2"; text := lit "Water the plants";
     embedding := [0; 1]%float;
     metadata := {| Selector.tags := None; Selector.occurredAt := None;
                    Selector.importance := None |} |}.

Definition ex_candidates : list Candidate := [PipelineFacts.ex_candidate; ex_other].

Lemma ex_candidates_dims :
  Forall (fun c => length (embedding c) = 2%nat) ex_candidates.
Proof. repeat constructor. Qed.

Lemma ex_candidates_NoDup : NoDup (map id ex_candidates).
Proof.
  simpl. repeat (constructor; [rewrite ?not_elem_of_cons; repeat split; try done;
                               apply not_elem_of_nil|]).
  constructor.
Qed.

Lemma select_marginal_relevance_witness :
  MMRFacts.embeddings_ok [1; 0]%float (embeddings_of ex_candidates) /\
  exists selected scores,
    Selector.select (selector_config PipelineFacts.default_config)
      [1; 0]%float (map to_mmr ex_candidates) (embeddings_of ex_candidates)
      = Ok (selected, scores) /\
    NoDup (map Selector.id selected) /\
    (forall i, i ∈ map Selector.id selected ->
               i ∈ map Selector.id (map to_mmr ex_candidates)).
Proof.
  assert (H1 : MMRFacts.embeddings_ok [1; 0]%float (embeddings_of ex_candidates))
    by exact (embeddings_of_ok [1; 0]%float ex_candidates ex_candidates_dims).
  split; [exact H1|].
  destruct (select_marginal_relevance
              (selector_config PipelineFacts.default_config) [1; 0]%float
              (map to_mmr ex_candidates) (embeddings_of ex_candidates) H1)
    as (selected & scores & Hs & _ & Hn & Hi & _).
  exists selected, scores. split; [exact Hs|]. split; [exact Hn | exact Hi].
Defined.

Lemma query_sources_witness :
  1 <= maxCitations PipelineFacts.default_config /\
  Forall (fun c => length (embedding c)
                   = length (PipelineFacts.ex_embed (question PipelineFacts.ex_query)))
         (filterCandidates ex_candidates (filters PipelineFacts.ex_query)) /\
  exists r,
    query PipelineFacts.ex_embed PipelineFacts.default_config
      PipelineFacts.ex_query ex_candidates = Ok r /\
    NoDup (map src_id (sources r)) /\
    map chunkId (citations r)
      = take (Z.to_nat (maxCitations PipelineFacts.default_config))
             (map src_id (sources r)).
Proof.
  assert (H1 : 1 <= maxCitations PipelineFacts.default_config) by (simpl; lia).
  split; [exact H1|]. split; [exact ex_candidates_dims|].
  destruct (query_sources PipelineFacts.ex_embed
              PipelineFacts.default_config PipelineFacts.ex_query ex_candidates
              H1 ex_candidates_dims) as (r & Hq & Hn & _ & _ & Hc).
  exists r. split; [exact Hq|]. split; [exact Hn | exact Hc].
Defined.

Lemma query_throws_iff_witness :
  NoDup (map id (filterCandidates ex_candidates (filters PipelineFacts.ex_query))) /\
  query (fun _ => [1; 0; 0]%float) PipelineFacts.default_config
    PipelineFacts.ex_query ex_candidates = Throw VectorDimensionsMustMatch.
Proof.
  split; [exact ex_candidates_NoDup|].
  apply (proj2 (query_throws_iff (fun _ => [1; 0; 0]%float)
                  PipelineFacts.default_config PipelineFacts.ex_query ex_candidates
                  ex_candidates_NoDup)).
  apply Exists_cons_hd. simpl. lia.
Defined.

End QueryFacts.
